(** * Viterbi decoding over a hidden Markov model

    A shallow embedding of [src/viterbi/hidden_markov_model.py] and
    [src/viterbi/viterbi_algorithm.py], of the command [solve] of
    [manage.py] and of the parameter types of [src/cli/types.py].

    Numbers.  The source computes with numpy [longdouble] values.  The
    embedding is parametric in the scalar type: the class [Scalar] lists
    the operations the two modules use ([*], [+], [-], [/], [<] and the
    constants [0.0], [1.0], [1e-5]).  Everything that is proved inside
    [Section Generic] is proved for an arbitrary interpretation of these
    operations, with no law assumed.  Statements about numeric values
    (validation bounds, normalisation, the worked example) are proved in
    [Module QModel], where scalars are exact rationals ([Qc]).  There
    [x / 0] is [0], where numpy gives an infinity or a NaN; no theorem
    below rests on the value of a division by zero.

    Arrays.  A numpy array is a shape and the row-major list of its
    entries.  Python exceptions are values of [exn]; a Python function
    that can raise returns a [result].

    Library code.  [scipy.linalg.null_space] is not part of the
    repository; it is a parameter [null_space] of the functions that
    call it, and each theorem says what it needs of its output.

    Command line.  A Python [str] is the list of its characters, with
    code points below 256.  The patterns of [src/cli/types.py] are
    values of [regex], and Python's [re.fullmatch] and [re.findall] are
    a backtracking matcher over them that tries alternatives in the
    order [re] does.  [int] is embedded on the strings it is applied
    to, with its limit on the number of digits; [float] and the text of
    numpy's error for rows of different lengths are parameters of the
    functions that use them.  [click] itself is not embedded: its
    [self.fail] is the exception [BadParameter]. *)

From Stdlib Require Import String List ZArith Arith Bool Lia.
From Stdlib Require Import QArith Qcanon Lqa.
From Stdlib Require Import Ascii.
From Stdlib Require Decimal DecimalPos DecimalZ.
Import ListNotations.

Local Open Scope nat_scope.
Local Open Scope list_scope.

(** ** Scalars *)

Class Scalar (F : Type) : Type := {
  f0 : F;                      (* 0.0 *)
  f1 : F;                      (* 1.0 *)
  ftol : F;                    (* 1e-5 *)
  fadd : F -> F -> F;
  fsub : F -> F -> F;
  fmul : F -> F -> F;
  fdiv : F -> F -> F;
  fltb : F -> F -> bool        (* x < y *)
}.

(** Python's [x > y]. *)
Definition fgtb {F} `{Scalar F} (x y : F) : bool := fltb y x.

(** ** Arrays, exceptions, results *)

Record ndarray (F : Type) : Type := mk_ndarray {
  shape : list nat;
  data : list F
}.
Arguments mk_ndarray {F} _ _.
Arguments shape {F} _.
Arguments data {F} _.

Inductive exn (F : Type) : Type :=
| ValueError (msg : string)
| NonUniqueStationary (eigen_basis : ndarray F)
    (* the ValueError of [steady_state_probabilities]; its message
       formats [eigen_basis] *)
| IndexError.
Arguments ValueError {F} msg%_string.
Arguments NonUniqueStationary {F} _.
Arguments IndexError {F}.

Inductive result (F A : Type) : Type :=
| Ok (a : A)
| Raise (e : exn F).
Arguments Ok {F A} _.
Arguments Raise {F A} _.

Definition bind {F A B} (r : result F A) (k : A -> result F B) : result F B :=
  match r with
  | Ok a => k a
  | Raise e => Raise e
  end.

Notation "x <- r ;; k" := (bind r (fun x => k))
  (at level 61, r at next level, right associativity).
Notation "' pat <- r ;; k" := (bind r (fun x => match x with pat => k end))
  (at level 61, pat pattern, r at next level, right associativity).

Fixpoint mapM {F A B} (f : A -> result F B) (l : list A) : result F (list B) :=
  match l with
  | [] => Ok []
  | a :: l' => b <- f a ;; bs <- mapM f l' ;; Ok (b :: bs)
  end.

(** Python / numpy integer indexing into an axis of length [len]:
    [0 <= i < len] selects [i], [-len <= i < 0] selects [len + i],
    anything else raises [IndexError]. *)
Definition py_index (len : nat) (i : Z) : option nat :=
  if ((0 <=? i)%Z && (i <? Z.of_nat len)%Z)%bool then Some (Z.to_nat i)
  else if ((- Z.of_nat len <=? i)%Z && (i <? 0)%Z)%bool
       then Some (Z.to_nat (Z.of_nat len + i))
       else None.

Definition prod_shape (s : list nat) : nat := fold_right Nat.mul 1 s.

(** The invariant numpy maintains for every array. *)
Definition wf {F} (a : ndarray F) : Prop :=
  length (data a) = prod_shape (shape a).

(** Two marbles select the same emission column of an [m]-column
    matrix: they are equal, or the first is negative and the second
    is [m] more. *)
Definition same_column (m : nat) (a b : Z) : Prop :=
  a = b \/ ((- Z.of_nat m <= a <= -1)%Z /\ b = (Z.of_nat m + a)%Z).

Section Generic.

Context {F : Type} `{SF : Scalar F}.

Local Abbreviation array := (ndarray F).
Local Abbreviation res := (result F).

(** *** numpy operations used by the source *)

(** [len(a)] *)
Definition len (a : array) : nat := hd 0 (shape a).

(** [a.flatten()] as a list. *)
Definition flatten (a : array) : list F := data a.

(** [a[i]] for an integer [i]: the [i]-th slice along the first axis. *)
Definition getitem (a : array) (i : Z) : res array :=
  match shape a with
  | [] => Raise IndexError
  | d :: rest =>
      match py_index d i with
      | None => Raise IndexError
      | Some k =>
          let sz := prod_shape rest in
          Ok (mk_ndarray rest (firstn sz (skipn (k * sz) (data a))))
      end
  end.

(** The scalar held by a zero-dimensional result. *)
Definition item (a : array) : F := hd f0 (data a).

(** [a[i][j]] *)
Definition getitem2 (a : array) (i j : Z) : res F :=
  r <- getitem a i ;; x <- getitem r j ;; Ok (item x).

(** [a.sum()] of a one-dimensional array. *)
Definition fsum (l : list F) : F := fold_left fadd l f0.

(** Rows of a two-dimensional array. *)
Definition rows (a : array) : list (list F) :=
  match shape a with
  | [r; c] => map (fun i => firstn c (skipn (i * c) (data a))) (seq 0 r)
  | _ => []
  end.

(** [a.sum(axis=1)] of a two-dimensional array. *)
Definition sum_axis1 (a : array) : list F := map fsum (rows a).

(** [a.transpose()]: axes reversed; entries are moved for two
    dimensions, the only case the source reaches. *)
Definition transpose (a : array) : array :=
  match shape a with
  | [r; c] =>
      mk_ndarray [c; r]
        (flat_map (fun j => map (fun i => nth (i * c + j) (data a) f0) (seq 0 r))
                  (seq 0 c))
  | s => mk_ndarray (rev s) (data a)
  end.

(** [np.identity(n)] *)
Definition identity (n : nat) : array :=
  mk_ndarray [n; n]
    (flat_map (fun i => map (fun j => if i =? j then f1 else f0) (seq 0 n))
              (seq 0 n)).

Fixpoint map2 {A B C} (f : A -> B -> C) (l : list A) (l' : list B) : list C :=
  match l, l' with
  | a :: t, b :: t' => f a b :: map2 f t t'
  | _, _ => []
  end.

(** [a - b] for arrays of one shape (the source subtracts the n-by-n
    identity from the square transition matrix). *)
Definition array_sub (a b : array) : array :=
  mk_ndarray (shape a) (map2 fsub (data a) (data b)).

(** [u * v] for one-dimensional arrays, with numpy broadcasting: equal
    lengths multiply entrywise, a length-1 operand is stretched, any
    other pair of lengths raises ValueError. *)
Definition broadcast_mul (u v : list F) : res (list F) :=
  if length u =? length v then Ok (map2 fmul u v)
  else match u, v with
       | [x], _ => Ok (map (fun y => fmul x y) v)
       | _, [y] => Ok (map (fun x => fmul x y) u)
       | _, _ => Raise (ValueError "operands could not be broadcast together")
       end.

Fixpoint argmax_from (best_i : nat) (best : F) (i : nat) (l : list F) : nat :=
  match l with
  | [] => best_i
  | x :: l' =>
      if fgtb x best then argmax_from i x (S i) l'
      else argmax_from best_i best (S i) l'
  end.

(** [int(np.argmax(v))]: first index holding the maximum; ValueError
    on an empty array. *)
Definition argmax (v : list F) : res nat :=
  match v with
  | [] => Raise (ValueError "attempt to get argmax of an empty sequence")
  | x :: l => Ok (argmax_from 0 x 1 l)
  end.

(** *** hidden_markov_model.py *)

Record HiddenMarkovModel : Type := mk_hmm {
  transition_matrix : array;
  sampling_probabilities : array
}.

Definition valid_tranisition_matrix (hmm : HiddenMarkovModel) (mat : array)
  : res unit :=
  let shape := shape mat in
  if negb (length shape =? 2) then
    Raise (ValueError "Matrix is not two-dimensions!")
  else if negb (nth 0 shape 0 =? nth 1 shape 0) then
    Raise (ValueError "Matrix is not square!")
  else if existsb (fun entry => fltb entry f0) (flatten mat) then
    Raise (ValueError "Rows include negative probabilities!")
  else if existsb (fun rowSum => fgtb (fsub rowSum f1) ftol) (sum_axis1 mat) then
    Raise (ValueError "Matrix is not stochastic!")
  else Ok tt.

Definition valid_sampling_probabilities (hmm : HiddenMarkovModel)
  (sampling_probabilities : array) : res unit :=
  let mat_shape := shape (transition_matrix hmm) in
  let sampling_shape := shape sampling_probabilities in
  if negb (length mat_shape =? length sampling_shape) then
    Raise (ValueError "Does not provide a distribution for each state!")
  else if existsb (fun entry => fltb entry f0) (flatten sampling_probabilities) then
    Raise (ValueError "Distributions on marbles include negative probabilities!")
  else if existsb (fun rowSum => fgtb (fsub rowSum f1) ftol)
                  (sum_axis1 sampling_probabilities) then
    Raise (ValueError "Not a valid distribution!")
  else Ok tt.

(** [HiddenMarkovModel(transition_matrix=t, sampling_probabilities=s)]:
    the attrs-generated constructor stores both fields and then runs
    the validators in field order. *)
Definition new_hmm (t s : array) : res HiddenMarkovModel :=
  let hmm := mk_hmm t s in
  _ <- valid_tranisition_matrix hmm t ;;
  _ <- valid_sampling_probabilities hmm s ;;
  Ok hmm.

(** A model is validated when the constructor returned it. *)
Definition validated (hmm : HiddenMarkovModel) : Prop :=
  new_hmm (transition_matrix hmm) (sampling_probabilities hmm) = Ok hmm.

(** *** What [scipy.linalg.null_space] is documented to return

    For a matrix [k] with N columns the result is an N-by-K array whose
    K columns form a basis of [{ x | k x = 0 }].  (scipy returns an
    orthonormal basis; the source divides by the sum of the entries, so
    only the direction matters.) *)

Definition ncols (a : array) : nat := nth 1 (shape a) 0.

Definition dot (u v : list F) : F := fsum (map2 fmul u v).

Definition mat_vec (k : array) (x : list F) : list F :=
  map (fun r => dot r x) (rows k).

Definition in_null_space (k : array) (x : list F) : Prop :=
  length x = ncols k /\ Forall (fun y => y = f0) (mat_vec k x).

Definition columns (b : array) : list (list F) := rows (transpose b).

Definition scale (c : F) (v : list F) : list F := map (fun y => fmul c y) v.

Definition lin_comb (n : nat) (cs : list F) (vs : list (list F)) : list F :=
  fold_right (fun cv acc => map2 fadd (scale (fst cv) (snd cv)) acc)
             (repeat f0 n) (combine cs vs).

Record null_space_basis (k b : array) (dim : nat) : Prop := {
  basis_shape : shape b = [ncols k; dim];
  basis_wf : wf b;
  basis_in_null_space : Forall (in_null_space k) (columns b);
  basis_spans : forall x, in_null_space k x ->
      exists cs, length cs = dim /\ x = lin_comb (ncols k) cs (columns b);
  basis_independent : forall cs, length cs = dim ->
      lin_comb (ncols k) cs (columns b) = repeat f0 (ncols k) ->
      Forall (fun c => c = f0) cs
}.

Section WithNullSpace.

(** [scipy.linalg.null_space]: for an M-by-N input, an N-by-K array
    whose columns span the null space. *)
Variable null_space : array -> array.

Definition kernel_matrix (hmm : HiddenMarkovModel) : array :=
  let n := len (transition_matrix hmm) in
  transpose (array_sub (transition_matrix hmm) (identity n)).

Definition steady_state_probabilities (hmm : HiddenMarkovModel) : res (list F) :=
  let eigen_basis := null_space (kernel_matrix hmm) in
  match nth_error (shape eigen_basis) 1 with
  | None => Raise IndexError
  | Some geometric_multiplicity =>
      if 1 <? geometric_multiplicity then
        Raise (NonUniqueStationary eigen_basis)
      else
        let steady_state_vector := flatten eigen_basis in
        let total := fsum steady_state_vector in
        Ok (map (fun x => fdiv x total) steady_state_vector)
  end.

(** *** viterbi_algorithm.py *)

(** The innermost loop of [viterbi]:
    [for parent_candidate, parent_probability in enumerate(probabilities)],
    started at index [parent_candidate] with the current running
    maximum and the current most likely parent. *)
Fixpoint best_parent (hmm : HiddenMarkovModel) (bag : nat)
  (parent_candidate : nat) (probabilities : list F)
  (max_parent_probability : F) (most_likely_parent : nat) : res (F * nat) :=
  match probabilities with
  | [] => Ok (max_parent_probability, most_likely_parent)
  | parent_probability :: rest =>
      t <- getitem2 (transition_matrix hmm)
             (Z.of_nat parent_candidate) (Z.of_nat bag) ;;
      let p := fmul parent_probability t in
      if fgtb p max_parent_probability
      then best_parent hmm bag (S parent_candidate) rest p parent_candidate
      else best_parent hmm bag (S parent_candidate) rest
             max_parent_probability most_likely_parent
  end.

(** Body of [for bag in range(num_bags)]: the entry written to
    [new_probabilities[bag]] and the parent appended to [new_parents]. *)
Definition step_bag (hmm : HiddenMarkovModel) (probabilities : list F)
  (marble : Z) (bag : nat) : res (F * nat) :=
  ' (max_parent_probability, most_likely_parent) <-
      best_parent hmm bag 0 probabilities f0 0 ;;
  e <- getitem2 (sampling_probabilities hmm) (Z.of_nat bag) marble ;;
  Ok (fmul max_parent_probability e, most_likely_parent).

(** Body of [for i, marble in enumerate(sequence[1:])]:
    [(new_probabilities, new_parents)]. *)
Definition step (hmm : HiddenMarkovModel) (num_bags : nat)
  (probabilities : list F) (marble : Z) : res (list F * list nat) :=
  r <- mapM (step_bag hmm probabilities marble) (seq 0 num_bags) ;;
  Ok (map fst r, map snd r).

Fixpoint run_steps (hmm : HiddenMarkovModel) (num_bags : nat)
  (probabilities : list F) (parents_by_marble : list (list nat))
  (marbles : list Z) : res (list F * list (list nat)) :=
  match marbles with
  | [] => Ok (probabilities, parents_by_marble)
  | marble :: rest =>
      ' (new_probabilities, new_parents) <-
          step hmm num_bags probabilities marble ;;
      run_steps hmm num_bags new_probabilities
        (parents_by_marble ++ [new_parents]) rest
  end.

(** [hmm.steady_state_probabilities()
      * hmm.sampling_probabilities.transpose()[first_marble]];
    Python evaluates the left operand first. *)
Definition initial_probabilities (hmm : HiddenMarkovModel) (first_marble : Z)
  : res (list F) :=
  steady <- steady_state_probabilities hmm ;;
  column <- getitem (transpose (sampling_probabilities hmm)) first_marble ;;
  broadcast_mul steady (flatten column).

(** The forward pass: everything [viterbi] does between the emptiness
    test and [np.argmax]. *)
Definition forward (hmm : HiddenMarkovModel) (first_marble : Z)
  (rest : list Z) : res (list F * list (list nat)) :=
  probabilities <- initial_probabilities hmm first_marble ;;
  let num_bags := len (transition_matrix hmm) in
  run_steps hmm num_bags probabilities [] rest.

(** [for parent_array in reversed(parents_by_marble)], given the
    reversed list. *)
Fixpoint backtrace (rev_parents : list (list nat)) (last_visited_bag : nat)
  (rev_path : list nat) : res (list nat) :=
  match rev_parents with
  | [] => Ok rev_path
  | parent_array :: rest =>
      match nth_error parent_array last_visited_bag with
      | None => Raise IndexError
      | Some parent => backtrace rest parent (rev_path ++ [parent])
      end
  end.

Definition viterbi (hmm : HiddenMarkovModel) (sequence : list Z)
  : res (list nat) :=
  match sequence with
  | [] => Raise (ValueError "Cannot provide empty sequence of events!")
  | first_marble :: rest =>
      ' (probabilities, parents_by_marble) <- forward hmm first_marble rest ;;
      most_likely_end_bag <- argmax probabilities ;;
      rev_path <- backtrace (rev parents_by_marble) most_likely_end_bag
                    [most_likely_end_bag] ;;
      Ok (rev rev_path)
  end.


(** The dynamic programme has run, without failure, through the
    marbles [pre]: for no marble that means the steady state has been
    computed. *)
Definition dp_reaches (hmm : HiddenMarkovModel) (pre : list Z) : Prop :=
  match pre with
  | [] => exists steady, steady_state_probabilities hmm = Ok steady
  | first_marble :: rest => exists st, forward hmm first_marble rest = Ok st
  end.

End WithNullSpace.

(** *** The forward recurrence, in the words of the specification

    [entry a i j] is the entry in row [i] and column [j] of a
    two-dimensional array. *)

Definition entry (a : array) (i j : nat) : F :=
  nth (i * ncols a + j) (data a) f0.

(** Step 2: [prob[state] = stationary[state] * emission_matrix[state][obs[0]]]
    for every state. *)
Definition spec_initial (hmm : HiddenMarkovModel) (stationary : list F)
  (obs0 : nat) : list F :=
  map (fun state =>
         fmul (nth state stationary f0)
              (entry (sampling_probabilities hmm) state obs0))
      (seq 0 (len (transition_matrix hmm))).

(** Step 3a: the products [prob[p] * transition_matrix[p][s]] over all
    prior states [p], scanned in index order with a strict comparison
    against a running maximum that starts at 0.0. *)
Definition spec_candidates (hmm : HiddenMarkovModel) (prob : list F)
  (s : nat) : list F :=
  map (fun p => fmul (nth p prob f0) (entry (transition_matrix hmm) p s))
      (seq 0 (len (transition_matrix hmm))).

Fixpoint spec_scan (candidates : list F) (p : nat) (running_max : F)
  (best_prev : nat) : nat :=
  match candidates with
  | [] => best_prev
  | c :: rest =>
      if fgtb c running_max then spec_scan rest (S p) c p
      else spec_scan rest (S p) running_max best_prev
  end.

Definition spec_best_prev (hmm : HiddenMarkovModel) (prob : list F)
  (s : nat) : nat :=
  spec_scan (spec_candidates hmm prob s) 0 f0 0.

(** Step 3b. *)
Definition spec_new_prob (hmm : HiddenMarkovModel) (prob : list F)
  (s obs_t : nat) : F :=
  let best_prev := spec_best_prev hmm prob s in
  fmul (fmul (nth best_prev prob f0)
             (entry (transition_matrix hmm) best_prev s))
       (entry (sampling_probabilities hmm) s obs_t).

(** Steps 3b and 3c for every state [s]. *)
Definition spec_step (hmm : HiddenMarkovModel) (prob : list F) (obs_t : nat)
  : list F * list nat :=
  let states := seq 0 (len (transition_matrix hmm)) in
  (map (fun s => spec_new_prob hmm prob s obs_t) states,
   map (fun s => spec_best_prev hmm prob s) states).

Fixpoint spec_steps (hmm : HiddenMarkovModel) (prob : list F)
  (backpointer : list (list nat)) (obs : list nat)
  : list F * list (list nat) :=
  match obs with
  | [] => (prob, backpointer)
  | obs_t :: rest =>
      let (new_prob, best_prev) := spec_step hmm prob obs_t in
      spec_steps hmm new_prob (backpointer ++ [best_prev]) rest
  end.

Definition spec_forward (hmm : HiddenMarkovModel) (stationary : list F)
  (obs0 : nat) (rest : list nat) : list F * list (list nat) :=
  spec_steps hmm (spec_initial hmm stationary obs0) [] rest.

(** The scan of the source's inner loop as a pure function: the running
    maximum together with the most likely parent. *)
Fixpoint scan_pair (candidates : list F) (p : nat) (running_max : F)
  (most_likely_parent : nat) : F * nat :=
  match candidates with
  | [] => (running_max, most_likely_parent)
  | c :: rest =>
      if fgtb c running_max then scan_pair rest (S p) c p
      else scan_pair rest (S p) running_max most_likely_parent
  end.

(** *** Paths and their probability *)




(** The row vector [w] times the matrix [t]. *)
Definition vec_mat (w : list F) (t : array) : list F :=
  map (fun j =>
         fsum (map (fun i => fmul (nth i w f0) (entry t i j))
                   (seq 0 (len t))))
      (seq 0 (ncols t)).

(** Backpointer arrays with one entry per state, each a state. *)
Definition parents_ok (n : nat) (parents_by_marble : list (list nat)) : Prop :=
  Forall (fun parent_array =>
            length parent_array = n /\ Forall (fun bag => bag < n) parent_array)
         parents_by_marble.

(** A marble that indexes one of [m] emission columns. *)
Definition marble_in_range (m : nat) (v : Z) : Prop :=
  (- Z.of_nat m <= v < Z.of_nat m)%Z.

End Generic.

(** ** Command line types ([src/cli/types.py]) *)

(** A Python [str] is the list of its characters; [ascii] holds the code
    points below 256, among which [\d] matches the ten digits only. *)
Definition text : Type := list ascii.

(** The fragment of Python's [re] syntax the patterns are written in. *)
Inductive regex : Type :=
| Empty                       (* the empty pattern *)
| Char (c : ascii)            (* a literal character *)
| Digit                       (* \d *)
| Seq (r1 r2 : regex)         (* r1 r2 *)
| Or (r1 r2 : regex)          (* r1|r2, r1 tried first *)
| Star (r : regex).           (* (?:r)*, greedy *)

(** [(?:r)?], greedy. *)
Definition Opt (r : regex) : regex := Or r Empty.

(** [(?:r)+], greedy. *)
Definition Plus (r : regex) : regex := Seq r (Star r).

Definition is_digit (c : ascii) : bool :=
  (48 <=? nat_of_ascii c) && (nat_of_ascii c <=? 57).

(** The loop of a greedy [*]: another iteration of [body] is tried
    before the rest of the pattern; after an iteration that consumed
    nothing the loop is left. *)
Fixpoint star_loop (body : text -> (text -> option text) -> option text)
    (k : text -> option text) (n : nat) (s : text) : option text :=
  match n with
  | 0 => k s
  | S n' =>
      match body s (fun s' => if length s' <? length s
                              then star_loop body k n' s' else k s') with
      | Some e => Some e
      | None => k s
      end
  end.

(** The backtracking matcher: [exec r s k] matches [r] at the start of
    [s] and hands what is left to [k], the rest of the pattern; a failure
    of [k] sends the matcher to its next alternative.  The result is what
    is left of [s] after the whole match. *)
Fixpoint exec (r : regex) (s : text) (k : text -> option text)
    : option text :=
  match r with
  | Empty => k s
  | Char c =>
      match s with
      | a :: s' => if Ascii.eqb a c then k s' else None
      | [] => None
      end
  | Digit =>
      match s with
      | a :: s' => if is_digit a then k s' else None
      | [] => None
      end
  | Seq r1 r2 => exec r1 s (fun s' => exec r2 s' k)
  | Or r1 r2 =>
      match exec r1 s k with
      | Some e => Some e
      | None => exec r2 s k
      end
  | Star r' => star_loop (exec r') k (length s) s
  end.

(** [re.fullmatch(r, s) is not None]. *)
Definition fullmatch (r : regex) (s : text) : bool :=
  match exec r s (fun rest => match rest with [] => Some [] | _ => None end)
  with
  | Some _ => true
  | None => false
  end.

(** [re.findall(r, s)] for a pattern without groups: the matches found
    scanning from the left.  A search starts where the last match ended
    and, when that match was empty, may not end where it starts (the
    matcher's [must_advance]); a search that finds nothing at a place
    goes on one character further. *)
Fixpoint findall_from (n : nat) (r : regex) (must_advance : bool)
    (s : text) : list text :=
  match n with
  | 0 => []
  | S n' =>
      match exec r s
              (fun rest => if must_advance && (length rest =? length s)
                           then None else Some rest) with
      | Some rest =>
          firstn (length s - length rest) s
          :: findall_from n' r (length rest =? length s) rest
      | None =>
          match s with
          | [] => []
          | _ :: s' => findall_from n' r false s'
          end
      end
  end.

Definition findall (r : regex) (s : text) : list text :=
  findall_from (2 * length s + 2) r false s.

(** [NUMBER_PATTERN]: an optional minus sign, digits, and optionally a
    point and digits. *)
Definition NUMBER_PATTERN : regex :=
  Seq (Opt (Char "-")) (Seq (Plus Digit) (Opt (Seq (Char ".") (Star Digit)))).

(** [ONE_DIMENSIONAL_ARRAY_PATTERN] *)
Definition ONE_DIMENSIONAL_ARRAY_PATTERN : regex :=
  Seq (Char "[")
    (Seq (Star (Seq NUMBER_PATTERN (Char ",")))
       (Seq NUMBER_PATTERN (Char "]"))).

(** [TWO_DIMENSIONAL_ARRAY_PATTERN] *)
Definition TWO_DIMENSIONAL_ARRAY_PATTERN : regex :=
  Seq (Char "[")
    (Seq (Star (Seq ONE_DIMENSIONAL_ARRAY_PATTERN (Char ",")))
       (Seq ONE_DIMENSIONAL_ARRAY_PATTERN (Char "]"))).

(** [INTEGER_PATTERN]: an optional minus sign and digits. *)
Definition INTEGER_PATTERN : regex := Seq (Opt (Char "-")) (Plus Digit).

(** [INT_LIST_PATTERN] *)
Definition INT_LIST_PATTERN : regex :=
  Or (Seq (Char "[")
        (Seq (Star (Seq INTEGER_PATTERN (Char ",")))
           (Seq NUMBER_PATTERN (Char "]"))))
     (Seq (Char "[") (Char "]")).

(** [value_string.replace]: every space is deleted. *)
Definition remove_spaces (s : text) : text :=
  filter (fun c => negb (Ascii.eqb c " ")) s.

Definition digit_value (c : ascii) : Z := Z.of_nat (nat_of_ascii c) - 48.

Definition digits_value (ds : text) : Z :=
  fold_left (fun acc d => 10 * acc + digit_value d)%Z ds 0%Z.

(** What [click]'s [self.fail] and [int] raise. *)
Inductive cli_exn : Type :=
| BadParameter (message : string)
| IntValueError.

Inductive converted (A : Type) : Type :=
| Value (a : A)
| Fails (e : cli_exn).
Arguments Value {A} a.
Arguments Fails {A} e.

(** [int(n)] on a string of decimal digits with an optional minus sign,
    the strings [INTEGER_PATTERN] matches.  [max_str_digits] is
    [sys.get_int_max_str_digits()]: [0] for no limit, otherwise at least
    640; a longer string of digits is a [ValueError]. *)
Definition py_int (max_str_digits : nat) (n : text) : converted Z :=
  let '(negative, ds) :=
    match n with
    | c :: ds => if Ascii.eqb c "-" then (true, ds) else (false, n)
    | [] => (false, n)
    end in
  if (length ds =? 0) || negb (forallb is_digit ds) then Fails IntValueError
  else if (640 <? length ds) && (0 <? max_str_digits)
          && (max_str_digits <? length ds) then Fails IntValueError
  else Value (if negative then - digits_value ds else digits_value ds)%Z.

Fixpoint int_each (max_str_digits : nat) (element_strings : list text)
    : converted (list Z) :=
  match element_strings with
  | [] => Value []
  | n :: rest =>
      match py_int max_str_digits n with
      | Fails e => Fails e
      | Value z =>
          match int_each max_str_digits rest with
          | Fails e => Fails e
          | Value zs => Value (z :: zs)
          end
      end
  end.

Module IntListType.

(** [IntListType._parse_string] *)
Definition _parse_string (max_str_digits : nat) (value_string : text)
    : converted (list Z) :=
  let clean_string := remove_spaces value_string in
  if negb (fullmatch INT_LIST_PATTERN clean_string)
  then Fails (BadParameter "Provided string does not represent a 2D-array!")
  else
    let element_strings := findall INTEGER_PATTERN clean_string in
    int_each max_str_digits element_strings.

End IntListType.


(** *** Properties of strings the theorems speak of *)

Definition all_digits (ds : text) : Prop := forallb is_digit ds = true.

(** One or more digits, with or without a minus sign in front. *)
Inductive int_token : text -> Prop :=
| int_token_plain ds : ds <> [] -> all_digits ds -> int_token ds
| int_token_minus ds : ds <> [] -> all_digits ds -> int_token ("-" :: ds)%char.

(** Nothing, or a point and digits (possibly none). *)
Inductive fraction : text -> Prop :=
| fraction_none : fraction []
| fraction_point fd : all_digits fd -> fraction ("." :: fd)%char.

(** The strings between commas. *)
Fixpoint comma_join (tokens : list text) : text :=
  match tokens with
  | [] => []
  | [t] => t
  | t :: rest => t ++ ("," :: comma_join rest)%char
  end.

Definition bracketed (s : text) : text := ("[" :: s ++ ["]"])%char.

(** The string ends before a character that could continue a number. *)
Definition stops_integer (rest : text) : Prop :=
  match rest with
  | [] => True
  | c :: _ => is_digit c = false
  end.

Definition stops_number (rest : text) : Prop :=
  match rest with
  | [] => True
  | c :: _ => is_digit c = false /\ c <> "."%char
  end.

(** The digits behind the point of the last element, when there are any. *)
Definition after_point (fr : text) : list text :=
  match fr with
  | _ :: d :: fd => [d :: fd]
  | _ => []
  end.

(** The strings a pattern matches, whatever the order of the search. *)
Inductive matches : regex -> text -> Prop :=
| matches_empty : matches Empty []
| matches_char c : matches (Char c) [c]
| matches_digit c : is_digit c = true -> matches Digit [c]
| matches_seq r1 r2 s1 s2 :
    matches r1 s1 -> matches r2 s2 -> matches (Seq r1 r2) (s1 ++ s2)
| matches_or_left r1 r2 s : matches r1 s -> matches (Or r1 r2) s
| matches_or_right r1 r2 s : matches r2 s -> matches (Or r1 r2) s
| matches_star_stop r : matches (Star r) []
| matches_star_more r s1 s2 :
    s1 <> [] -> matches r s1 -> matches (Star r) s2 ->
    matches (Star r) (s1 ++ s2).

(** Elements, each followed by a comma. *)
Definition with_commas (tokens : list text) : text :=
  concat (map (fun t => t ++ [","%char]) tokens).

(** The value [int] gives a token, and the number of its digits. *)
Definition int_value (t : text) : Z :=
  match t with
  | c :: ds => if Ascii.eqb c "-" then (- digits_value ds)%Z
               else digits_value t
  | [] => 0%Z
  end.

Definition digit_count (t : text) : nat := length (filter is_digit t).

(** [int] accepts a token of this many digits. *)
Definition within_limit (max_str_digits : nat) (t : text) : Prop :=
  digit_count t <= 640 \/ max_str_digits = 0 \/
  digit_count t <= max_str_digits.

(** Python's [str] of an integer and of a list of integers. *)
Fixpoint uint_chars (u : Decimal.uint) : text :=
  match u with
  | Decimal.Nil => []
  | Decimal.D0 u => "0" :: uint_chars u
  | Decimal.D1 u => "1" :: uint_chars u
  | Decimal.D2 u => "2" :: uint_chars u
  | Decimal.D3 u => "3" :: uint_chars u
  | Decimal.D4 u => "4" :: uint_chars u
  | Decimal.D5 u => "5" :: uint_chars u
  | Decimal.D6 u => "6" :: uint_chars u
  | Decimal.D7 u => "7" :: uint_chars u
  | Decimal.D8 u => "8" :: uint_chars u
  | Decimal.D9 u => "9" :: uint_chars u
  end%char.

Definition str_int (z : Z) : text :=
  match Z.to_int z with
  | Decimal.Pos u => uint_chars u
  | Decimal.Neg u => ("-" :: uint_chars u)%char
  end.

Fixpoint comma_space_join (tokens : list text) : text :=
  match tokens with
  | [] => []
  | [t] => t
  | t :: rest => t ++ ("," :: " " :: comma_space_join rest)%char
  end.

Definition str_list (l : list Z) : text :=
  bracketed (comma_space_join (map str_int l)).

(** The strings [IntListType] reads as lists, with the element strings
    [int] is applied to: the empty list, or integers between commas, the
    last of which may be followed by a point and digits. *)
Inductive int_list_form : text -> list text -> Prop :=
| int_list_form_empty : int_list_form (bracketed []) []
| int_list_form_elements tokens fr :
    tokens <> [] -> Forall int_token tokens -> fraction fr ->
    int_list_form (bracketed (comma_join tokens ++ fr))
      (tokens ++ after_point fr).

(** *** [MatrixType] *)

(** [np.array(matrix, dtype=np.longdouble)] on a list of lists of
    floats: [None] is numpy's [ValueError] for rows of different
    lengths. *)
Definition np_array {F : Type} (matrix : list (list F))
    : option (ndarray F) :=
  match matrix with
  | [] => Some (mk_ndarray [0] [])
  | row :: _ =>
      if forallb (fun r => length r =? length row) matrix
      then Some (mk_ndarray [length matrix; length row] (concat matrix))
      else None
  end.

Module MatrixType.

Section WithFloat.

Context {F : Type}.

(** Python's [float] on the strings [NUMBER_PATTERN] matches, and the
    text of the [ValueError] numpy raises for rows of different lengths;
    neither is part of the repository. *)
Variable float : text -> F.
Variable array_error : list (list F) -> string.

(** [MatrixType._parse_string] *)
Definition _parse_string (value_string : text) : converted (ndarray F) :=
  let clean_string := remove_spaces value_string in
  if negb (fullmatch TWO_DIMENSIONAL_ARRAY_PATTERN clean_string)
  then Fails (BadParameter "Provided string does not represent a 2D-array!")
  else
    let row_strings :=
      findall ONE_DIMENSIONAL_ARRAY_PATTERN clean_string in
    let matrix :=
      map (fun row_string => map float (findall NUMBER_PATTERN row_string))
        row_strings in
    match np_array matrix with
    | Some a => Value a
    | None => Fails (BadParameter (array_error matrix))
    end.

(** The values [convert] tells apart: an array, a string, anything else
    (with the text an f-string prints for it). *)
Inductive py_value : Type :=
| PyArray (a : ndarray F)
| PyStr (s : text)
| PyOther (printed : string).

(** [MatrixType.convert] *)
Definition convert (value : py_value) : converted (ndarray F) :=
  match value with
  | PyArray a =>
      if negb (length (shape a) =? 2)
      then Fails (BadParameter "Provided array is not two-dimensional!")
      else Value a
  | PyStr s => _parse_string s
  | PyOther printed =>
      Fails (BadParameter ("Unsupported data type for value: " ++ printed))
  end.

End WithFloat.

Arguments PyArray {F} a.
Arguments PyStr {F} s.
Arguments PyOther {F} printed.

End MatrixType.

(** An integer, with or without a point and digits behind it. *)
Inductive number_token : text -> Prop :=
| number_token_intro i fr :
    int_token i -> fraction fr -> number_token (i ++ fr).

Definition row_string (numbers : list text) : text :=
  bracketed (comma_join numbers).

Definition matrix_string (rows : list (list text)) : text :=
  bracketed (comma_join (map row_string rows)).

(** The strings [MatrixType] reads as matrices, with the number strings
    of each row: one or more rows between commas, each of one or more
    numbers between commas. *)
Definition matrix_form (clean : text) (rows : list (list text)) : Prop :=
  rows <> [] /\
  Forall (fun numbers => numbers <> [] /\ Forall number_token numbers) rows /\
  clean = matrix_string rows.

(** All rows have [c] entries. *)
Definition row_length (c : nat) (rows : list (list text)) : Prop :=
  Forall (fun numbers => length numbers = c) rows.

(** No closing bracket inside a row. *)
Definition no_bracket (s : text) : Prop := Forall (fun c => c <> "]"%char) s.

(** ** Exact rational scalars *)

Module QModel.

Local Open Scope Qc_scope.

#[export] Instance Qc_Scalar : Scalar Qc := {|
  f0 := 0;
  f1 := 1;
  ftol := Q2Qc (1 # 100000);
  fadd := Qcplus;
  fsub := Qcminus;
  fmul := Qcmult;
  fdiv := Qcdiv;
  fltb := fun x y => if Qclt_le_dec x y then true else false
|}.

(** A matrix given by its rows, as [np.array([[...], ...])] builds it. *)
Definition matrix (rs : list (list Q)) : ndarray Qc :=
  mk_ndarray [length rs; length (hd [] rs)] (map Q2Qc (concat rs)).

(** A null-space result with the given columns' entries, row-major. *)
Definition basis (n k : nat) (entries : list Q) : ndarray Qc :=
  mk_ndarray [n; k] (map Q2Qc entries).

Definition test_hmm : HiddenMarkovModel :=
  mk_hmm (matrix [[8#10; 2#10]; [5#10; 5#10]])
         (matrix [[4#10; 6#10]; [7#10; 3#10]]).

(** The conditions of the specification's section 4.1, in its words. *)
Definition two_dimensional (a : ndarray Qc) : Prop := length (shape a) = 2%nat.

Definition square (a : ndarray Qc) : Prop :=
  nth 0 (shape a) 0%nat = nth 1 (shape a) 0%nat.

Definition entrywise_nonneg (a : ndarray Qc) : Prop :=
  Forall (fun x => 0 <= x) (data a).

Definition row_sums_at_most (bound : Qc) (a : ndarray Qc) : Prop :=
  Forall (fun r => fsum r <= bound) (rows a).

Definition spec_constructible (t s : ndarray Qc) : Prop :=
  (two_dimensional t /\ square t /\ entrywise_nonneg t /\
   row_sums_at_most (1 + ftol) t) /\
  (two_dimensional s /\ entrywise_nonneg s /\
   row_sums_at_most (1 + ftol) s).

(** The vector [v] alone generates the null space of [k]. *)
Definition generates (k : ndarray Qc) (v : list Qc) : Prop :=
  in_null_space k v /\ v <> repeat f0 (ncols k) /\
  forall x, in_null_space k x -> exists c, x = scale c v.

(** A stand-in for [scipy.linalg.null_space] that returns the basis
    (5, 2); the examples apply it to the kernel matrix of [test_hmm]
    only, whose null space that vector spans. *)
Definition null_space_52 : ndarray Qc -> ndarray Qc :=
  fun _ => basis 2 1 [5#1; 2#1].

(** A one-state model whose only row sums to 0.5. *)
Definition hmm_half : HiddenMarkovModel :=
  mk_hmm (matrix [[1#2]]) (matrix [[1#1]]).

(** Row sums within the tolerance above 1; the left eigenvectors for
    eigenvalue 1 are the multiples of (1, -2). *)
Definition hmm_mixed : HiddenMarkovModel :=
  mk_hmm (matrix [[524289 # 524288; 1 # 262144];
                  [1 # 1048576; 524289 # 524288]])
         (matrix [[1#2; 1#2]; [0#1; 1#1]]).

(** Row sums within the tolerance above 1; the left eigenvectors for
    eigenvalue 1 are the multiples of (1, -1). *)
Definition hmm_symmetric : HiddenMarkovModel :=
  mk_hmm (matrix [[524289 # 524288; 1 # 524288];
                  [1 # 524288; 524289 # 524288]])
         (matrix [[1#1]; [1#1]]).

(** The identity transition matrix of the repository's test. *)
Definition hmm_identity : HiddenMarkovModel :=
  mk_hmm (matrix [[1#1; 0#1]; [0#1; 1#1]])
         (matrix [[4#10; 6#10]; [7#10; 3#10]]).

(** One state, three emission rows. *)
Definition hmm_tall : HiddenMarkovModel :=
  mk_hmm (matrix [[1#1]]) (matrix [[1#10]; [2#10]; [7#10]]).

(** Python's [float] on a number string, read exactly: the digits before
    and behind the point, over the power of ten the latter call for. *)
Fixpoint integer_part (n : text) : text :=
  match n with
  | [] => []
  | c :: n' => if Ascii.eqb c "." then [] else c :: integer_part n'
  end.

Fixpoint decimal_part (n : text) : text :=
  match n with
  | [] => []
  | c :: n' => if Ascii.eqb c "." then n' else decimal_part n'
  end.

Definition float_exact (n : text) : Qc :=
  Q2Qc (int_value (integer_part n ++ decimal_part n)
        # Z.to_pos (10 ^ Z.of_nat (length (decimal_part n)))).

End QModel.

(** * Theorems *)

Section GenericTheorems.

Context {F : Type} `{SF : Scalar F}.
Variable null_space : ndarray F -> ndarray F.

Lemma validated_shapes hmm :
  validated hmm ->
  exists n n' m, shape (transition_matrix hmm) = [n; n] /\
                 shape (sampling_probabilities hmm) = [n'; m].
Proof.
  unfold validated, new_hmm, valid_tranisition_matrix,
    valid_sampling_probabilities; simpl.
  destruct hmm as [[st dt] [se de]]; simpl.
  destruct (length st =? 2) eqn:Hst; simpl; [|discriminate].
  destruct (nth 0 st 0 =? nth 1 st 0) eqn:Hsq; simpl; [|discriminate].
  match goal with |- context [existsb ?f dt] => destruct (existsb f dt) end;
    simpl; [discriminate|].
  match goal with |- context [existsb ?f ?l] => destruct (existsb f l) end;
    simpl; [discriminate|].
  destruct (length st =? length se) eqn:Hse; simpl; [|discriminate].
  intros _.
  apply Nat.eqb_eq in Hst, Hsq, Hse.
  rewrite Hst in Hse.
  destruct st as [|a [|b [|? ?]]]; try discriminate.
  destruct se as [|c [|d [|? ?]]]; try discriminate.
  simpl in Hsq; subst b. now exists a, c, d.
Qed.

(** C8.  [viterbi] raises the ValueError of its first statement on the
    empty sequence, whatever the model and whatever [null_space] would
    return or do: the steady state is not consulted. *)
Theorem viterbi_empty_sequence (hmm : HiddenMarkovModel) :
  viterbi null_space hmm [] =
  Raise (ValueError "Cannot provide empty sequence of events!").
Proof. reflexivity. Qed.

(** *** Negative marbles *)

Lemma py_index_negative (m : nat) (v : Z) :
  (- Z.of_nat m <= v <= -1)%Z ->
  py_index m v = py_index m (Z.of_nat m + v).
Proof.
  intros Hv. unfold py_index.
  replace (0 <=? v)%Z with false by (symmetry; apply Z.leb_gt; lia).
  replace (- Z.of_nat m <=? v)%Z with true by (symmetry; apply Z.leb_le; lia).
  replace (v <? 0)%Z with true by (symmetry; apply Z.ltb_lt; lia).
  replace (0 <=? Z.of_nat m + v)%Z with true by (symmetry; apply Z.leb_le; lia).
  replace (Z.of_nat m + v <? Z.of_nat m)%Z with true
    by (symmetry; apply Z.ltb_lt; lia).
  reflexivity.
Qed.

Lemma py_index_same_column (m : nat) (a b : Z) :
  same_column m a b -> py_index m a = py_index m b.
Proof.
  intros [->|[Ha ->]]; [reflexivity|now apply py_index_negative].
Qed.

Lemma getitem_same_index (a : ndarray F) (d : nat) (rest : list nat) (i j : Z) :
  shape a = d :: rest -> py_index d i = py_index d j ->
  getitem a i = getitem a j.
Proof. intros Hs Hij. unfold getitem. now rewrite Hs, Hij. Qed.

Lemma getitem_shape (a r : ndarray F) (i : Z) :
  getitem a i = Ok r -> shape r = tl (shape a).
Proof.
  unfold getitem. destruct (shape a) as [|d rest]; [discriminate|].
  destruct (py_index d i); [|discriminate].
  intros [= <-]. reflexivity.
Qed.

Lemma getitem2_same_column (e : ndarray F) (n' m : nat) (i a b : Z) :
  shape e = [n'; m] -> same_column m a b ->
  getitem2 e i a = getitem2 e i b.
Proof.
  intros Hs Hab. unfold getitem2.
  destruct (getitem e i) as [r|err] eqn:Hr; [|reflexivity]. simpl.
  apply getitem_shape in Hr. rewrite Hs in Hr. simpl in Hr.
  erewrite (getitem_same_index r _ _ a b); eauto using py_index_same_column.
Qed.

Lemma mapM_ext {A B} (f g : A -> result F B) (l : list A) :
  (forall a, In a l -> f a = g a) -> mapM f l = mapM g l.
Proof.
  induction l as [|a l IH]; intros Hfg; [reflexivity|].
  simpl. rewrite (Hfg a) by now left.
  rewrite IH by (intros; apply Hfg; now right). reflexivity.
Qed.

Lemma step_same_column hmm num_bags probs (n' m : nat) (a b : Z) :
  shape (sampling_probabilities hmm) = [n'; m] -> same_column m a b ->
  step hmm num_bags probs a = step hmm num_bags probs b.
Proof.
  intros Hs Hab. unfold step. f_equal.
  apply mapM_ext. intros bag _. unfold step_bag.
  now rewrite (getitem2_same_column _ n' m _ a b).
Qed.

Lemma run_steps_same_column hmm num_bags (n' m : nat) (l1 l2 : list Z) :
  shape (sampling_probabilities hmm) = [n'; m] ->
  Forall2 (same_column m) l1 l2 ->
  forall probs parents,
    run_steps hmm num_bags probs parents l1 =
    run_steps hmm num_bags probs parents l2.
Proof.
  intros Hs Hl. induction Hl as [|a b l1 l2 Hab Hl IH]; intros probs parents.
  - reflexivity.
  - simpl. rewrite (step_same_column _ _ _ n' m a b) by assumption.
    destruct (step hmm num_bags probs b) as [[np nparents]|err];
      [simpl; apply IH|reflexivity].
Qed.

Lemma transpose_shape2 (a : ndarray F) (r c : nat) :
  shape a = [r; c] -> shape (transpose a) = [c; r].
Proof. intros Hs. unfold transpose. now rewrite Hs. Qed.

(** C10.  In a validated model with [m] emission columns, a marble [v]
    with [-m <= v <= -1] is read as column [m + v]: replacing such
    marbles, anywhere in the sequence, by their non-negative
    counterparts does not change what [viterbi] returns (the same path,
    and no failure that the replaced sequence does not have). *)
Theorem viterbi_negative_marble (hmm : HiddenMarkovModel)
  (seq1 seq2 : list Z) :
  validated hmm ->
  Forall2 (same_column (ncols (sampling_probabilities hmm))) seq1 seq2 ->
  viterbi null_space hmm seq1 = viterbi null_space hmm seq2.
Proof.
  intros Hv Hseq.
  destruct (validated_shapes hmm Hv) as (n & n' & m & Ht & He).
  unfold ncols in Hseq. rewrite He in Hseq. simpl in Hseq.
  destruct Hseq as [|a b l1 l2 Hab Hl]; [reflexivity|].
  unfold viterbi, forward, initial_probabilities.
  rewrite (getitem_same_index (transpose (sampling_probabilities hmm))
             m [n'] a b)
    by eauto using transpose_shape2, py_index_same_column.
  destruct (steady_state_probabilities null_space hmm) as [steady|err];
    [simpl|reflexivity].
  destruct (getitem (transpose (sampling_probabilities hmm)) b) as [col|err];
    [simpl|reflexivity].
  destruct (broadcast_mul steady (flatten col)) as [probs|err];
    [simpl|reflexivity].
  now rewrite (run_steps_same_column hmm _ n' m l1 l2).
Qed.

(** *** Marbles out of range *)

Lemma py_index_out_of_range (m : nat) (v : Z) :
  (Z.of_nat m <= v \/ v < - Z.of_nat m)%Z -> py_index m v = None.
Proof.
  intros Hv. unfold py_index.
  destruct (0 <=? v)%Z eqn:H0, (v <? Z.of_nat m)%Z eqn:H1,
           (- Z.of_nat m <=? v)%Z eqn:H2, (v <? 0)%Z eqn:H3;
    try reflexivity; exfalso;
    rewrite ?Z.leb_le, ?Z.ltb_lt, ?Z.leb_gt, ?Z.ltb_ge in *; lia.
Qed.

Lemma getitem_raises (a : ndarray F) (i : Z) (e : exn F) :
  getitem a i = Raise e -> e = IndexError.
Proof.
  unfold getitem. destruct (shape a) as [|d rest]; [now intros [= <-]|].
  destruct (py_index d i); [discriminate|now intros [= <-]].
Qed.

Lemma getitem2_raises (a : ndarray F) (i j : Z) (e : exn F) :
  getitem2 a i j = Raise e -> e = IndexError.
Proof.
  unfold getitem2.
  destruct (getitem a i) as [r|e1] eqn:Hr; simpl.
  - destruct (getitem r j) as [x|e2] eqn:Hx; simpl; [discriminate|].
    intros [= <-]. eauto using getitem_raises.
  - intros [= <-]. eauto using getitem_raises.
Qed.

Lemma best_parent_raises hmm bag probs :
  forall pc mx mlp e,
    best_parent hmm bag pc probs mx mlp = Raise e -> e = IndexError.
Proof.
  induction probs as [|pp probs IH]; intros pc mx mlp e; cbn [best_parent].
  - discriminate.
  - destruct (getitem2 _ _ _) as [t|e1] eqn:Ht; simpl.
    + destruct (fgtb _ _); apply IH.
    + intros [= <-]. eauto using getitem2_raises.
Qed.

Lemma getitem2_out_of_range (e : ndarray F) (n' m : nat) (i v : Z) :
  shape e = [n'; m] -> (Z.of_nat m <= v \/ v < - Z.of_nat m)%Z ->
  getitem2 e i v = Raise IndexError.
Proof.
  intros Hs Hv. unfold getitem2.
  destruct (getitem e i) as [r|err] eqn:Hr; simpl.
  - pose proof (getitem_shape _ _ _ Hr) as Hsr. rewrite Hs in Hsr.
    unfold getitem. rewrite Hsr. cbn [tl].
    now rewrite (py_index_out_of_range m v Hv).
  - now rewrite (getitem_raises _ _ _ Hr).
Qed.

Lemma step_out_of_range hmm num_bags probs (n' m : nat) (v : Z) :
  shape (sampling_probabilities hmm) = [n'; m] ->
  1 <= num_bags ->
  (Z.of_nat m <= v \/ v < - Z.of_nat m)%Z ->
  step hmm num_bags probs v = Raise IndexError.
Proof.
  intros Hs Hn Hv. destruct num_bags as [|k]; [lia|].
  unfold step. cbn [seq mapM]. unfold step_bag at 1.
  destruct (best_parent hmm 0 0 probs f0 0) as [[mx mlp]|err] eqn:Hbp; simpl.
  - now rewrite (getitem2_out_of_range _ n' m _ v Hs Hv).
  - now rewrite (best_parent_raises _ _ _ _ _ _ _ Hbp).
Qed.

Lemma run_steps_app hmm num_bags (l1 l2 : list Z) :
  forall probs parents,
    run_steps hmm num_bags probs parents (l1 ++ l2) =
    (' (probs', parents') <- run_steps hmm num_bags probs parents l1 ;;
     run_steps hmm num_bags probs' parents' l2).
Proof.
  induction l1 as [|a l1 IH]; intros probs parents; [reflexivity|].
  cbn [app run_steps].
  destruct (step hmm num_bags probs a) as [[np nparents]|err];
    [simpl; apply IH|reflexivity].
Qed.

(** C3 (as the code has it).  In a validated model with at least one
    state and [m] emission columns, a marble [v >= m] (or [v < -m])
    makes [viterbi] raise IndexError, provided the dynamic programme
    gets as far as that marble: the steady state was computed and the
    steps for the marbles before [v] did not fail.  What follows [v]
    plays no part. *)
Theorem viterbi_marble_out_of_range (hmm : HiddenMarkovModel)
  (pre : list Z) (v : Z) (post : list Z) :
  validated hmm ->
  1 <= len (transition_matrix hmm) ->
  (Z.of_nat (ncols (sampling_probabilities hmm)) <= v \/
   v < - Z.of_nat (ncols (sampling_probabilities hmm)))%Z ->
  dp_reaches null_space hmm pre ->
  viterbi null_space hmm (pre ++ v :: post) = Raise IndexError.
Proof.
  intros Hval Hn Hv Hpre.
  destruct (validated_shapes hmm Hval) as (n & n' & m & Ht & He).
  unfold ncols in Hv. rewrite He in Hv. cbn [nth] in Hv.
  destruct pre as [|first_marble rest]; cbn [app viterbi].
  - destruct Hpre as [steady Hsteady].
    unfold forward, initial_probabilities. rewrite Hsteady. simpl.
    unfold getitem. rewrite (transpose_shape2 _ _ _ He).
    now rewrite (py_index_out_of_range m v Hv).
  - destruct Hpre as [[probs parents] Hfwd]. unfold forward in *.
    destruct (initial_probabilities null_space hmm first_marble)
      as [probs0|err]; [simpl in *|discriminate].
    rewrite run_steps_app, Hfwd. simpl.
    now rewrite (step_out_of_range hmm _ _ n' m v He Hn Hv).
Qed.

Lemma backtrace_length (rev_parents : list (list nat)) :
  forall last rev_path path,
    backtrace (F:=F) rev_parents last rev_path = Ok path ->
    length path = length rev_path + length rev_parents.
Proof.
  induction rev_parents as [|pa rest IH]; intros last rev_path path;
    cbn [backtrace].
  - intros [= <-]. cbn [length]. lia.
  - destruct (nth_error pa last) as [parent|]; [|discriminate].
    intros H. apply IH in H. rewrite length_app in H. cbn [length] in *. lia.
Qed.

Lemma run_steps_parents_length hmm num_bags (marbles : list Z) :
  forall probs parents probs' parents',
    run_steps hmm num_bags probs parents marbles = Ok (probs', parents') ->
    length parents' = length parents + length marbles.
Proof.
  induction marbles as [|a l IH]; intros probs parents probs' parents';
    cbn [run_steps].
  - intros [= _ <-]. cbn [length]. lia.
  - destruct (step hmm num_bags probs a) as [[np nparents]|err];
      [simpl|discriminate].
    intros H. apply IH in H. rewrite length_app in H. cbn [length] in *. lia.
Qed.

(** X7.  Whatever the model and the marbles, a path [viterbi] returns
    has one bag per marble. *)
Lemma viterbi_length (hmm : HiddenMarkovModel) (sequence : list Z)
  (path : list nat) :
  viterbi null_space hmm sequence = Ok path ->
  length path = length sequence.
Proof.
  destruct sequence as [|first_marble rest]; cbn [viterbi]; [discriminate|].
  unfold forward.
  destruct (initial_probabilities null_space hmm first_marble)
    as [probs0|err]; [simpl|discriminate].
  destruct (run_steps _ _ _ _ _) as [[probs parents]|err] eqn:Hrun;
    [simpl|discriminate].
  destruct (argmax probs) as [end_bag|err]; [simpl|discriminate].
  destruct (backtrace _ _ _) as [rev_path|err] eqn:Hbt; [simpl|discriminate].
  intros [= <-]. rewrite length_rev.
  apply backtrace_length in Hbt. apply run_steps_parents_length in Hrun.
  rewrite length_rev in Hbt. cbn [length] in *. lia.
Qed.

(** *** Indexing a two-dimensional array *)

Lemma hd_firstn_skipn (l : list F) (j : nat) (d : F) :
  hd d (firstn 1 (skipn j l)) = nth j l d.
Proof.
  revert l. induction j as [|j IH]; intros [|x l]; try reflexivity.
  cbn [skipn nth]. apply IH.
Qed.

Lemma nth_firstn_lt (l : list F) (c j : nat) (d : F) :
  j < c -> nth j (firstn c l) d = nth j l d.
Proof.
  revert c l. induction j as [|j IH]; intros [|c] [|x l] Hj;
    try reflexivity; try lia.
  cbn [firstn nth]. apply IH. lia.
Qed.

Lemma nth_skipn_add (l : list F) (k j : nat) (d : F) :
  nth j (skipn k l) d = nth (k + j) l d.
Proof.
  revert l. induction k as [|k IH]; intros [|x l]; try reflexivity.
  - now destruct j.
  - cbn [skipn Nat.add nth]. apply IH.
Qed.

Lemma py_index_nat (n i : nat) :
  i < n -> py_index n (Z.of_nat i) = Some i.
Proof.
  intros Hi. unfold py_index.
  replace (0 <=? Z.of_nat i)%Z with true by (symmetry; apply Z.leb_le; lia).
  replace (Z.of_nat i <? Z.of_nat n)%Z with true
    by (symmetry; apply Z.ltb_lt; lia).
  cbn [andb]. now rewrite Nat2Z.id.
Qed.

Lemma getitem2_entry (a : ndarray F) (r c i j : nat) :
  shape a = [r; c] -> i < r -> j < c ->
  getitem2 a (Z.of_nat i) (Z.of_nat j) = Ok (entry a i j).
Proof.
  intros Hs Hi Hj. unfold getitem2. unfold getitem at 1.
  rewrite Hs, (py_index_nat r i Hi). cbn [bind].
  unfold getitem. cbn [shape data]. rewrite (py_index_nat c j Hj).
  cbn [bind prod_shape fold_right]. unfold item. cbn [data].
  rewrite !Nat.mul_1_r, hd_firstn_skipn, nth_firstn_lt, nth_skipn_add
    by assumption.
  unfold entry, ncols. now rewrite Hs.
Qed.

Lemma chunk_flat_map {A} (g : nat -> list A) (r : nat) :
  (forall k, length (g k) = r) ->
  forall c j s, j < c ->
    firstn r (skipn (j * r) (flat_map g (seq s c))) = g (s + j).
Proof.
  intros Hg c. induction c as [|c IH]; intros j s Hj; [lia|].
  cbn [seq flat_map]. destruct j as [|j].
  - cbn [Nat.mul skipn]. rewrite Nat.add_0_r.
    rewrite firstn_app, Hg, Nat.sub_diag. cbn [firstn].
    rewrite app_nil_r. rewrite <- (Hg s) at 1. apply firstn_all.
  - cbn [Nat.mul]. rewrite skipn_app, Hg.
    rewrite skipn_all2 by (rewrite Hg; lia).
    replace (r + j * r - r) with (j * r) by lia. cbn [app].
    rewrite IH by lia. f_equal. lia.
Qed.

Lemma getitem_transpose (e : ndarray F) (n' m o : nat) :
  shape e = [n'; m] -> o < m ->
  getitem (transpose e) (Z.of_nat o) =
  Ok (mk_ndarray [n'] (map (fun i => entry e i o) (seq 0 n'))).
Proof.
  intros Hs Ho. unfold getitem, transpose. rewrite Hs. cbn [shape data].
  rewrite (py_index_nat m o Ho). cbn [prod_shape fold_right].
  rewrite Nat.mul_1_r.
  rewrite (chunk_flat_map
             (fun j => map (fun i => nth (i * m + j) (data e) f0) (seq 0 n')))
    by (try assumption; intros; now rewrite length_map, length_seq).
  unfold entry, ncols. now rewrite Hs.
Qed.

Lemma broadcast_mul_same_length (u v : list F) :
  length u = length v -> broadcast_mul u v = Ok (map2 fmul u v).
Proof.
  intros H. unfold broadcast_mul. now rewrite H, Nat.eqb_refl.
Qed.

Lemma map2_seq (u : list F) (g : nat -> F) :
  forall s,
    map2 fmul u (map g (seq s (length u))) =
    map (fun i => fmul (nth (i - s) u f0) (g i)) (seq s (length u)).
Proof.
  induction u as [|x u IH]; intros s; [reflexivity|].
  cbn [length seq map map2]. rewrite Nat.sub_diag. cbn [nth]. f_equal.
  rewrite IH. apply map_ext_in. intros i Hi. apply in_seq in Hi.
  replace (i - s) with (S (i - S s)) by lia. reflexivity.
Qed.

Lemma mapM_ok {A B} (f : A -> result F B) (g : A -> B) (l : list A) :
  (forall a, In a l -> f a = Ok (g a)) -> mapM f l = Ok (map g l).
Proof.
  induction l as [|a l IH]; intros Hf; [reflexivity|].
  cbn [mapM map]. rewrite (Hf a) by now left.
  rewrite IH by (intros; apply Hf; now right). reflexivity.
Qed.

(** *** The inner loop as a scan *)

Lemma skipn_cons_nth (l rest : list F) (k : nat) (x d : F) :
  skipn k l = x :: rest -> nth k l d = x /\ skipn (S k) l = rest.
Proof.
  revert l. induction k as [|k IH]; intros [|y l]; try discriminate.
  - cbn [skipn]. intros H. inversion H; subst. now split.
  - cbn [skipn nth]. intros H. destruct (IH l H) as [H1 H2].
    split; [exact H1|exact H2].
Qed.

Lemma best_parent_scan (hmm : HiddenMarkovModel) (n bag : nat)
  (prob : list F) :
  shape (transition_matrix hmm) = [n; n] -> bag < n ->
  forall rest pc mx mlp,
    skipn pc prob = rest -> pc + length rest <= n ->
    best_parent hmm bag pc rest mx mlp =
    Ok (scan_pair
          (map (fun p => fmul (nth p prob f0)
                              (entry (transition_matrix hmm) p bag))
               (seq pc (length rest)))
          pc mx mlp).
Proof.
  intros Hs Hbag. induction rest as [|pp rest IH]; intros pc mx mlp Hskip Hlen;
    [reflexivity|].
  cbn [length] in Hlen. cbn [best_parent length seq map scan_pair].
  rewrite (getitem2_entry _ n n pc bag Hs) by lia. cbn [bind].
  destruct (skipn_cons_nth _ _ _ _ f0 Hskip) as [Hnth Hskip'].
  rewrite Hnth.
  destruct (fgtb _ _); apply IH; try assumption; lia.
Qed.

Lemma scan_pair_snd (cands : list F) :
  forall p mx bp, snd (scan_pair cands p mx bp) = spec_scan cands p mx bp.
Proof.
  induction cands as [|c cands IH]; intros p mx bp; [reflexivity|].
  cbn [scan_pair spec_scan]. destruct (fgtb c mx); apply IH.
Qed.

(** Once the running maximum is an entry of the candidate list, it
    stays one: the entry at the recorded parent. *)
Lemma scan_pair_entry (d : F) (rest : list F) :
  forall done mx bp,
    bp < length done -> mx = nth bp (done ++ rest) d ->
    let r := scan_pair rest (length done) mx bp in
    snd r < length (done ++ rest) /\ fst r = nth (snd r) (done ++ rest) d.
Proof.
  induction rest as [|c rest IH]; intros done mx bp Hbp Hmx.
  - cbn [scan_pair fst snd]. rewrite app_nil_r in *. now split.
  - cbn [scan_pair].
    replace (done ++ c :: rest) with ((done ++ [c]) ++ rest) in *
      by now rewrite <- app_assoc.
    replace (S (length done)) with (length (done ++ [c]))
      by (rewrite length_app; cbn [length]; lia).
    destruct (fgtb c mx); apply IH.
    + rewrite length_app. cbn [length]. lia.
    + rewrite <- app_assoc. cbn [app]. now rewrite nth_middle.
    + rewrite length_app. lia.
    + exact Hmx.
Qed.

(** *** Bags on the returned path *)

Lemma py_index_lt (n : nat) (i : Z) (k : nat) :
  py_index n i = Some k -> k < n.
Proof.
  unfold py_index.
  destruct ((0 <=? i)%Z && (i <? Z.of_nat n)%Z)%bool eqn:H1.
  - apply andb_prop in H1 as [H0 H1]. apply Z.leb_le in H0.
    apply Z.ltb_lt in H1. intros [= <-]. lia.
  - destruct ((- Z.of_nat n <=? i)%Z && (i <? 0)%Z)%bool eqn:H2;
      [|discriminate].
    apply andb_prop in H2 as [H2 H3]. apply Z.leb_le in H2.
    apply Z.ltb_lt in H3. intros [= <-]. lia.
Qed.

Lemma py_index_nat_lt (n i k : nat) :
  py_index n (Z.of_nat i) = Some k -> i < n.
Proof.
  unfold py_index.
  destruct ((0 <=? Z.of_nat i)%Z && (Z.of_nat i <? Z.of_nat n)%Z)%bool eqn:H1.
  - apply andb_prop in H1 as [_ H1]. apply Z.ltb_lt in H1. lia.
  - replace (Z.of_nat i <? 0)%Z with false by (symmetry; apply Z.ltb_ge; lia).
    rewrite andb_false_r. discriminate.
Qed.

Lemma getitem2_ok_row (a : ndarray F) (n : nat) (c : list nat) (i : nat)
  (j : Z) (x : F) :
  shape a = n :: c -> getitem2 a (Z.of_nat i) j = Ok x -> i < n.
Proof.
  intros Hs. unfold getitem2, getitem at 1. rewrite Hs.
  destruct (py_index n (Z.of_nat i)) as [k|] eqn:Hk; [|discriminate].
  intros _. eauto using py_index_nat_lt.
Qed.

Lemma best_parent_in_range (hmm : HiddenMarkovModel) (n : nat)
  (c : list nat) (bag : nat) :
  shape (transition_matrix hmm) = n :: c ->
  forall probs pc mx mlp mx' mlp',
    best_parent hmm bag pc probs mx mlp = Ok (mx', mlp') ->
    mlp < n -> mlp' < n.
Proof.
  intros Hs. induction probs as [|pp probs IH];
    intros pc mx mlp mx' mlp'; cbn [best_parent].
  - now intros [= _ <-].
  - destruct (getitem2 _ _ _) as [t|e] eqn:Ht; [cbn [bind]|discriminate].
    pose proof (getitem2_ok_row _ _ _ _ _ _ Hs Ht) as Hpc.
    destruct (fgtb _ _); intros H Hmlp; eapply IH; eauto.
Qed.

Lemma mapM_Forall {A B} (f : A -> result F B) (P : B -> Prop) (l : list A) :
  forall r,
    mapM f l = Ok r ->
    (forall a b, In a l -> f a = Ok b -> P b) ->
    Forall P r /\ length r = length l.
Proof.
  induction l as [|a l IH]; intros r; cbn [mapM].
  - intros [= <-] _. now split.
  - destruct (f a) as [b|e] eqn:Hb; [cbn [bind]|discriminate].
    destruct (mapM f l) as [bs|e]; [cbn [bind]|discriminate].
    intros [= <-] HP. destruct (IH bs eq_refl) as [H1 H2].
    { intros; eapply HP; eauto; now right. }
    split; [constructor; [eapply HP; eauto; now left|exact H1]|].
    cbn [length]. now rewrite H2.
Qed.

Lemma step_in_range (hmm : HiddenMarkovModel) (n : nat) (c : list nat)
  (probs : list F) (marble : Z) (new_probs : list F) (parents : list nat) :
  shape (transition_matrix hmm) = n :: c ->
  step hmm n probs marble = Ok (new_probs, parents) ->
  length new_probs = n /\ Forall (fun bag => bag < n) parents.
Proof.
  intros Hs. unfold step.
  destruct (mapM _ _) as [r|e] eqn:Hr; [cbn [bind]|discriminate].
  intros [= <- <-].
  destruct (mapM_Forall _ (fun pb => snd pb < n) _ r Hr) as [HP Hlen].
  { intros bag [p parent] Hbag. apply in_seq in Hbag. unfold step_bag.
    destruct (best_parent _ _ _ _ _ _) as [[mx mlp]|e] eqn:Hbp;
      [cbn [bind]|discriminate].
    destruct (getitem2 _ _ _); [cbn [bind]|discriminate].
    intros [= _ <-]. cbn [snd].
    eapply best_parent_in_range; eauto. lia. }
  rewrite length_map, Hlen, length_seq. split; [reflexivity|].
  now rewrite Forall_map.
Qed.

Lemma run_steps_in_range (hmm : HiddenMarkovModel) (n : nat) (c : list nat) :
  shape (transition_matrix hmm) = n :: c ->
  forall marbles probs parents probs' parents',
    run_steps hmm n probs parents marbles = Ok (probs', parents') ->
    Forall (Forall (fun bag => bag < n)) parents ->
    length probs = n \/ length probs = 0 ->
    Forall (Forall (fun bag => bag < n)) parents' /\
    (length probs' = n \/ length probs' = 0).
Proof.
  intros Hs. induction marbles as [|marble rest IH];
    intros probs parents probs' parents'; cbn [run_steps].
  - intros [= <- <-]. now split.
  - destruct (step hmm n probs marble) as [[np nparents]|e] eqn:Hstep;
      [cbn [bind]|discriminate].
    destruct (step_in_range _ _ _ _ _ _ _ Hs Hstep) as [Hlen Hpar].
    intros Hrun Hps _. eapply IH; eauto.
    apply Forall_app. split; [assumption|now constructor].
Qed.

Lemma argmax_from_lt (l : list F) :
  forall best_i best i, best_i < i ->
    argmax_from best_i best i l < i + length l.
Proof.
  induction l as [|x l IH]; intros best_i best i Hb; cbn [argmax_from length].
  - lia.
  - destruct (fgtb x best).
    + specialize (IH i x (S i)). lia.
    + specialize (IH best_i best (S i)). lia.
Qed.

Lemma argmax_lt (v : list F) (k : nat) : argmax v = Ok k -> k < length v.
Proof.
  destruct v as [|x l]; [discriminate|]. cbn [argmax length]. intros [= <-].
  pose proof (argmax_from_lt l 0 x 1). lia.
Qed.

Lemma backtrace_in_range (n : nat) (rev_parents : list (list nat)) :
  Forall (Forall (fun bag => bag < n)) rev_parents ->
  forall last rev_path path,
    Forall (fun bag => bag < n) rev_path ->
    backtrace (F:=F) rev_parents last rev_path = Ok path ->
    Forall (fun bag => bag < n) path.
Proof.
  induction 1 as [|pa rest Hpa _ IH]; intros last rev_path path Hrp;
    cbn [backtrace].
  - now intros [= <-].
  - destruct (nth_error pa last) as [parent|] eqn:Hp; [|discriminate].
    apply IH. apply Forall_app. split; [assumption|].
    constructor; [|constructor].
    apply nth_error_In in Hp. rewrite Forall_forall in Hpa. now apply Hpa.
Qed.

Lemma map2_length {A B C} (f : A -> B -> C) (u : list A) :
  forall v, length u = length v -> length (map2 f u v) = length u.
Proof.
  induction u as [|a u IH]; intros [|b v] H; try discriminate; [reflexivity|].
  cbn [map2 length] in *. now rewrite IH by lia.
Qed.

Lemma getitem_transpose_length (e col : ndarray F) (n m : nat) (i : Z) :
  shape e = [n; m] -> getitem (transpose e) i = Ok col ->
  length (data col) = n.
Proof.
  intros Hs. unfold getitem, transpose. rewrite Hs. cbn [shape data].
  destruct (py_index m i) as [k|] eqn:Hk; [|discriminate].
  apply py_index_lt in Hk. intros [= <-]. cbn [data prod_shape fold_right].
  rewrite Nat.mul_1_r.
  rewrite (chunk_flat_map
             (fun j => map (fun i => nth (i * m + j) (data e) f0) (seq 0 n)))
    by (try assumption; intros; now rewrite length_map, length_seq).
  now rewrite length_map, length_seq.
Qed.

Lemma kernel_matrix_ncols (hmm : HiddenMarkovModel) (n : nat) :
  shape (transition_matrix hmm) = [n; n] -> ncols (kernel_matrix hmm) = n.
Proof.
  intros Hs. unfold kernel_matrix, transpose, array_sub. cbn [shape].
  now rewrite Hs.
Qed.

Lemma steady_state_length (hmm : HiddenMarkovModel) (n dim : nat)
  (steady : list F) :
  shape (transition_matrix hmm) = [n; n] ->
  null_space_basis (kernel_matrix hmm) (null_space (kernel_matrix hmm)) dim ->
  steady_state_probabilities null_space hmm = Ok steady ->
  length steady = n \/ length steady = 0.
Proof.
  intros Hs [Hshape Hwf _ _ _]. unfold steady_state_probabilities.
  rewrite Hshape. cbn [nth_error].
  destruct (1 <? dim) eqn:Hdim; [discriminate|]. apply Nat.ltb_ge in Hdim.
  intros [= <-]. rewrite length_map. unfold flatten, wf in *.
  rewrite Hwf, Hshape, (kernel_matrix_ncols hmm n Hs).
  cbn [prod_shape fold_right].
  destruct dim as [|[|dim]]; [right|left|]; lia.
Qed.

(** X8.  With one emission row per state, and [null_space] returning
    a basis, every bag on a path [viterbi] returns is a state of the
    model, for any marbles. *)
Lemma viterbi_in_range (hmm : HiddenMarkovModel) (dim : nat)
  (sequence : list Z) (path : list nat) :
  validated hmm ->
  len (sampling_probabilities hmm) = len (transition_matrix hmm) ->
  null_space_basis (kernel_matrix hmm) (null_space (kernel_matrix hmm)) dim ->
  viterbi null_space hmm sequence = Ok path ->
  Forall (fun bag => bag < len (transition_matrix hmm)) path.
Proof.
  intros Hval Hrows Hb.
  destruct (validated_shapes hmm Hval) as (n & n' & m & Ht & He).
  unfold len in *. rewrite Ht in *. rewrite He in Hrows. cbn [hd] in *.
  subst n'.
  destruct sequence as [|first_marble rest]; cbn [viterbi]; [discriminate|].
  unfold forward, initial_probabilities, len. rewrite Ht. cbn [hd].
  destruct (steady_state_probabilities null_space hmm) as [steady|e]
    eqn:Hsteady; [cbn [bind]|discriminate].
  pose proof (steady_state_length hmm n dim steady Ht Hb Hsteady) as Hsl.
  destruct (getitem _ _) as [col|e] eqn:Hcol; [cbn [bind]|discriminate].
  pose proof (getitem_transpose_length _ _ _ _ _ He Hcol) as Hcl.
  destruct (broadcast_mul steady (flatten col)) as [probs0|e] eqn:Hmul;
    [cbn [bind]|discriminate].
  assert (Hp0 : length probs0 = n \/ length probs0 = 0).
  { unfold broadcast_mul, flatten in Hmul.
    destruct (length steady =? length (data col)) eqn:Heq.
    - apply Nat.eqb_eq in Heq. injection Hmul as <-.
      rewrite map2_length by assumption. exact Hsl.
    - destruct steady as [|x [|? ?]].
      + destruct (data col) as [|y [|? ?]]; try discriminate.
        injection Hmul as <-. now right.
      + injection Hmul as <-. left. now rewrite length_map.
      + destruct (data col) as [|y [|? ?]]; try discriminate.
        cbn [length] in Hsl, Hcl. lia. }
  destruct (run_steps _ _ _ _ _) as [[probs parents]|e] eqn:Hrun;
    [cbn [bind]|discriminate].
  destruct (run_steps_in_range hmm n [n] Ht _ _ _ _ _ Hrun) as [Hpar Hpl];
    [constructor|assumption|].
  destruct (argmax probs) as [end_bag|e] eqn:Hend; [cbn [bind]|discriminate].
  apply argmax_lt in Hend.
  destruct (backtrace _ _ _) as [rev_path|e] eqn:Hbt; [cbn [bind]|discriminate].
  intros [= <-]. apply Forall_rev.
  eapply backtrace_in_range; [|  |exact Hbt].
  - apply Forall_rev. exact Hpar.
  - constructor; [lia|constructor].
Qed.

(** *** Steady state: what the code does with the basis *)

Lemma steady_state_of_basis (hmm : HiddenMarkovModel) (dim : nat) :
  null_space_basis (kernel_matrix hmm) (null_space (kernel_matrix hmm)) dim ->
  steady_state_probabilities null_space hmm =
  if 1 <? dim then Raise (NonUniqueStationary (null_space (kernel_matrix hmm)))
  else let v := data (null_space (kernel_matrix hmm)) in
       Ok (map (fun x => fdiv x (fsum v)) v).
Proof.
  intros [Hshape _ _ _ _]. unfold steady_state_probabilities.
  rewrite Hshape. reflexivity.
Qed.

(** C4 (as the code has it).  When the null space of
    [(transition_matrix - I)^T] has dimension 0, that is when
    [null_space] returns an n-by-0 basis, [steady_state_probabilities]
    raises nothing: it returns the empty vector. *)
Theorem steady_state_dimension_zero (hmm : HiddenMarkovModel) :
  null_space_basis (kernel_matrix hmm) (null_space (kernel_matrix hmm)) 0 ->
  steady_state_probabilities null_space hmm = Ok [].
Proof.
  intros Hb. rewrite (steady_state_of_basis hmm 0 Hb). simpl.
  destruct Hb as [Hshape Hwf _ _ _]. unfold wf in Hwf.
  rewrite Hshape in Hwf. simpl in Hwf. rewrite Nat.mul_0_r in Hwf.
  destruct (data (null_space (kernel_matrix hmm))); [reflexivity|discriminate].
Qed.

End GenericTheorems.


(** * Theorems over exact rationals *)

Import QModel.

Lemma this_eq (x y : Qc) : x = y -> (this x == this y)%Q.
Proof. intros ->. reflexivity. Qed.

(** Replaces the class operations by the operations of [Qc]. *)
Ltac qc_ops :=
  cbn [f0 f1 ftol fadd fsub fmul fdiv Qc_Scalar] in *.

(** Turns equalities and inequalities on [Qc] into ones on [Q]. *)
Ltac qc2q :=
  qc_ops;
  repeat match goal with
         | H : @eq Qc _ _ |- _ => apply this_eq in H
         end;
  try apply Qc_is_canon;
  unfold Qcle, Qclt, Qcdiv, Qcminus, Qcinv, Qcopp, Qcplus, Qcmult in *;
  cbn [this Q2Qc] in *;
  rewrite ?Qred_correct in *.

Section Validation.

Local Open Scope Qc_scope.

Lemma fltb_false (x y : Qc) : fltb x y = false <-> y <= x.
Proof.
  simpl. destruct (Qclt_le_dec x y) as [Hlt|Hle]; split; intros H;
    try discriminate; try reflexivity; try assumption.
  exfalso. exact (Qclt_not_le _ _ Hlt H).
Qed.


Lemma row_sum_check (rowSum : Qc) :
  fgtb (fsub rowSum f1) ftol = false <-> rowSum <= 1 + ftol.
Proof.
  unfold fgtb. rewrite fltb_false. simpl.
  split; intros H; qc2q; lra.
Qed.

Lemma existsb_false {A} (f : A -> bool) (P : A -> Prop) (l : list A) :
  (forall a, f a = false <-> P a) ->
  existsb f l = false <-> Forall P l.
Proof.
  intros Hf. induction l as [|a l IH]; simpl.
  - split; [constructor|reflexivity].
  - rewrite orb_false_iff, IH, Hf. split.
    + intros [Ha Hl]. now constructor.
    + intros H. inversion H; subst. now split.
Qed.

Lemma valid_tranisition_matrix_iff (hmm : HiddenMarkovModel) (t : ndarray Qc) :
  valid_tranisition_matrix hmm t = Ok tt <->
  two_dimensional t /\ square t /\ entrywise_nonneg t /\
  row_sums_at_most (1 + ftol) t.
Proof.
  unfold valid_tranisition_matrix, two_dimensional, square, entrywise_nonneg,
    row_sums_at_most, flatten, sum_axis1.
  rewrite <- (existsb_false (fun e => fltb e f0) (fun x => 0 <= x))
    by (intros; apply fltb_false).
  rewrite <- (Forall_map fsum (fun x => x <= 1 + ftol)).
  rewrite <- (existsb_false (fun r => fgtb (fsub r f1) ftol)
                (fun x => x <= 1 + ftol))
    by (intros; apply row_sum_check).
  rewrite <- !Nat.eqb_eq.
  destruct (length (shape t) =? 2)%nat; simpl;
    [|split; [discriminate|intros [? _]; discriminate]].
  destruct (nth 0 (shape t) 0 =? nth 1 (shape t) 0)%nat; simpl;
    [|split; [discriminate|intros (_ & ? & _); discriminate]].
  destruct (existsb _ (data t)); simpl;
    [split; [discriminate|intros (_ & _ & ? & _); discriminate]|].
  destruct (existsb _ _); simpl;
    [split; [discriminate|intros (_ & _ & _ & ?); discriminate]|].
  tauto.
Qed.

Lemma valid_sampling_probabilities_iff (hmm : HiddenMarkovModel)
  (s : ndarray Qc) :
  two_dimensional (transition_matrix hmm) ->
  valid_sampling_probabilities hmm s = Ok tt <->
  two_dimensional s /\ entrywise_nonneg s /\ row_sums_at_most (1 + ftol) s.
Proof.
  unfold valid_sampling_probabilities, two_dimensional, entrywise_nonneg,
    row_sums_at_most, flatten, sum_axis1.
  intros ->.
  rewrite <- (existsb_false (fun e => fltb e f0) (fun x => 0 <= x))
    by (intros; apply fltb_false).
  rewrite <- (Forall_map fsum (fun x => x <= 1 + ftol)).
  rewrite <- (existsb_false (fun r => fgtb (fsub r f1) ftol)
                (fun x => x <= 1 + ftol))
    by (intros; apply row_sum_check).
  rewrite <- (Nat.eqb_eq (length (shape s)) 2), (Nat.eqb_sym (length (shape s))).
  destruct (2 =? length (shape s))%nat; simpl;
    [|split; [discriminate|intros [? _]; discriminate]].
  destruct (existsb _ (data s)); simpl;
    [split; [discriminate|intros (_ & ? & _); discriminate]|].
  destruct (existsb _ _); simpl;
    [split; [discriminate|intros (_ & _ & ?); discriminate]|].
  tauto.
Qed.

(** C2.  The constructor returns a model exactly when the transition
    matrix is two-dimensional, square, entrywise non-negative with every
    row sum at most 1 + 1e-5, and the emission matrix is two-dimensional,
    entrywise non-negative with every row sum at most 1 + 1e-5.  A
    transition row summing to 0.5 is accepted, and so is an emission
    matrix with three rows for a one-state transition matrix. *)
Theorem construction_succeeds_iff :
  (forall t s : ndarray Qc,
      (exists hmm, new_hmm t s = Ok hmm) <-> spec_constructible t s) /\
  (sum_axis1 (transition_matrix hmm_half) = [Q2Qc (1 # 2)] /\
   validated hmm_half) /\
  (len (transition_matrix hmm_tall) = 1%nat /\
   len (sampling_probabilities hmm_tall) = 3%nat /\
   validated hmm_tall).
Proof.
  split; [|split; [split|repeat split]]; try reflexivity.
  - intros t s. unfold new_hmm, spec_constructible.
    rewrite <- (valid_tranisition_matrix_iff (mk_hmm t s) t).
    destruct (valid_tranisition_matrix (mk_hmm t s) t) as [[]|e] eqn:Ht; simpl.
    + apply valid_tranisition_matrix_iff in Ht.
      rewrite <- (valid_sampling_probabilities_iff (mk_hmm t s) s)
        by apply Ht.
      destruct (valid_sampling_probabilities (mk_hmm t s) s) as [[]|e];
        simpl; split.
      * auto.
      * intros _. eauto.
      * intros [hmm H]. discriminate.
      * intros [_ H]. discriminate.
    + split; [intros [hmm H]; discriminate|intros [H _]; discriminate].
Qed.

End Validation.

Section LinearAlgebra.

Local Open Scope Qc_scope.

Lemma fold_left_fadd (l : list Qc) (a : Qc) :
  fold_left fadd l a = a + fold_left fadd l f0.
Proof.
  revert a. induction l as [|x l IH]; intros a; cbn [fold_left].
  - qc_ops. ring.
  - rewrite (IH (fadd a x)), (IH (fadd f0 x)). qc_ops. ring.
Qed.

Lemma fsum_cons (x : Qc) (l : list Qc) : fsum (x :: l) = x + fsum l.
Proof.
  unfold fsum. simpl fold_left. rewrite fold_left_fadd. qc_ops. ring.
Qed.

Lemma fsum_zeros (l : list Qc) : Forall (fun y => y = 0) l -> fsum l = 0.
Proof.
  induction 1 as [|x l Hx _ IH]; [reflexivity|].
  rewrite fsum_cons, IH, Hx. ring.
Qed.

Lemma Forall_firstn {A} (P : A -> Prop) (n : nat) (l : list A) :
  Forall P l -> Forall P (firstn n l).
Proof.
  intros H. revert n. induction H; intros [|n]; simpl; auto.
Qed.

Lemma Forall_skipn {A} (P : A -> Prop) (n : nat) (l : list A) :
  Forall P l -> Forall P (skipn n l).
Proof.
  intros H. revert n. induction H; intros [|n]; simpl; auto.
Qed.

Lemma nth_zeros (l : list Qc) (k : nat) :
  Forall (fun y => y = 0) l -> nth k l 0 = 0.
Proof.
  intros H. revert k. induction H as [|x l Hx _ IH]; intros [|k]; simpl; auto.
Qed.

Lemma dot_zeros (r x : list Qc) :
  Forall (fun y => y = 0) r -> dot r x = 0.
Proof.
  intros H. unfold dot. apply fsum_zeros.
  revert x. induction H as [|a r Ha _ IH]; intros [|b x]; simpl;
    constructor; auto.
  rewrite Ha. qc_ops. ring.
Qed.

Lemma columns_length (b : ndarray Qc) (n dim : nat) :
  shape b = [n; dim] -> length (columns b) = dim.
Proof.
  intros Hs. unfold columns, rows.
  rewrite (transpose_shape2 b n dim Hs). now rewrite length_map, length_seq.
Qed.

Lemma lin_comb_cons (n : nat) (c : Qc) (cs : list Qc) v vs :
  lin_comb n (c :: cs) (v :: vs) =
  map2 fadd (scale c v) (lin_comb n cs vs).
Proof. reflexivity. Qed.

Lemma map2_scale_zero (c : Qc) (v : list Qc) :
  map2 fadd (scale c v) (repeat f0 (length v)) = scale c v.
Proof.
  induction v as [|y v IH]; [reflexivity|].
  unfold scale in *. cbn [map map2 repeat length]. rewrite IH.
  f_equal. qc_ops. ring.
Qed.

Lemma scale_zero (v : list Qc) : scale 0 v = repeat f0 (length v).
Proof.
  induction v as [|y v IH]; [reflexivity|].
  unfold scale in *. cbn [map map2 repeat length]. rewrite IH.
  f_equal. qc_ops. ring.
Qed.

Lemma lin_comb_zero_coeffs (n k : nat) (vs : list (list Qc)) :
  Forall (fun v => length v = n) vs ->
  lin_comb n (repeat 0 k) vs = repeat f0 n.
Proof.
  intros H. revert k. induction H as [|v vs Hv _ IH]; intros [|k];
    try reflexivity.
  simpl repeat. rewrite lin_comb_cons, IH, <- Hv, map2_scale_zero.
  apply scale_zero.
Qed.

Lemma scale_eq_zero (c : Qc) (v : list Qc) :
  scale c v = repeat f0 (length v) -> c = 0 \/ v = repeat f0 (length v).
Proof.
  intros H. destruct (Qc_eq_dec c 0) as [->|Hc]; [now left|right].
  revert H. induction v as [|y v IH]; [reflexivity|].
  unfold scale. cbn [map repeat length]. intros H.
  pose proof (f_equal (hd f0) H) as Hy.
  pose proof (f_equal (@tl Qc) H) as Hv. cbn [hd tl] in Hy, Hv.
  f_equal; [|now apply IH].
  exact (Qcmult_integral_l c y Hc Hy).
Qed.

Lemma scale_length (c : Qc) (v : list Qc) : length (scale c v) = length v.
Proof. apply length_map. Qed.

Lemma scale_scale (a b : Qc) (v : list Qc) :
  scale a (scale b v) = scale (a * b) v.
Proof.
  unfold scale. rewrite map_map. apply map_ext. intros; qc_ops; ring.
Qed.

(** A basis of a null space generated by one vector has one column. *)
Lemma basis_dim_one (k b : ndarray Qc) (dim : nat) (v : list Qc) :
  null_space_basis k b dim -> generates k v -> dim = 1%nat.
Proof.
  intros [Hshape _ Hin Hspan Hind] (Hv & Hv0 & Hgen).
  pose proof (columns_length b _ _ Hshape) as Hlen.
  assert (Hvlen : length v = ncols k) by apply Hv.
  destruct dim as [|[|dim]]; [exfalso| reflexivity | exfalso].
  - destruct (Hspan v Hv) as (cs & Hcs & Hcomb).
    destruct cs; [|discriminate]. now apply Hv0.
  - destruct (columns b) as [|c0 [|c1 cols]]; try discriminate.
    inversion Hin as [|? ? Hc0 Hin']; subst.
    inversion Hin' as [|? ? Hc1 Hrest]; subst.
    destruct (Hgen c0 Hc0) as (a0 & ->).
    destruct (Hgen c1 Hc1) as (a1 & ->).
    assert (Hcols : Forall (fun c => length c = ncols k) cols).
    { eapply Forall_impl; [|exact Hrest]. now intros c []. }
    assert (Hzero : forall x y : Qc, x * a0 + y * a1 = 0 ->
               lin_comb (ncols k) (x :: y :: repeat 0 dim)
                 (scale a0 v :: scale a1 v :: cols) = repeat f0 (ncols k)).
    { intros x y Hxy. rewrite !lin_comb_cons, lin_comb_zero_coeffs by assumption.
      rewrite !scale_scale.
      rewrite <- Hvlen, map2_scale_zero. clear - Hxy.
      induction v as [|z v IH]; [reflexivity|].
      unfold scale in *. cbn [map map2 repeat length]. rewrite IH.
      f_equal. qc_ops.
      replace (x * a0 * z + y * a1 * z) with ((x * a0 + y * a1) * z) by ring.
      rewrite Hxy. ring. }
    assert (Hlen' : forall x y : Qc,
               length (x :: y :: repeat 0 dim) = S (S dim)).
    { intros. simpl. now rewrite repeat_length. }
    assert (Ha0 : a0 = 0).
    { pose proof (Hind _ (Hlen' a1 (- a0)) (Hzero a1 (- a0) ltac:(ring))) as H.
      inversion H as [|? ? _ H']; subst. inversion H' as [|? ? Ha _]; subst.
      rewrite <- (Qcopp_involutive a0), Ha. reflexivity. }
    subst a0.
    pose proof (Hind _ (Hlen' 1 0) (Hzero 1 0 ltac:(ring))) as H.
    inversion H as [|? ? H1 _]; subst. discriminate H1.
Qed.

Lemma map_nth_seq (l : list Qc) (d : Qc) :
  map (fun i => nth i l d) (seq 0 (length l)) = l.
Proof.
  induction l as [|x l IH]; [reflexivity|].
  cbn [length seq map nth]. f_equal.
  rewrite <- seq_shift, map_map. exact IH.
Qed.

(** An n-by-1 array has one column: its entries. *)
Lemma columns_one (n : nat) (v : list Qc) :
  length v = n -> columns (mk_ndarray [n; 1%nat] v) = [v].
Proof.
  intros <-. unfold columns, transpose, rows. cbn [shape data seq flat_map map].
  rewrite app_nil_r, Nat.mul_0_l. cbn [skipn]. f_equal.
  rewrite (map_ext (fun i => nth (i * 1 + 0) v f0) (fun i => nth i v f0))
    by (intros i; f_equal; lia).
  rewrite map_nth_seq. apply firstn_all.
Qed.

Lemma basis_one_column (k b : ndarray Qc) :
  null_space_basis k b 1 ->
  length (data b) = ncols k /\ columns b = [data b] /\
  in_null_space k (data b) /\ data b <> repeat f0 (ncols k).
Proof.
  intros [Hshape Hwf Hin _ Hind].
  destruct b as [sh v]. cbn [shape data] in *. subst sh.
  unfold wf in Hwf. cbn [shape data prod_shape fold_right] in Hwf.
  assert (Hlen : length v = ncols k) by lia.
  rewrite (columns_one _ v Hlen) in *.
  repeat split; try assumption.
  - inversion Hin as [|? ? [_ H] _]. exact H.
  - intros Hz. specialize (Hind [1] eq_refl).
    rewrite lin_comb_cons in Hind. cbn [lin_comb combine fold_right] in Hind.
    rewrite <- Hlen, map2_scale_zero in Hind.
    assert (Hone : scale 1 v = v).
    { unfold scale. rewrite <- (map_id v) at 2. apply map_ext.
      intros; qc_ops; ring. }
    rewrite Hone, Hlen in Hind. specialize (Hind Hz).
    inversion Hind as [|? ? H1 _]. discriminate H1.
Qed.

(** Conversely, a generator is a one-column basis. *)
Lemma basis_of_generator (k : ndarray Qc) (v : list Qc) :
  generates k v -> null_space_basis k (mk_ndarray [ncols k; 1%nat] v) 1.
Proof.
  intros (Hv & Hv0 & Hgen).
  assert (Hlen : length v = ncols k) by apply Hv.
  constructor; cbn [shape data]; try rewrite (columns_one _ v Hlen).
  - reflexivity.
  - unfold wf. cbn [shape data prod_shape fold_right]. lia.
  - now constructor.
  - intros x Hx. destruct (Hgen x Hx) as [c ->]. exists [c]. split; [reflexivity|].
    rewrite lin_comb_cons. cbn [lin_comb combine fold_right].
    now rewrite <- Hlen, map2_scale_zero.
  - intros [|c [|? ?]] Hcs; try discriminate. intros Hz.
    rewrite lin_comb_cons in Hz. cbn [lin_comb combine fold_right] in Hz.
    rewrite <- Hlen, map2_scale_zero in Hz.
    destruct (scale_eq_zero c v Hz) as [->|Hv']; [now repeat constructor|].
    rewrite Hlen in Hv'. contradiction.
Qed.

End LinearAlgebra.

Section SteadyState.

Local Open Scope Qc_scope.

Variable null_space : ndarray Qc -> ndarray Qc.

Lemma map2_fsub_self (d : list Qc) : Forall (fun y => y = 0) (map2 fsub d d).
Proof.
  induction d as [|x d IH]; cbn [map2]; constructor; [qc_ops; ring|exact IH].
Qed.

(** With the identity as transition matrix the kernel matrix is zero. *)
Lemma identity_kernel_matrix (n : nat) (s : ndarray Qc) (x : list Qc) :
  ncols (kernel_matrix (mk_hmm (identity n) s)) = n /\
  Forall (fun y => y = f0) (mat_vec (kernel_matrix (mk_hmm (identity n) s)) x).
Proof.
  split; [reflexivity|].
  unfold mat_vec, kernel_matrix, rows.
  cbn [transition_matrix len identity shape hd array_sub transpose data].
  rewrite !Forall_map. apply Forall_forall. intros i _.
  apply dot_zeros, Forall_firstn, Forall_skipn.
  apply Forall_flat_map, Forall_forall. intros j _.
  rewrite Forall_map. apply Forall_forall. intros i' _.
  apply (nth_zeros _ _ (map2_fsub_self _)).
Qed.

Lemma identity_basis_dimension (n dim : nat) (s b : ndarray Qc) :
  (2 <= n)%nat ->
  null_space_basis (kernel_matrix (mk_hmm (identity n) s)) b dim ->
  (1 < dim)%nat.
Proof.
  intros Hn [_ _ _ Hspan _].
  destruct n as [|[|n]]; try lia.
  set (k := kernel_matrix (mk_hmm (identity (S (S n))) s)) in *.
  assert (Hker : forall x, length x = S (S n) -> in_null_space k x).
  { intros x Hx. split; [exact Hx|].
    apply (proj2 (identity_kernel_matrix (S (S n)) s x)). }
  destruct (Hspan (1 :: 0 :: repeat 0 n)) as (cs0 & Hcs0 & H0).
  { apply Hker. cbn [length]. now rewrite repeat_length. }
  destruct (Hspan (0 :: 1 :: repeat 0 n)) as (cs1 & Hcs1 & H1).
  { apply Hker. cbn [length]. now rewrite repeat_length. }
  replace (ncols k) with (S (S n)) in H0, H1 by reflexivity.
  destruct dim as [|[|dim]]; [exfalso|exfalso|lia].
  - destruct cs0; [|discriminate]. cbn in H0.
    apply (f_equal (hd 0)) in H0. discriminate H0.
  - destruct cs0 as [|c0 [|? ?]]; try discriminate.
    destruct cs1 as [|c1 [|? ?]]; try discriminate.
    destruct (columns b) as [|v cols].
    { cbn in H0. apply (f_equal (hd 0)) in H0. discriminate H0. }
    cbn [lin_comb combine fold_right fst snd repeat] in H0, H1.
    destruct v as [|v0 [|v1 v]]; try discriminate.
    unfold scale in H0, H1. cbn [map map2] in H0, H1.
    pose proof (f_equal (hd 0) H0) as A0.
    pose proof (f_equal (fun l => hd 0 (tl l)) H0) as A1.
    pose proof (f_equal (hd 0) H1) as B0.
    pose proof (f_equal (fun l => hd 0 (tl l)) H1) as B1.
    cbn [hd tl] in A0, A1, B0, B1. clear H0 H1. qc_ops.
    assert (Hc : c0 * v1 = 0) by (rewrite A1; ring).
    destruct (Qcmult_integral _ _ Hc) as [E|E]; subst.
    + apply Q_apart_0_1. rewrite A0. ring.
    + apply Q_apart_0_1. rewrite B1. ring.
Qed.

Lemma fsum_indicator_zero (i n : nat) :
  forall s, (i < s)%nat ->
    fsum (map (fun j => if (i =? j)%nat then f1 else f0) (seq s n)) = 0.
Proof.
  induction n as [|n IH]; intros s Hs; [reflexivity|].
  cbn [seq map]. rewrite fsum_cons, IH by lia.
  replace (i =? s)%nat with false by (symmetry; apply Nat.eqb_neq; lia).
  qc_ops. ring.
Qed.

Lemma fsum_indicator_one (i n : nat) :
  forall s, (s <= i < s + n)%nat ->
    fsum (map (fun j => if (i =? j)%nat then f1 else f0) (seq s n)) = 1.
Proof.
  induction n as [|n IH]; intros s Hs; [lia|].
  cbn [seq map]. rewrite fsum_cons.
  destruct (i =? s)%nat eqn:His.
  - rewrite fsum_indicator_zero by (apply Nat.eqb_eq in His; lia).
    qc_ops. ring.
  - apply Nat.eqb_neq in His. rewrite IH by lia. qc_ops. ring.
Qed.

(** The identity matrix passes the validator of the transition matrix. *)
Lemma identity_valid (n : nat) (hmm : HiddenMarkovModel) :
  valid_tranisition_matrix hmm (identity n) = Ok tt.
Proof.
  apply valid_tranisition_matrix_iff. repeat split.
  - unfold entrywise_nonneg, identity. cbn [data].
    apply Forall_flat_map, Forall_forall. intros i _.
    rewrite Forall_map. apply Forall_forall. intros j _.
    destruct (i =? j)%nat; qc_ops; qc2q; lra.
  - unfold row_sums_at_most, rows, identity. cbn [shape data].
    rewrite Forall_map. apply Forall_forall. intros i Hi. apply in_seq in Hi.
    rewrite (chunk_flat_map
               (fun i => map (fun j => if (i =? j)%nat then f1 else f0)
                             (seq 0 n)))
      by (try lia; intros; now rewrite length_map, length_seq).
    rewrite fsum_indicator_one by lia. qc2q; lra.
Qed.

(** C6.  When the null space of [(transition_matrix - I)^T] has more
    than one dimension, [steady_state_probabilities] raises the
    ValueError that carries the basis [null_space] returned; and for
    every [n >= 2] the n-by-n identity transition matrix, which passes
    validation, has such a null space, whatever basis of it
    [null_space] returns. *)
Theorem steady_state_non_unique :
  (forall (n : nat) (hmm : HiddenMarkovModel),
      valid_tranisition_matrix hmm (identity n) = Ok tt) /\
  (forall (hmm : HiddenMarkovModel) (dim : nat),
      null_space_basis (kernel_matrix hmm) (null_space (kernel_matrix hmm)) dim ->
      (1 < dim)%nat ->
      steady_state_probabilities null_space hmm =
      Raise (NonUniqueStationary (null_space (kernel_matrix hmm)))) /\
  (forall (n dim : nat) (s : ndarray Qc),
      (2 <= n)%nat ->
      let hmm := mk_hmm (identity n) s in
      null_space_basis (kernel_matrix hmm) (null_space (kernel_matrix hmm)) dim ->
      steady_state_probabilities null_space hmm =
      Raise (NonUniqueStationary (null_space (kernel_matrix hmm)))).
Proof.
  assert (Hgen : forall hmm dim,
      null_space_basis (kernel_matrix hmm) (null_space (kernel_matrix hmm)) dim ->
      (1 < dim)%nat ->
      steady_state_probabilities null_space hmm =
      Raise (NonUniqueStationary (null_space (kernel_matrix hmm)))).
  { intros hmm dim Hb Hdim. rewrite (steady_state_of_basis _ hmm dim Hb).
    apply Nat.ltb_lt in Hdim. now rewrite Hdim. }
  split; [exact identity_valid|]. split; [exact Hgen|].
  intros n dim s Hn hmm Hb. apply (Hgen hmm dim Hb).
  exact (identity_basis_dimension n dim s _ Hn Hb).
Qed.

(** *** Normalisation *)

Lemma fsum_div (v : list Qc) (s : Qc) :
  fsum (map (fun x => fdiv x s) v) = fsum v / s.
Proof.
  induction v as [|x v IH]; cbn [map].
  - unfold fsum. cbn [fold_left]. qc_ops. unfold Qcdiv. ring.
  - rewrite !fsum_cons, IH. qc_ops. unfold Qcdiv. ring.
Qed.

Lemma fsum_nonneg (v : list Qc) :
  Forall (fun x => 0 <= x) v ->
  0 <= fsum v /\ (fsum v = 0 -> Forall (fun x => x = 0) v).
Proof.
  induction 1 as [|x v Hx _ [IH1 IH2]].
  - split; [apply Qcle_refl|constructor].
  - rewrite fsum_cons. split.
    + qc2q; lra.
    + intros Hs.
      assert (x = 0) by (qc2q; lra).
      assert (fsum v = 0) by (qc2q; lra).
      constructor; auto.
Qed.

Lemma fsum_opp (v : list Qc) : fsum (map Qcopp v) = - fsum v.
Proof.
  induction v as [|x v IH]; cbn [map].
  - unfold fsum. cbn [fold_left]. qc_ops. ring.
  - rewrite !fsum_cons, IH. ring.
Qed.

Lemma zeros_repeat (v : list Qc) :
  Forall (fun x => x = 0) v -> v = repeat f0 (length v).
Proof.
  induction 1 as [|x v Hx _ IH]; [reflexivity|].
  cbn [length repeat]. now rewrite <- IH, Hx.
Qed.

Lemma div_nonneg (x s : Qc) : 0 <= x -> 0 < s -> 0 <= x / s.
Proof.
  intros Hx Hs. qc2q.
  apply Qmult_le_0_compat; [assumption|].
  apply Qlt_le_weak, Qinv_lt_0_compat. assumption.
Qed.

Lemma div_opp_opp (x s : Qc) : s <> 0 -> x / s = (- x) / (- s).
Proof.
  intros Hs. field. split; [|assumption].
  intros H. apply Hs. rewrite <- (Qcopp_involutive s), H. reflexivity.
Qed.

(** C5 (as the code has it).  When the null space of
    [(transition_matrix - I)^T] has dimension one,
    [steady_state_probabilities] returns the basis vector divided by
    the sum of its entries, with no sign correction.  The returned
    entries sum to 1 when that sum is not zero.  When the entries of
    the basis vector all have one sign, the sum is not zero and the
    returned entries are all non-negative. *)
Theorem steady_state_dimension_one (hmm : HiddenMarkovModel) :
  null_space_basis (kernel_matrix hmm) (null_space (kernel_matrix hmm)) 1 ->
  let v := data (null_space (kernel_matrix hmm)) in
  let w := map (fun x => x / fsum v) v in
  steady_state_probabilities null_space hmm = Ok w /\
  (fsum v <> 0 -> fsum w = 1) /\
  (Forall (fun x => 0 <= x) v \/ Forall (fun x => x <= 0) v ->
   fsum v <> 0 /\ Forall (fun x => 0 <= x) w).
Proof.
  intros Hb v w.
  split; [exact (steady_state_of_basis _ hmm 1 Hb)|].
  split.
  - intros Hs. unfold w. rewrite (fsum_div v (fsum v)).
    unfold Qcdiv. now apply Qcmult_inv_r.
  - destruct (basis_one_column _ _ Hb) as (Hlen & _ & _ & Hnz). fold v in Hlen, Hnz.
    assert (Hpos : forall u : list Qc,
               Forall (fun x => 0 <= x) u -> ~ Forall (fun x => x = 0) u ->
               0 < fsum u).
    { intros u Hu Hnot. destruct (fsum_nonneg u Hu) as [H0 Hz].
      destruct (Qcle_lt_or_eq _ _ H0) as [Hlt|Heq]; [assumption|].
      exfalso. apply Hnot, Hz. now symmetry. }
    assert (Hv0 : ~ Forall (fun x => x = 0) v).
    { intros Hz. apply Hnz. rewrite <- Hlen. now apply zeros_repeat. }
    intros [Hsign|Hsign].
    + pose proof (Hpos v Hsign Hv0) as Hs. split.
      * intros E. rewrite E in Hs. exact (Qclt_not_le _ _ Hs (Qcle_refl 0)).
      * unfold w. rewrite Forall_map.
        eapply Forall_impl; [|exact Hsign].
        intros x Hx. now apply div_nonneg.
    + assert (Hopp : Forall (fun x => 0 <= x) (map Qcopp v)).
      { rewrite Forall_map. eapply Forall_impl; [|exact Hsign].
        intros x Hx. cbv beta in Hx. qc2q; lra. }
      assert (Hs : 0 < fsum (map Qcopp v)).
      { apply Hpos; [assumption|]. rewrite Forall_map. intros Hz. apply Hv0.
        eapply Forall_impl; [|exact Hz]. intros x Hx. cbv beta in Hx.
        rewrite <- (Qcopp_involutive x), Hx. reflexivity. }
      rewrite fsum_opp in Hs.
      assert (Hne : fsum v <> 0).
      { intros E. rewrite E in Hs. exact (Qclt_not_le _ _ Hs (Qcle_refl 0)). }
      split; [assumption|].
      unfold w. rewrite Forall_map.
      eapply Forall_impl; [|exact Hsign].
      intros x Hx. cbv beta in Hx. rewrite (div_opp_opp x _ Hne).
      apply div_nonneg; [qc2q; lra|assumption].
Qed.

End SteadyState.

Section ForwardRecurrence.

Local Open Scope Qc_scope.

Variable null_space : ndarray Qc -> ndarray Qc.
Variable hmm : HiddenMarkovModel (F:=Qc).
Variables n m : nat.

Hypothesis transition_shape : shape (transition_matrix hmm) = [n; n].
Hypothesis emission_shape : shape (sampling_probabilities hmm) = [n; m].
Hypothesis transition_nonneg : entrywise_nonneg (transition_matrix hmm).
Hypothesis emission_nonneg : entrywise_nonneg (sampling_probabilities hmm).

Lemma len_transition : len (transition_matrix hmm) = n.
Proof. unfold len. now rewrite transition_shape. Qed.

Lemma nth_nonneg (l : list Qc) (k : nat) :
  Forall (fun x => 0 <= x) l -> 0 <= nth k l 0.
Proof.
  intros H. revert k. induction H as [|x l Hx _ IH]; intros [|k];
    cbn [nth]; auto; apply Qcle_refl.
Qed.

Lemma entry_nonneg (a : ndarray Qc) (i j : nat) :
  entrywise_nonneg a -> 0 <= entry a i j.
Proof. intros H. apply nth_nonneg, H. Qed.

Lemma mul_nonneg (x y : Qc) : 0 <= x -> 0 <= y -> 0 <= x * y.
Proof. intros Hx Hy. qc2q. now apply Qmult_le_0_compat. Qed.

Lemma candidates_nonneg (prob : list Qc) (s : nat) :
  Forall (fun x => 0 <= x) prob ->
  Forall (fun c => 0 <= c) (spec_candidates hmm prob s).
Proof.
  intros Hp. unfold spec_candidates. rewrite Forall_map.
  apply Forall_forall. intros p _.
  apply mul_nonneg; [now apply nth_nonneg|now apply entry_nonneg].
Qed.

(** From a running maximum of 0.0, over candidates none of which is
    negative, the scan ends with the candidate at the parent it
    records. *)
Lemma scan_pair_from_zero (cands : list Qc) :
  Forall (fun c => 0 <= c) cands -> cands <> [] ->
  let r := scan_pair cands 0 f0 0 in
  (snd r < length cands)%nat /\ fst r = nth (snd r) cands 0.
Proof.
  intros Hc Hne. destruct cands as [|c0 rest]; [contradiction|].
  inversion Hc as [|? ? Hc0 _]; subst. cbn [scan_pair].
  destruct (fgtb c0 f0) eqn:Hgt.
  - apply (scan_pair_entry 0 rest [c0] c0 0%nat); [cbn; lia|reflexivity].
  - apply (scan_pair_entry 0 rest [c0] f0 0%nat); [cbn; lia|].
    unfold fgtb in Hgt. apply fltb_false in Hgt. cbn [app nth].
    now apply Qcle_antisym.
Qed.

Lemma nth_map_seq (g : nat -> Qc) (k len : nat) :
  (k < len)%nat -> nth k (map g (seq 0 len)) 0 = g k.
Proof.
  intros Hk. rewrite (nth_indep _ 0 (g 0%nat))
    by now rewrite length_map, length_seq.
  now rewrite map_nth, seq_nth.
Qed.

Lemma step_bag_spec (prob : list Qc) (o s : nat) :
  length prob = n -> Forall (fun x => 0 <= x) prob ->
  (s < n)%nat -> (o < m)%nat ->
  step_bag hmm prob (Z.of_nat o) s =
  Ok (spec_new_prob hmm prob s o, spec_best_prev hmm prob s).
Proof.
  intros Hlen Hp Hs Ho. unfold step_bag.
  rewrite (best_parent_scan hmm n s prob transition_shape Hs prob 0 f0 0)
    by (try reflexivity; lia).
  rewrite Hlen. cbn [bind].
  assert (Hc : spec_candidates hmm prob s =
               map (fun p => fmul (nth p prob f0)
                                  (entry (transition_matrix hmm) p s))
                   (seq 0 n))
    by (unfold spec_candidates; now rewrite len_transition).
  rewrite <- Hc.
  destruct (scan_pair_from_zero (spec_candidates hmm prob s)) as [Hbp Hmx].
  { now apply candidates_nonneg. }
  { rewrite Hc. destruct n; [lia|discriminate]. }
  pose proof (scan_pair_snd (spec_candidates hmm prob s) 0 f0 0) as Hsnd.
  destruct (scan_pair (spec_candidates hmm prob s) 0 f0 0) as [mx bp].
  cbn [fst snd] in *.
  rewrite (getitem2_entry _ n m s o emission_shape Hs Ho). cbn [bind].
  unfold spec_new_prob, spec_best_prev. rewrite <- Hsnd.
  do 2 f_equal. rewrite Hmx, Hc.
  rewrite Hc, length_map, length_seq in Hbp.
  now rewrite (nth_map_seq _ bp n Hbp).
Qed.

Lemma step_spec (prob : list Qc) (o : nat) :
  length prob = n -> Forall (fun x => 0 <= x) prob -> (o < m)%nat ->
  step hmm n prob (Z.of_nat o) = Ok (spec_step hmm prob o).
Proof.
  intros Hlen Hp Ho. unfold step.
  rewrite (mapM_ok _ (fun s => (spec_new_prob hmm prob s o,
                                spec_best_prev hmm prob s))).
  - cbn [bind]. unfold spec_step. rewrite len_transition, !map_map.
    reflexivity.
  - intros s Hs. apply in_seq in Hs. apply step_bag_spec; auto; lia.
Qed.

Lemma spec_step_invariant (prob : list Qc) (o : nat) :
  Forall (fun x => 0 <= x) prob ->
  length (fst (spec_step hmm prob o)) = n /\
  Forall (fun x => 0 <= x) (fst (spec_step hmm prob o)).
Proof.
  intros Hp. unfold spec_step. cbn [fst]. rewrite len_transition. split.
  - now rewrite length_map, length_seq.
  - rewrite Forall_map. apply Forall_forall. intros s _. unfold spec_new_prob.
    apply mul_nonneg; [apply mul_nonneg|];
      auto using nth_nonneg, entry_nonneg.
Qed.

Lemma run_steps_spec (os : list nat) :
  Forall (fun o => (o < m)%nat) os ->
  forall prob parents,
    length prob = n -> Forall (fun x => 0 <= x) prob ->
    run_steps hmm n prob parents (map Z.of_nat os) =
    Ok (spec_steps hmm prob parents os).
Proof.
  induction 1 as [|o os Ho _ IH]; intros prob parents Hlen Hp; [reflexivity|].
  cbn [map run_steps spec_steps]. rewrite (step_spec prob o Hlen Hp Ho).
  cbn [bind]. destruct (spec_step_invariant prob o Hp) as [Hlen' Hp'].
  destruct (spec_step hmm prob o) as [new_prob best_prev].
  now apply IH.
Qed.

Lemma initial_spec (steady : list Qc) (o : nat) :
  steady_state_probabilities null_space hmm = Ok steady ->
  length steady = n -> (o < m)%nat ->
  initial_probabilities null_space hmm (Z.of_nat o) =
  Ok (spec_initial hmm steady o).
Proof.
  intros Hsteady Hlen Ho. unfold initial_probabilities. rewrite Hsteady.
  cbn [bind]. rewrite (getitem_transpose _ n m o emission_shape Ho).
  cbn [bind]. unfold flatten. cbn [data].
  rewrite broadcast_mul_same_length
    by now rewrite length_map, length_seq.
  unfold spec_initial. rewrite len_transition, <- Hlen, map2_seq.
  f_equal. apply map_ext. intros i. now rewrite Nat.sub_0_r.
Qed.

Lemma spec_initial_invariant (steady : list Qc) (o : nat) :
  Forall (fun x => 0 <= x) steady ->
  length (spec_initial hmm steady o) = n /\
  Forall (fun x => 0 <= x) (spec_initial hmm steady o).
Proof.
  intros Hp. unfold spec_initial. rewrite len_transition. split.
  - now rewrite length_map, length_seq.
  - rewrite Forall_map. apply Forall_forall. intros s _.
    apply mul_nonneg; auto using nth_nonneg, entry_nonneg.
Qed.

Lemma forward_spec (steady : list Qc) (o : nat) (os : list nat) :
  steady_state_probabilities null_space hmm = Ok steady ->
  length steady = n ->
  Forall (fun x => 0 <= x) steady ->
  Forall (fun o => (o < m)%nat) (o :: os) ->
  forward null_space hmm (Z.of_nat o) (map Z.of_nat os) =
  Ok (spec_forward hmm steady o os).
Proof.
  intros Hsteady Hlen Hp Hobs.
  pose proof (Forall_inv Hobs) as Ho. pose proof (Forall_inv_tail Hobs) as Hos.
  unfold forward. rewrite (initial_spec steady o Hsteady Hlen Ho).
  cbn [bind]. rewrite len_transition.
  destruct (spec_initial_invariant steady o Hp) as [Hlen' Hp'].
  now apply run_steps_spec.
Qed.

Lemma spec_scan_all_zero (cands : list Qc) :
  Forall (fun c => c = 0) cands ->
  forall p bp, spec_scan cands p f0 bp = bp.
Proof.
  induction 1 as [|c cands Hc _ IH]; intros p bp; [reflexivity|].
  cbn [spec_scan]. subst c.
  replace (fgtb 0 f0) with false; [apply IH|].
  symmetry. unfold fgtb. apply fltb_false. apply Qcle_refl.
Qed.

End ForwardRecurrence.

Lemma validated_nonneg (hmm : HiddenMarkovModel (F:=Qc)) :
  validated hmm ->
  entrywise_nonneg (transition_matrix hmm) /\
  entrywise_nonneg (sampling_probabilities hmm).
Proof.
  unfold validated, new_hmm. destruct hmm as [t s]. cbn [transition_matrix
    sampling_probabilities].
  destruct (valid_tranisition_matrix (mk_hmm t s) t) as [[]|e] eqn:Ht;
    [cbn [bind]|discriminate].
  destruct (valid_sampling_probabilities (mk_hmm t s) s) as [[]|e] eqn:Hs;
    [cbn [bind]|discriminate].
  intros _. apply valid_tranisition_matrix_iff in Ht.
  apply valid_sampling_probabilities_iff in Hs; [|apply Ht].
  split; [apply Ht|apply Hs].
Qed.

(** C1 (as the code has it).  For a validated model whose emission
    matrix has one row per state and whose steady state is defined
    (the entries of the basis vector do not sum to zero) and is a vector
    with one entry per state, none of them negative, and for a
    non-empty sequence of marbles in range: the forward pass of
    [viterbi] computes exactly the recurrence of the specification
    (initial vector, best previous state by an index-order scan with a
    strict comparison against a running maximum that starts at 0.0,
    new probability as the product at the best previous state), and
    [viterbi] returns the backtrace of that.  When every candidate
    product is 0 the recorded previous state is 0. *)
Theorem forward_recurrence (null_space : ndarray Qc -> ndarray Qc)
  (hmm : HiddenMarkovModel) (steady : list Qc) (o : nat) (os : list nat) :
  validated hmm ->
  len (sampling_probabilities hmm) = len (transition_matrix hmm) ->
  steady_state_probabilities null_space hmm = Ok steady ->
  fsum (flatten (null_space (kernel_matrix hmm))) <> 0%Qc ->
  length steady = len (transition_matrix hmm) ->
  Forall (fun x => (0 <= x)%Qc) steady ->
  Forall (fun o => o < ncols (sampling_probabilities hmm)) (o :: os) ->
  forward null_space hmm (Z.of_nat o) (map Z.of_nat os) =
    Ok (spec_forward hmm steady o os) /\
  viterbi null_space hmm (map Z.of_nat (o :: os)) =
    (let (prob, backpointer) := spec_forward hmm steady o os in
     final <- argmax prob ;;
     rev_path <- backtrace (rev backpointer) final [final] ;;
     Ok (rev rev_path)) /\
  (forall prob s,
      Forall (fun c => c = 0%Qc) (spec_candidates hmm prob s) ->
      spec_best_prev hmm prob s = 0).
Proof.
  intros Hval Hrows Hsteady _ Hlen Hpos Hobs.
  destruct (validated_shapes hmm Hval) as (n & n' & m & Ht & He).
  destruct (validated_nonneg hmm Hval) as [Htn Hen].
  unfold len in Hrows, Hlen. rewrite Ht in Hrows, Hlen. rewrite He in Hrows.
  cbn [hd] in Hrows, Hlen. subst n'.
  unfold ncols in Hobs. rewrite He in Hobs. cbn [nth] in Hobs.
  pose proof (forward_spec null_space hmm n m Ht He Htn Hen steady o os
                Hsteady Hlen Hpos Hobs) as Hfwd.
  split; [exact Hfwd|]. split.
  - cbn [map viterbi]. rewrite Hfwd. cbn [bind].
    destruct (spec_forward hmm steady o os). reflexivity.
  - intros prob s Hz. unfold spec_best_prev. now apply spec_scan_all_zero.
Qed.

Section Examples.

Local Open Scope Qc_scope.

(** Evaluates the list structure of a concrete matrix expression and
    leaves the scalar operations in place. *)
Ltac structure :=
  cbv [kernel_matrix transpose array_sub identity len ncols rows columns
       mat_vec dot fsum scale lin_comb in_null_space
       transition_matrix sampling_probabilities shape data
       test_hmm hmm_half hmm_tall hmm_mixed hmm_symmetric hmm_identity
       matrix basis
       hd tl length concat map flat_map seq app nth map2 firstn skipn
       fold_left fold_right combine repeat fst snd prod_shape
       Nat.eqb Nat.mul Nat.add] in *.

Ltac forall_inv H :=
  repeat match type of H with
         | Forall _ (_ :: _) =>
             let H1 := fresh "Heq" in
             let H2 := fresh "Hrest" in
             inversion H as [|? ? H1 H2]; subst; clear H; rename H2 into H
         end.

Ltac nonzero_vector :=
  let H := fresh in
  intros H; apply (f_equal (hd f0)), this_eq in H; vm_compute in H;
  discriminate H.

Ltac zero_entries :=
  vm_compute; repeat constructor; apply Qc_is_canon; reflexivity.

Lemma test_hmm_generator :
  generates (kernel_matrix test_hmm) [Q2Qc 5; Q2Qc 2].
Proof.
  split; [split; [reflexivity|zero_entries]|split; [nonzero_vector|]].
  intros x [Hlen Hx]. destruct x as [|a [|b [|? ?]]]; try discriminate.
  structure. forall_inv Hx. exists (a * Q2Qc (1 # 5)).
  f_equal; [|f_equal]; qc2q; lra.
Qed.

Lemma hmm_mixed_generator :
  generates (kernel_matrix hmm_mixed) [Q2Qc 1; Q2Qc (-2)].
Proof.
  split; [split; [reflexivity|zero_entries]|split; [nonzero_vector|]].
  intros x [Hlen Hx]. destruct x as [|a [|b [|? ?]]]; try discriminate.
  structure. forall_inv Hx. exists a.
  f_equal; [|f_equal]; qc2q; lra.
Qed.

Lemma hmm_symmetric_generator :
  generates (kernel_matrix hmm_symmetric) [Q2Qc 1; Q2Qc (-1)].
Proof.
  split; [split; [reflexivity|zero_entries]|split; [nonzero_vector|]].
  intros x [Hlen Hx]. destruct x as [|a [|b [|? ?]]]; try discriminate.
  structure. forall_inv Hx. exists a.
  f_equal; [|f_equal]; qc2q; lra.
Qed.

Lemma hmm_tall_generator :
  generates (kernel_matrix hmm_tall) [Q2Qc 1].
Proof.
  split; [split; [reflexivity|zero_entries]|split; [nonzero_vector|]].
  intros x [Hlen Hx]. destruct x as [|a [|? ?]]; try discriminate.
  exists a. structure. f_equal. qc2q; lra.
Qed.

Lemma hmm_half_basis :
  null_space_basis (kernel_matrix hmm_half) (basis 1 0 []) 0.
Proof.
  constructor.
  - reflexivity.
  - reflexivity.
  - constructor.
  - intros x [Hlen Hx]. destruct x as [|a [|? ?]]; try discriminate.
    exists []. split; [reflexivity|].
    structure. forall_inv Hx. f_equal. qc2q; lra.
  - intros [|? ?] Hcs; [constructor|discriminate].
Qed.

Lemma hmm_identity_basis :
  null_space_basis (kernel_matrix hmm_identity)
    (basis 2 2 [1#1; 0#1; 0#1; 1#1]) 2.
Proof.
  constructor.
  - reflexivity.
  - reflexivity.
  - repeat constructor; zero_entries.
  - intros x [Hlen Hx]. destruct x as [|a [|b [|? ?]]]; try discriminate.
    exists [a; b]. split; [reflexivity|].
    structure. f_equal; [|f_equal]; qc2q; lra.
  - intros [|a [|b [|? ?]]] Hcs; try discriminate.
    structure. intros H.
    pose proof (f_equal (hd f0) H) as Ha.
    pose proof (f_equal (fun l => hd f0 (tl l)) H) as Hb.
    cbn [hd tl] in Ha, Hb. clear H.
    repeat constructor; qc2q; lra.
Qed.

Lemma viterbi_steady_ext (ns1 ns2 : ndarray Qc -> ndarray Qc)
  (hmm : HiddenMarkovModel) (sequence : list Z) :
  steady_state_probabilities ns1 hmm = steady_state_probabilities ns2 hmm ->
  viterbi ns1 hmm sequence = viterbi ns2 hmm sequence.
Proof.
  intros H. destruct sequence as [|first_marble rest]; [reflexivity|].
  unfold viterbi, forward, initial_probabilities. now rewrite H.
Qed.

(** C9.  For the two-state model of the repository's tests, whatever
    basis of the null space [null_space] returns: the model is
    validated, the steady state is
    [5/7, 2/7] and the marbles [0, 0, 1, 0] decode to the bags
    [0, 0, 0, 0]. *)
Theorem two_state_example (null_space : ndarray Qc -> ndarray Qc) (dim : nat) :
  null_space_basis (kernel_matrix test_hmm)
    (null_space (kernel_matrix test_hmm)) dim ->
  validated test_hmm /\
  steady_state_probabilities null_space test_hmm =
    Ok [Q2Qc (5 # 7); Q2Qc (2 # 7)] /\
  viterbi null_space test_hmm [0; 0; 1; 0]%Z = Ok [0; 0; 0; 0]%nat.
Proof.
  intros Hb. split; [reflexivity|].
  assert (Hdim : dim = 1%nat)
    by exact (basis_dim_one _ _ _ _ Hb test_hmm_generator).
  subst dim.
  assert (Hsteady : steady_state_probabilities null_space test_hmm =
                    Ok [Q2Qc (5 # 7); Q2Qc (2 # 7)]).
  { rewrite (steady_state_of_basis _ test_hmm 1 Hb). cbn [Nat.ltb Nat.leb].
    destruct (basis_one_column _ _ Hb) as (_ & _ & Hin & Hnz).
    destruct test_hmm_generator as (_ & _ & Hgen).
    destruct (Hgen _ Hin) as [c Hc]. rewrite Hc in *. clear Hc Hgen Hin.
    assert (Hc0 : ~ (this c == 0)%Q).
    { intros E. apply Hnz. structure.
      f_equal; [|f_equal]; qc2q; rewrite E; ring. }
    structure. apply f_equal.
    apply f_equal2; [|apply f_equal2; [|reflexivity]]; qc2q; field; lra. }
  split; [exact Hsteady|].
  rewrite (viterbi_steady_ext null_space (fun _ => basis 2 1 [5#1; 2#1])).
  - vm_compute. reflexivity.
  - rewrite Hsteady. symmetry. vm_compute. apply f_equal.
    apply f_equal2; [|apply f_equal2; [|reflexivity]];
      apply Qc_is_canon; reflexivity.
Qed.

(** C4, refuted as stated: the one-state model with transition matrix
    [[0.5]] is validated, the null space of its kernel matrix has
    dimension 0, and [steady_state_probabilities] returns the empty
    vector. *)
Lemma steady_state_dimension_zero_returns :
  validated hmm_half /\
  null_space_basis (kernel_matrix hmm_half) (basis 1 0 []) 0 /\
  steady_state_probabilities (fun _ => basis 1 0 []) hmm_half = Ok [].
Proof.
  split; [reflexivity|]. split; [exact hmm_half_basis|reflexivity].
Qed.

(** C5, refuted as stated: a validated model whose one-dimensional
    null space is spanned by (1, -2); the returned steady state is
    (-1, 2).  And a validated model whose one-dimensional null space is
    spanned by (1, -1): the sum the source divides by is zero. *)
Lemma steady_state_negative_entry :
  (validated hmm_mixed /\
   null_space_basis (kernel_matrix hmm_mixed) (basis 2 1 [1#1; (-2)#1]) 1 /\
   exists w,
     steady_state_probabilities (fun _ => basis 2 1 [1#1; (-2)#1]) hmm_mixed
       = Ok w /\
     map this w = [(-1)#1; 2#1]%Q /\
     ~ Forall (fun x => 0 <= x) w) /\
  (validated hmm_symmetric /\
   null_space_basis (kernel_matrix hmm_symmetric)
     (basis 2 1 [1#1; (-1)#1]) 1 /\
   fsum (flatten (basis 2 1 [1#1; (-1)#1])) = 0).
Proof.
  split.
  - split; [reflexivity|].
    split; [exact (basis_of_generator _ _ hmm_mixed_generator)|].
    eexists. split; [reflexivity|]. split; [reflexivity|].
    intros H. inversion H as [|? ? Hneg _]. vm_compute in Hneg.
    now apply Hneg.
  - split; [reflexivity|].
    split; [exact (basis_of_generator _ _ hmm_symmetric_generator)|].
    apply Qc_is_canon. reflexivity.
Qed.

(** C7, failing input: a validated one-state model whose emission
    matrix has three rows.  For the single marble 0 [viterbi] returns
    the bag 2, which is not a state of the model. *)
Lemma viterbi_bag_out_of_range :
  validated hmm_tall /\
  len (transition_matrix hmm_tall) = 1%nat /\
  null_space_basis (kernel_matrix hmm_tall) (basis 1 1 [1#1]) 1 /\
  viterbi (fun _ => basis 1 1 [1#1]) hmm_tall [0%Z] = Ok [2%nat].
Proof.
  split; [reflexivity|]. split; [reflexivity|].
  split; [exact (basis_of_generator _ _ hmm_tall_generator)|].
  vm_compute. reflexivity.
Qed.

(** C3, refuted as stated.  (1) With the identity transition matrix
    the marble 2 is out of range for the two emission columns, and
    [viterbi] raises the error of the steady state, not IndexError.
    (2) In the two-state model of the tests the marble -1 is outside
    [0, 2) and [viterbi] returns a path. *)
Lemma viterbi_out_of_range_other_error :
  (validated hmm_identity /\
   ncols (sampling_probabilities hmm_identity) = 2%nat /\
   null_space_basis (kernel_matrix hmm_identity)
     (basis 2 2 [1#1; 0#1; 0#1; 1#1]) 2 /\
   viterbi (fun _ => basis 2 2 [1#1; 0#1; 0#1; 1#1]) hmm_identity [2%Z] =
     Raise (NonUniqueStationary (basis 2 2 [1#1; 0#1; 0#1; 1#1])) /\
   viterbi (fun _ => basis 2 2 [1#1; 0#1; 0#1; 1#1]) hmm_identity [2%Z] <>
     Raise IndexError) /\
  (validated test_hmm /\
   ncols (sampling_probabilities test_hmm) = 2%nat /\
   null_space_basis (kernel_matrix test_hmm) (basis 2 1 [5#1; 2#1]) 1 /\
   viterbi null_space_52 test_hmm [0; -1]%Z = Ok [0; 0]%nat).
Proof.
  split.
  - split; [reflexivity|]. split; [reflexivity|].
    split; [exact hmm_identity_basis|].
    split; [reflexivity|]. discriminate.
  - split; [reflexivity|]. split; [reflexivity|].
    split; [exact (basis_of_generator _ _ test_hmm_generator)|].
    vm_compute. reflexivity.
Qed.

(** C1, refuted as stated, on validated models and marbles in range.
    (1) Two states, two emission rows, a one-dimensional null space
    spanned by (1, -2), marbles [0, 0]: the steady state is (-1, 2); at
    the second marble the source stores 0.0 times the emission
    probability for state 0, where the recurrence of the specification
    gives [prob[0] * transition_matrix[0][0] * emission_matrix[0][0]],
    which is negative.
    (2) One state and three emission rows, marble [0]: the source's
    initial vector has three entries, the recurrence has one per state.
    (3) Transition matrix [[0.5]], a null space of dimension 0, marble
    [0]: the source's initial vector is empty. *)
Lemma forward_differs_from_recurrence :
  (validated hmm_mixed /\
   null_space_basis (kernel_matrix hmm_mixed) (basis 2 1 [1#1; (-2)#1]) 1 /\
   exists steady probs parents,
     steady_state_probabilities (fun _ => basis 2 1 [1#1; (-2)#1]) hmm_mixed
       = Ok steady /\
     forward (fun _ => basis 2 1 [1#1; (-2)#1]) hmm_mixed 0%Z [0%Z]
       = Ok (probs, parents) /\
     map this probs = [0#1; 0#1]%Q /\
     map this (fst (spec_forward hmm_mixed steady 0 [0%nat]))
       = [(-524289) # 2097152; 0#1]%Q /\
     forward (fun _ => basis 2 1 [1#1; (-2)#1]) hmm_mixed 0%Z [0%Z]
       <> Ok (spec_forward hmm_mixed steady 0 [0%nat])) /\
  (validated hmm_tall /\
   null_space_basis (kernel_matrix hmm_tall) (basis 1 1 [1#1]) 1 /\
   exists steady probs,
     steady_state_probabilities (fun _ => basis 1 1 [1#1]) hmm_tall
       = Ok steady /\
     forward (fun _ => basis 1 1 [1#1]) hmm_tall 0%Z [] = Ok (probs, []) /\
     length probs = 3%nat /\
     length (fst (spec_forward hmm_tall steady 0 [])) = 1%nat) /\
  (validated hmm_half /\
   null_space_basis (kernel_matrix hmm_half) (basis 1 0 []) 0 /\
   steady_state_probabilities (fun _ => basis 1 0 []) hmm_half = Ok [] /\
   forward (fun _ => basis 1 0 []) hmm_half 0%Z [] = Ok ([], []) /\
   length (fst (spec_forward hmm_half [] 0 [])) = 1%nat).
Proof.
  split; [|split].
  - split; [reflexivity|].
    split; [exact (basis_of_generator _ _ hmm_mixed_generator)|].
    do 3 eexists. split; [reflexivity|]. split; [reflexivity|].
    split; [reflexivity|]. split; [reflexivity|].
    intros H. apply (f_equal (fun r => match r with
                                       | Ok (p, _) => map this p
                                       | Raise _ => []
                                       end)) in H.
    vm_compute in H. discriminate H.
  - split; [reflexivity|].
    split; [exact (basis_of_generator _ _ hmm_tall_generator)|].
    do 2 eexists. repeat split; reflexivity.
  - split; [reflexivity|]. split; [exact hmm_half_basis|].
    repeat split; reflexivity.
Qed.

End Examples.

(** * The theorems at concrete inputs *)

Section Witnesses.

Lemma forward_recurrence_witness :
  let steady := map (fun x => fdiv x (fsum [Q2Qc 5; Q2Qc 2])) [Q2Qc 5; Q2Qc 2] in
  forward null_space_52 test_hmm 0%Z [0; 1; 0]%Z =
    Ok (spec_forward test_hmm steady 0 [0; 1; 0]) /\
  viterbi null_space_52 test_hmm [0; 0; 1; 0]%Z =
    (let (prob, backpointer) := spec_forward test_hmm steady 0 [0; 1; 0] in
     final <- argmax prob ;;
     rev_path <- backtrace (rev backpointer) final [final] ;;
     Ok (rev rev_path)) /\
  (forall prob s,
      Forall (fun c => c = 0%Qc) (spec_candidates test_hmm prob s) ->
      spec_best_prev test_hmm prob s = 0).
Proof.
  intros steady.
  apply (forward_recurrence null_space_52 test_hmm steady 0 [0; 1; 0]).
  - reflexivity.
  - reflexivity.
  - reflexivity.
  - intros H. apply this_eq in H. vm_compute in H. discriminate H.
  - reflexivity.
  - repeat constructor; vm_compute; discriminate.
  - repeat constructor.
Defined.

Lemma viterbi_marble_out_of_range_witness :
  validated test_hmm /\
  dp_reaches null_space_52 test_hmm [0; 0]%Z /\
  viterbi null_space_52 test_hmm ([0; 0] ++ 2 :: [0])%Z = Raise IndexError.
Proof.
  assert (Hreach : dp_reaches null_space_52 test_hmm [0; 0]%Z)
    by (eexists; vm_compute; reflexivity).
  split; [reflexivity|]. split; [exact Hreach|].
  apply (viterbi_marble_out_of_range null_space_52 test_hmm [0; 0]%Z 2%Z [0%Z]).
  - reflexivity.
  - vm_compute. lia.
  - left. vm_compute. discriminate.
  - exact Hreach.
Defined.

Lemma steady_state_dimension_zero_witness :
  steady_state_probabilities (fun _ => basis 1 0 []) hmm_half = Ok [].
Proof.
  apply (steady_state_dimension_zero (fun _ => basis 1 0 []) hmm_half).
  exact hmm_half_basis.
Defined.

Lemma steady_state_dimension_one_witness :
  let v := [Q2Qc 5; Q2Qc 2] in
  let w := map (fun x => (x / fsum v)%Qc) v in
  steady_state_probabilities null_space_52 test_hmm = Ok w /\
  (fsum v <> 0%Qc -> fsum w = 1%Qc) /\
  (Forall (fun x => (0 <= x)%Qc) v \/ Forall (fun x => (x <= 0)%Qc) v ->
   fsum v <> 0%Qc /\ Forall (fun x => (0 <= x)%Qc) w).
Proof.
  apply (steady_state_dimension_one null_space_52 test_hmm).
  exact (basis_of_generator _ _ test_hmm_generator).
Defined.

Lemma steady_state_non_unique_witness :
  steady_state_probabilities (fun _ => basis 2 2 [1#1; 0#1; 0#1; 1#1])
    hmm_identity =
  Raise (NonUniqueStationary (basis 2 2 [1#1; 0#1; 0#1; 1#1])).
Proof.
  apply (proj2 (proj2 (steady_state_non_unique
                         (fun _ => basis 2 2 [1#1; 0#1; 0#1; 1#1])))
           2 2 (sampling_probabilities hmm_identity)).
  - apply le_n.
  - exact hmm_identity_basis.
Defined.

Lemma two_state_example_witness :
  validated test_hmm /\
  steady_state_probabilities null_space_52 test_hmm =
    Ok [Q2Qc (5 # 7); Q2Qc (2 # 7)] /\
  viterbi null_space_52 test_hmm [0; 0; 1; 0]%Z = Ok [0; 0; 0; 0].
Proof.
  apply (two_state_example null_space_52 1).
  exact (basis_of_generator _ _ test_hmm_generator).
Defined.

Lemma viterbi_negative_marble_witness :
  viterbi null_space_52 test_hmm [0; -1; -2; 0]%Z = viterbi null_space_52 test_hmm [0; 1; 0; 0]%Z.
Proof.
  apply (viterbi_negative_marble null_space_52 test_hmm).
  - reflexivity.
  - apply Forall2_cons; [left; reflexivity|].
    apply Forall2_cons;
      [right; split; [vm_compute; split; discriminate|reflexivity]|].
    apply Forall2_cons;
      [right; split; [vm_compute; split; discriminate|reflexivity]|].
    apply Forall2_cons; [left; reflexivity|].
    apply Forall2_nil.
Defined.

Lemma construction_succeeds_iff_witness :
  exists hmm,
    new_hmm (transition_matrix test_hmm) (sampling_probabilities test_hmm)
    = Ok hmm.
Proof.
  apply (proj2 (proj1 construction_succeeds_iff
                  (transition_matrix test_hmm)
                  (sampling_probabilities test_hmm))).
  repeat split; try reflexivity;
    repeat constructor; vm_compute; discriminate.
Defined.

End Witnesses.

(** * Further properties of the decoder *)

Section Decoder.

Context {F : Type} `{SF : Scalar F}.
Variable null_space : ndarray F -> ndarray F.

Lemma marble_in_range_column (m : nat) (v : Z) :
  marble_in_range m v -> exists k, k < m /\ same_column m v (Z.of_nat k).
Proof.
  unfold marble_in_range, same_column. intros Hv.
  destruct (Z_lt_le_dec v 0) as [Hneg|Hpos].
  - exists (Z.to_nat (Z.of_nat m + v)). split; [lia|]. right. split; lia.
  - exists (Z.to_nat v). split; [lia|]. left. lia.
Qed.

(** One bag of one step, on a probability vector with one entry per
    state. *)
Lemma step_bag_scan (hmm : HiddenMarkovModel) (n m : nat)
  (probs : list F) (k bag : nat) :
  shape (transition_matrix hmm) = [n; n] ->
  shape (sampling_probabilities hmm) = [n; m] ->
  length probs = n -> k < m -> bag < n ->
  step_bag hmm probs (Z.of_nat k) bag =
  let r := scan_pair
             (map (fun p => fmul (nth p probs f0)
                                 (entry (transition_matrix hmm) p bag))
                  (seq 0 n)) 0 f0 0 in
  Ok (fmul (fst r) (entry (sampling_probabilities hmm) bag k), snd r).
Proof.
  intros Ht He Hlen Hk Hbag. unfold step_bag.
  rewrite (best_parent_scan hmm n bag probs Ht Hbag probs 0 f0 0)
    by (try reflexivity; lia).
  rewrite Hlen. cbn [bind]. destruct (scan_pair _ 0 f0 0) as [mx mlp].
  now rewrite (getitem2_entry _ n m bag k He Hbag Hk).
Qed.

Lemma step_ok (hmm : HiddenMarkovModel) (n m : nat) (probs : list F) (v : Z) :
  shape (transition_matrix hmm) = [n; n] ->
  shape (sampling_probabilities hmm) = [n; m] ->
  length probs = n -> marble_in_range m v ->
  exists new_probs parents,
    step hmm n probs v = Ok (new_probs, parents) /\
    length new_probs = n /\ length parents = n /\
    Forall (fun bag => bag < n) parents.
Proof.
  intros Ht He Hlen Hv.
  destruct (marble_in_range_column m v Hv) as (k & Hk & Hcol).
  rewrite (step_same_column hmm n probs n m v (Z.of_nat k) He Hcol).
  destruct (step hmm n probs (Z.of_nat k)) as [[np parents]|e] eqn:Hstep.
  - exists np, parents. split; [reflexivity|].
    destruct (step_in_range hmm n [n] probs _ np parents Ht Hstep) as [H1 H2].
    repeat split; try assumption.
    unfold step in Hstep.
    destruct (mapM _ _) as [r|e] eqn:Hr; [|discriminate].
    injection Hstep as _ <-.
    destruct (mapM_Forall _ (fun _ => True) _ r Hr) as [_ Hl]; [trivial|].
    now rewrite length_map, Hl, length_seq.
  - exfalso. unfold step in Hstep.
    rewrite (mapM_ok _
               (fun bag =>
                  let r := scan_pair
                             (map (fun p =>
                                     fmul (nth p probs f0)
                                          (entry (transition_matrix hmm) p bag))
                                  (seq 0 n)) 0 f0 0 in
                  (fmul (fst r) (entry (sampling_probabilities hmm) bag k),
                   snd r))) in Hstep; [discriminate|].
    intros bag Hbag. apply in_seq in Hbag.
    apply (step_bag_scan hmm n m); auto; lia.
Qed.

Lemma run_steps_ok (hmm : HiddenMarkovModel) (n m : nat) (marbles : list Z) :
  shape (transition_matrix hmm) = [n; n] ->
  shape (sampling_probabilities hmm) = [n; m] ->
  Forall (marble_in_range m) marbles ->
  forall probs parents,
    length probs = n -> parents_ok n parents ->
    exists probs' parents',
      run_steps hmm n probs parents marbles = Ok (probs', parents') /\
      length probs' = n /\ parents_ok n parents'.
Proof.
  intros Ht He Hm. induction Hm as [|v rest Hv _ IH]; intros probs parents Hlen Hp.
  - exists probs, parents. now repeat split.
  - cbn [run_steps].
    destruct (step_ok hmm n m probs v Ht He Hlen Hv)
      as (np & pa & Hstep & Hnp & Hpa & Hrange).
    rewrite Hstep. cbn [bind]. apply IH; [assumption|].
    apply Forall_app. split; [assumption|]. constructor; [now split|constructor].
Qed.

Lemma backtrace_ok (n : nat) (rev_parents : list (list nat)) :
  parents_ok n rev_parents ->
  forall last rev_path, last < n ->
    exists path, backtrace (F:=F) rev_parents last rev_path = Ok path.
Proof.
  induction 1 as [|pa rest [Hlen Hpa] _ IH]; intros last rev_path Hlast;
    cbn [backtrace].
  - now exists rev_path.
  - destruct (nth_error pa last) as [parent|] eqn:Hp.
    + apply IH. apply nth_error_In in Hp. rewrite Forall_forall in Hpa. auto.
    + apply nth_error_None in Hp. lia.
Qed.

Lemma initial_ok (hmm : HiddenMarkovModel) (n m : nat) (v : Z) :
  shape (transition_matrix hmm) = [n; n] ->
  shape (sampling_probabilities hmm) = [n; m] ->
  null_space_basis (kernel_matrix hmm) (null_space (kernel_matrix hmm)) 1 ->
  marble_in_range m v ->
  exists probs,
    initial_probabilities null_space hmm v = Ok probs /\ length probs = n.
Proof.
  intros Ht He Hb Hv. unfold initial_probabilities.
  rewrite (steady_state_of_basis null_space hmm 1 Hb). cbn [Nat.ltb Nat.leb bind].
  destruct Hb as [Hshape Hwf _ _ _]. unfold wf in Hwf.
  rewrite Hshape, (kernel_matrix_ncols hmm n Ht) in Hwf.
  cbn [prod_shape fold_right] in Hwf.
  destruct (marble_in_range_column m v Hv) as (k & Hk & Hcol).
  rewrite (getitem_same_index (transpose (sampling_probabilities hmm)) m [n]
             v (Z.of_nat k))
    by eauto using transpose_shape2, py_index_same_column.
  rewrite (getitem_transpose _ n m k He Hk). cbn [bind]. unfold flatten.
  cbn [data].
  rewrite broadcast_mul_same_length
    by (rewrite !length_map, length_seq; lia).
  eexists. split; [reflexivity|].
  rewrite map2_length; rewrite !length_map, ?length_seq; lia.
Qed.

(** X1.  On a validated model with at least one state, one emission
    row per state and a one-dimensional null space, [viterbi] returns a
    path for every non-empty sequence of marbles that index emission
    columns (negative indices included): none of its errors is
    raised. *)
Theorem viterbi_succeeds (hmm : HiddenMarkovModel) (sequence : list Z) :
  validated hmm ->
  1 <= len (transition_matrix hmm) ->
  len (sampling_probabilities hmm) = len (transition_matrix hmm) ->
  null_space_basis (kernel_matrix hmm) (null_space (kernel_matrix hmm)) 1 ->
  sequence <> [] ->
  Forall (marble_in_range (ncols (sampling_probabilities hmm))) sequence ->
  exists path, viterbi null_space hmm sequence = Ok path.
Proof.
  intros Hval Hn Hrows Hb Hne Hseq.
  destruct (validated_shapes hmm Hval) as (n & n' & m & Ht & He).
  unfold len in Hn, Hrows. rewrite Ht in Hn, Hrows. rewrite He in Hrows.
  cbn [hd] in Hn, Hrows. subst n'.
  unfold ncols in Hseq. rewrite He in Hseq. cbn [nth] in Hseq.
  destruct sequence as [|first_marble rest]; [contradiction|].
  pose proof (Forall_inv Hseq) as Hfirst.
  pose proof (Forall_inv_tail Hseq) as Hrest.
  cbn [viterbi]. unfold forward, len. rewrite Ht. cbn [hd].
  destruct (initial_ok hmm n m first_marble Ht He Hb Hfirst)
    as (probs0 & -> & Hlen0). cbn [bind].
  destruct (run_steps_ok hmm n m rest Ht He Hrest probs0 [] Hlen0)
    as (probs & parents & -> & Hlen & Hpar); [constructor|]. cbn [bind].
  destruct probs as [|x probs]; [cbn [length] in Hlen; lia|].
  cbn [argmax bind].
  pose proof (argmax_from_lt probs 0 x 1) as Hend.
  cbn [length] in Hlen.
  destruct (backtrace_ok n (rev parents)) with
    (last := argmax_from 0 x 1 probs)
    (rev_path := [argmax_from 0 x 1 probs]) as [rev_path ->].
  - apply Forall_rev. exact Hpar.
  - lia.
  - cbn [bind]. now eexists.
Qed.

(** X2.  The forward pass is incremental.  A failure on a prefix of the
    marbles is the failure on every extension of it; and when the
    longer run succeeds, the backpointers recorded for the prefix are
    the first backpointers of the longer run. *)
Theorem forward_prefix (hmm : HiddenMarkovModel) (first_marble : Z)
  (pre post : list Z) :
  (forall e, forward null_space hmm first_marble pre = Raise e ->
             forward null_space hmm first_marble (pre ++ post) = Raise e) /\
  (forall probs parents probs' parents',
      forward null_space hmm first_marble pre = Ok (probs, parents) ->
      forward null_space hmm first_marble (pre ++ post)
        = Ok (probs', parents') ->
      run_steps hmm (len (transition_matrix hmm)) probs parents post
        = Ok (probs', parents') /\
      firstn (length pre) parents' = parents).
Proof.
  unfold forward.
  destruct (initial_probabilities null_space hmm first_marble)
    as [probs0|e0]; cbn [bind].
  - rewrite run_steps_app. split.
    + intros e ->. reflexivity.
    + intros probs parents probs' parents' Hpre. rewrite Hpre. cbn [bind].
      intros Hpost. split; [exact Hpost|].
      pose proof (run_steps_parents_length _ _ _ _ _ _ _ Hpre) as Hl.
      cbn [length] in Hl.
      assert (Hext : forall marbles pr pa pr' pa',
                 run_steps hmm (len (transition_matrix hmm)) pr pa marbles
                   = Ok (pr', pa') ->
                 firstn (length pa) pa' = pa).
      { induction marbles as [|v marbles IH]; intros pr pa pr' pa';
          cbn [run_steps].
        - intros [= _ <-]. apply firstn_all.
        - destruct (step _ _ _ _) as [[np npa]|e]; [cbn [bind]|discriminate].
          intros H. apply IH in H. rewrite length_app in H.
          apply (f_equal (firstn (length pa))) in H.
          rewrite firstn_firstn in H.
          replace (Nat.min (length pa) (length pa + length [npa]))
            with (length pa) in H by lia.
          rewrite H, firstn_app, Nat.sub_diag, firstn_all. cbn [firstn].
          apply app_nil_r. }
      apply Hext in Hpost. cbn [Nat.add] in Hl. now rewrite <- Hl.
  - split; [now intros e H|discriminate].
Qed.

(** *** The returned path as a trace of the backpointers *)








End Decoder.

(** * The returned path is a most likely one *)

Section Optimality.

Local Open Scope Qc_scope.

Variable hmm : HiddenMarkovModel (F:=Qc).
Variables n m : nat.

Hypothesis transition_shape : shape (transition_matrix hmm) = [n; n].
Hypothesis emission_shape : shape (sampling_probabilities hmm) = [n; m].
Hypothesis transition_nonneg : entrywise_nonneg (transition_matrix hmm).
Hypothesis emission_nonneg : entrywise_nonneg (sampling_probabilities hmm).












End Optimality.



(** * The steady state is stationary *)

Section Stationary.

Local Open Scope Qc_scope.

Lemma fsum_nil : fsum (F:=Qc) [] = 0.
Proof. reflexivity. Qed.

Lemma fsum_map_minus {A} (a b : A -> Qc) (l : list A) :
  fsum (map (fun i => a i - b i) l) = fsum (map a l) - fsum (map b l).
Proof.
  induction l as [|x l IH]; cbn [map].
  - rewrite fsum_nil. ring.
  - rewrite !fsum_cons, IH. ring.
Qed.

Lemma fsum_map_div {A} (a : A -> Qc) (s : Qc) (l : list A) :
  fsum (map (fun i => a i / s) l) = fsum (map a l) / s.
Proof.
  induction l as [|x l IH]; cbn [map].
  - rewrite fsum_nil. unfold Qcdiv. ring.
  - rewrite !fsum_cons, IH. unfold Qcdiv. ring.
Qed.

Lemma fsum_pick_zero (j : nat) (f : nat -> Qc) (len : nat) :
  forall s, (j < s)%nat ->
    fsum (map (fun i => (if (i =? j)%nat then 1 else 0) * f i) (seq s len)) = 0.
Proof.
  induction len as [|len IH]; intros s Hs; [reflexivity|].
  cbn [seq map]. rewrite fsum_cons, IH by lia.
  replace (s =? j)%nat with false by (symmetry; apply Nat.eqb_neq; lia).
  ring.
Qed.

Lemma fsum_pick (j : nat) (f : nat -> Qc) (len : nat) :
  forall s, (s <= j < s + len)%nat ->
    fsum (map (fun i => (if (i =? j)%nat then 1 else 0) * f i) (seq s len))
    = f j.
Proof.
  induction len as [|len IH]; intros s Hs; [lia|].
  cbn [seq map]. rewrite fsum_cons.
  destruct (s =? j)%nat eqn:Hsj.
  - apply Nat.eqb_eq in Hsj. subst s. rewrite fsum_pick_zero by lia. ring.
  - apply Nat.eqb_neq in Hsj. rewrite IH by lia. ring.
Qed.

Lemma nth_map2_fsub (a : list Qc) :
  forall b k, length a = length b ->
    nth k (map2 fsub a b) 0 = nth k a 0 - nth k b 0.
Proof.
  induction a as [|x a IH]; intros [|y b] k Hl; try discriminate.
  - destruct k; cbn; ring.
  - destruct k; cbn [map2 nth]; [reflexivity|]. apply IH.
    cbn [length] in Hl. lia.
Qed.

Lemma nth_flat_map_chunk (g : nat -> list Qc) (r c i j : nat) :
  (forall k, length (g k) = r) -> (i < c)%nat -> (j < r)%nat ->
  nth (i * r + j) (flat_map g (seq 0 c)) 0 = nth j (g i) 0.
Proof.
  intros Hg Hi Hj.
  pose proof (chunk_flat_map g r Hg c i 0 Hi) as H. cbn [Nat.add] in H.
  rewrite <- H. now rewrite nth_firstn_lt, nth_skipn_add.
Qed.

Lemma identity_entry (n i j : nat) :
  (i < n)%nat -> (j < n)%nat ->
  nth (i * n + j) (data (identity (F:=Qc) n)) 0
  = if (i =? j)%nat then 1 else 0.
Proof.
  intros Hi Hj. unfold identity. cbn [data].
  rewrite (nth_flat_map_chunk
             (fun i => map (fun j => if (i =? j)%nat then f1 else f0) (seq 0 n))
             n n i j)
    by (try assumption; intros; now rewrite length_map, length_seq).
  now rewrite (nth_map_seq _ j n Hj).
Qed.

Lemma identity_data_length (n : nat) :
  length (data (identity (F:=Qc) n)) = (n * n)%nat.
Proof.
  unfold identity. cbn [data].
  rewrite flat_map_constant_length with (c := n);
    [now rewrite length_seq|].
  intros; now rewrite length_map, length_seq.
Qed.

Lemma map2_seq_left (u : list Qc) (g : nat -> Qc) :
  forall s,
    map2 fmul (map g (seq s (length u))) u =
    map (fun i => g i * nth (i - s) u 0) (seq s (length u)).
Proof.
  induction u as [|x u IH]; intros s; [reflexivity|].
  cbn [length seq map map2]. rewrite Nat.sub_diag. cbn [nth]. f_equal.
  rewrite IH. apply map_ext_in. intros i Hi. apply in_seq in Hi.
  replace (i - s)%nat with (S (i - S s)) by lia. reflexivity.
Qed.

(** What the rows of the kernel matrix say of a vector they
    annihilate: it is a left eigenvector for eigenvalue 1. *)
Lemma null_space_left_eigenvector (hmm : HiddenMarkovModel) (n : nat)
  (v : list Qc) :
  shape (transition_matrix hmm) = [n; n] ->
  wf (transition_matrix hmm) ->
  in_null_space (kernel_matrix hmm) v ->
  length v = n /\
  forall j, (j < n)%nat ->
    fsum (map (fun i => nth i v 0 * entry (transition_matrix hmm) i j)
              (seq 0 n))
    = nth j v 0.
Proof.
  intros Hs Hwf [Hlen Hz].
  rewrite (kernel_matrix_ncols hmm n Hs) in Hlen. split; [exact Hlen|].
  intros j Hj. unfold mat_vec, rows, kernel_matrix, transpose, array_sub in Hz.
  cbn [shape data] in Hz. rewrite Hs in Hz. cbn [shape data] in Hz.
  rewrite Forall_map, Forall_map in Hz. rewrite Forall_forall in Hz.
  specialize (Hz j ltac:(apply in_seq; lia)). cbv beta in Hz.
  rewrite (chunk_flat_map
             (fun j => map (fun i =>
                              nth (i * n + j)
                                  (map2 fsub (data (transition_matrix hmm))
                                        (data (identity
                                                 (len (transition_matrix hmm)))))
                                  f0) (seq 0 n)))
    in Hz by (try assumption; intros; now rewrite length_map, length_seq).
  cbn [Nat.add] in Hz. unfold dot in Hz.
  rewrite <- Hlen in Hz at 1. rewrite map2_seq_left in Hz. rewrite Hlen in Hz.
  unfold wf in Hwf. rewrite Hs in Hwf. cbn [prod_shape fold_right] in Hwf.
  rewrite Nat.mul_1_r in Hwf.
  replace (len (transition_matrix hmm)) with n in Hz
    by (unfold len; now rewrite Hs).
  rewrite (map_ext_in _
             (fun i => entry (transition_matrix hmm) i j * nth i v 0
                       - (if (i =? j)%nat then 1 else 0) * nth i v 0)) in Hz.
  - rewrite (fsum_map_minus
               (fun i => entry (transition_matrix hmm) i j * nth i v 0)
               (fun i => (if (i =? j)%nat then 1 else 0) * nth i v 0)) in Hz.
    rewrite (fsum_pick j (fun i => nth i v 0) n 0%nat) in Hz by lia.
    rewrite (map_ext _ (fun i => entry (transition_matrix hmm) i j * nth i v 0))
      by (intros; ring).
    qc_ops.
    match type of Hz with ?a - ?b = _ =>
      replace a with (a - b + b) by ring; rewrite Hz; ring end.
  - intros i Hi. apply in_seq in Hi. rewrite Nat.sub_0_r.
    rewrite nth_map2_fsub by (rewrite identity_data_length; lia).
    rewrite identity_entry by lia.
    unfold entry, ncols. rewrite Hs. cbn [nth]. qc_ops. ring.
Qed.

(** X4.  The vector [steady_state_probabilities] returns is stationary:
    for a validated model whose null space has dimension one, with a
    basis vector whose entries do not sum to zero, the returned [w]
    satisfies [w T = w], the equation of the method's docstring. *)
Theorem steady_state_is_stationary (null_space : ndarray Qc -> ndarray Qc)
  (hmm : HiddenMarkovModel) :
  validated hmm ->
  wf (transition_matrix hmm) ->
  null_space_basis (kernel_matrix hmm) (null_space (kernel_matrix hmm)) 1 ->
  fsum (flatten (null_space (kernel_matrix hmm))) <> 0 ->
  exists w,
    steady_state_probabilities null_space hmm = Ok w /\
    vec_mat w (transition_matrix hmm) = w.
Proof.
  intros Hval Hwf Hb _.
  destruct (validated_shapes hmm Hval) as (n & n' & m & Ht & He).
  rewrite (steady_state_of_basis null_space hmm 1 Hb). cbn [Nat.ltb Nat.leb].
  cbv zeta. eexists. split; [reflexivity|].
  destruct (basis_one_column _ _ Hb) as (_ & _ & Hin & _).
  destruct (null_space_left_eigenvector hmm n _ Ht Hwf Hin) as [Hlen Heig].
  set (v := data (null_space (kernel_matrix hmm))) in *.
  set (s := fsum v).
  unfold vec_mat, len, ncols. rewrite Ht. cbn [hd nth].
  assert (Hnth : forall i, nth i (map (fun x => fdiv x s) v) f0 = nth i v 0 / s).
  { intros i.
    transitivity (nth i (map (fun x => fdiv x s) v) (fdiv 0 s));
      [|exact (map_nth (fun x => fdiv x s) v 0 i)].
    f_equal. qc_ops. unfold Qcdiv. ring. }
  rewrite (map_ext_in _ (fun j => nth j (map (fun x => fdiv x s) v) f0)).
  - rewrite <- (length_map (fun x => fdiv x s) v) in Hlen. rewrite <- Hlen.
    apply map_nth_seq.
  - intros j Hj. apply in_seq in Hj.
    rewrite (map_ext _ (fun i => nth i v 0
                                 * entry (transition_matrix hmm) i j / s)).
    + rewrite (fsum_map_div
                 (fun i => nth i v 0 * entry (transition_matrix hmm) i j)).
      rewrite Heig by lia. now rewrite Hnth.
    + intros i. rewrite Hnth. qc_ops. unfold Qcdiv. ring.
Qed.

End Stationary.

(** * The choice of basis does not matter *)

Section BasisChoice.

Local Open Scope Qc_scope.

Lemma fsum_scale (c : Qc) (v : list Qc) : fsum (scale c v) = c * fsum v.
Proof.
  unfold scale. induction v as [|x v IH]; cbn [map].
  - rewrite fsum_nil. ring.
  - rewrite !fsum_cons, IH. qc_ops. ring.
Qed.

(** X5.  [steady_state_probabilities], and with it [viterbi], does not
    depend on which basis vector of a one-dimensional null space
    [null_space] returns (its sign, its length), provided its entries
    do not sum to zero. *)
Theorem steady_state_basis_independent
  (null_space null_space' : ndarray Qc -> ndarray Qc)
  (hmm : HiddenMarkovModel) :
  null_space_basis (kernel_matrix hmm) (null_space (kernel_matrix hmm)) 1 ->
  null_space_basis (kernel_matrix hmm) (null_space' (kernel_matrix hmm)) 1 ->
  fsum (flatten (null_space (kernel_matrix hmm))) <> 0 ->
  steady_state_probabilities null_space hmm =
  steady_state_probabilities null_space' hmm /\
  forall sequence,
    viterbi null_space hmm sequence = viterbi null_space' hmm sequence.
Proof.
  intros Hb Hb' Hs.
  assert (Heq : steady_state_probabilities null_space hmm =
                steady_state_probabilities null_space' hmm).
  { rewrite (steady_state_of_basis null_space hmm 1 Hb).
    rewrite (steady_state_of_basis null_space' hmm 1 Hb').
    cbn [Nat.ltb Nat.leb]. cbv zeta. unfold flatten in Hs.
    destruct (basis_one_column _ _ Hb) as (Hlen & Hcols & _ & _).
    destruct (basis_one_column _ _ Hb') as (_ & _ & Hin' & Hnz').
    destruct (basis_spans _ _ _ Hb _ Hin') as (cs & Hcs & Hcomb).
    destruct cs as [|c [|? ?]]; try discriminate.
    rewrite Hcols, lin_comb_cons in Hcomb.
    cbn [lin_comb combine fold_right] in Hcomb.
    rewrite <- Hlen, map2_scale_zero in Hcomb.
    set (v := data (null_space (kernel_matrix hmm))) in *.
    rewrite Hcomb in *.
    assert (Hc : c <> 0).
    { intros ->. apply Hnz'. now rewrite scale_zero, Hlen. }
    rewrite fsum_scale. unfold scale. rewrite map_map. f_equal.
    apply map_ext. intros x. qc_ops. field. now split. }
  split; [exact Heq|]. intros sequence. now apply viterbi_steady_ext.
Qed.

End BasisChoice.

(** * Which error the constructor raises *)

Section ConstructionErrors.

Local Open Scope Qc_scope.

Lemma existsb_true_of_not {A} (f : A -> bool) (P : A -> Prop) (l : list A) :
  (forall a, f a = false <-> P a) -> ~ Forall P l -> existsb f l = true.
Proof.
  intros Hf Hn. apply not_false_iff_true. intros E. apply Hn.
  now apply (existsb_false f P l Hf).
Qed.

Lemma entry_check (a : ndarray Qc) :
  ~ entrywise_nonneg a -> existsb (fun e => fltb e f0) (flatten a) = true.
Proof.
  apply existsb_true_of_not. intros e. apply fltb_false.
Qed.

Lemma row_check (a : ndarray Qc) :
  ~ row_sums_at_most (1 + ftol) a ->
  existsb (fun r => fgtb (fsub r f1) ftol) (sum_axis1 a) = true.
Proof.
  intros H. apply (existsb_true_of_not _ (fun x => x <= 1 + ftol)).
  - intros r. apply row_sum_check.
  - unfold sum_axis1. now rewrite Forall_map.
Qed.

Lemma entry_pass (a : ndarray Qc) :
  entrywise_nonneg a -> existsb (fun e => fltb e f0) (flatten a) = false.
Proof.
  apply (existsb_false (fun e => fltb e f0) (fun x => 0 <= x)).
  intros e. apply fltb_false.
Qed.

(** X6.  The constructor reports the first check that fails, in the
    order: transition matrix two-dimensional, square, without negative
    entry, row sums within tolerance; then emission matrix
    two-dimensional, without negative entry, row sums within tolerance.
    Each failure is the ValueError with the message of that check. *)
Theorem construction_error_report (t s : ndarray Qc) :
  (~ two_dimensional t ->
   new_hmm t s = Raise (ValueError "Matrix is not two-dimensions!")) /\
  (two_dimensional t -> ~ square t ->
   new_hmm t s = Raise (ValueError "Matrix is not square!")) /\
  (two_dimensional t -> square t -> ~ entrywise_nonneg t ->
   new_hmm t s = Raise (ValueError "Rows include negative probabilities!")) /\
  (two_dimensional t -> square t -> entrywise_nonneg t ->
   ~ row_sums_at_most (1 + ftol) t ->
   new_hmm t s = Raise (ValueError "Matrix is not stochastic!")) /\
  (valid_tranisition_matrix (mk_hmm t s) t = Ok tt ->
   ~ two_dimensional s ->
   new_hmm t s =
   Raise (ValueError "Does not provide a distribution for each state!")) /\
  (valid_tranisition_matrix (mk_hmm t s) t = Ok tt ->
   two_dimensional s -> ~ entrywise_nonneg s ->
   new_hmm t s =
   Raise (ValueError
            "Distributions on marbles include negative probabilities!")) /\
  (valid_tranisition_matrix (mk_hmm t s) t = Ok tt ->
   two_dimensional s -> entrywise_nonneg s ->
   ~ row_sums_at_most (1 + ftol) s ->
   new_hmm t s = Raise (ValueError "Not a valid distribution!")).
Proof.
  unfold new_hmm, two_dimensional, square.
  repeat split.
  - intros H. unfold valid_tranisition_matrix.
    apply Nat.eqb_neq in H. now rewrite H.
  - intros H2 Hsq. unfold valid_tranisition_matrix.
    apply Nat.eqb_eq in H2. apply Nat.eqb_neq in Hsq. now rewrite H2, Hsq.
  - intros H2 Hsq Hneg. unfold valid_tranisition_matrix.
    apply Nat.eqb_eq in H2, Hsq. now rewrite H2, Hsq, (entry_check t Hneg).
  - intros H2 Hsq Hpos Hrow. unfold valid_tranisition_matrix.
    apply Nat.eqb_eq in H2, Hsq.
    now rewrite H2, Hsq, (entry_pass t Hpos), (row_check t Hrow).
  - intros Ht H2. rewrite Ht. cbn [bind].
    apply valid_tranisition_matrix_iff in Ht. destruct Ht as [Ht2 _].
    unfold valid_sampling_probabilities, two_dimensional in *.
    cbn [transition_matrix]. rewrite Ht2.
    replace (2 =? length (shape s))%nat with false; [reflexivity|].
    symmetry. apply Nat.eqb_neq. congruence.
  - intros Ht H2 Hneg. rewrite Ht. cbn [bind].
    apply valid_tranisition_matrix_iff in Ht. destruct Ht as [Ht2 _].
    unfold valid_sampling_probabilities, two_dimensional in *.
    cbn [transition_matrix]. rewrite Ht2, H2, (entry_check s Hneg).
    reflexivity.
  - intros Ht H2 Hpos Hrow. rewrite Ht. cbn [bind].
    apply valid_tranisition_matrix_iff in Ht. destruct Ht as [Ht2 _].
    unfold valid_sampling_probabilities, two_dimensional in *.
    cbn [transition_matrix].
    rewrite Ht2, H2, (entry_pass s Hpos), (row_check s Hrow). reflexivity.
Qed.

End ConstructionErrors.

(** * The command *)

Section Command.

Local Open Scope Qc_scope.


End Command.

(** * Decoding when no steady state exists *)

Section NoSteadyState.

Context {F : Type} `{SF : Scalar F}.
Variable null_space : ndarray F -> ndarray F.

(** X10.  A validated model whose null space has dimension 0 (a
    sub-stochastic transition matrix) cannot be decoded: with one
    emission row per state and a first marble that indexes an emission
    column, [viterbi] raises a ValueError.  For two states or more it
    is numpy's, from multiplying the empty steady state with the
    emission column; for one state and one marble it is [np.argmax]'s,
    on an empty probability vector. *)
Theorem viterbi_without_steady_state (hmm : HiddenMarkovModel)
  (first_marble : Z) (rest : list Z) :
  validated hmm ->
  len (sampling_probabilities hmm) = len (transition_matrix hmm) ->
  null_space_basis (kernel_matrix hmm) (null_space (kernel_matrix hmm)) 0 ->
  marble_in_range (ncols (sampling_probabilities hmm)) first_marble ->
  (2 <= len (transition_matrix hmm) ->
   exists msg,
     viterbi null_space hmm (first_marble :: rest) = Raise (ValueError msg)) /\
  (len (transition_matrix hmm) = 1 ->
   exists msg,
     viterbi null_space hmm [first_marble] = Raise (ValueError msg)).
Proof.
  intros Hval Hrows Hb Hv.
  destruct (validated_shapes hmm Hval) as (n & n' & m & Ht & He).
  unfold len in *. rewrite Ht in *. rewrite He in Hrows. cbn [hd] in *.
  subst n'. unfold ncols in Hv. rewrite He in Hv. cbn [nth] in Hv.
  assert (Hsteady : steady_state_probabilities null_space hmm = Ok []).
  { rewrite (steady_state_of_basis null_space hmm 0 Hb). cbn [Nat.ltb Nat.leb].
    destruct Hb as [Hshape Hwf _ _ _]. unfold wf in Hwf.
    rewrite Hshape in Hwf. cbn [prod_shape fold_right] in Hwf.
    rewrite Nat.mul_0_l, Nat.mul_0_r in Hwf.
    destruct (data (null_space (kernel_matrix hmm)));
      [reflexivity|discriminate]. }
  destruct (marble_in_range_column m first_marble Hv) as (k & Hk & Hcol).
  assert (Hinit : initial_probabilities null_space hmm first_marble =
                  broadcast_mul []
                    (map (fun i => entry (sampling_probabilities hmm) i k)
                         (seq 0 n))).
  { unfold initial_probabilities. rewrite Hsteady. cbn [bind].
    rewrite (getitem_same_index (transpose (sampling_probabilities hmm)) m [n]
               first_marble (Z.of_nat k))
      by eauto using transpose_shape2, py_index_same_column.
    now rewrite (getitem_transpose _ n m k He Hk). }
  split.
  - intros Hn. cbn [viterbi]. unfold forward. rewrite Hinit.
    destruct n as [|[|n]]; try lia. cbn. now eexists.
  - intros ->. cbn [viterbi]. unfold forward. rewrite Hinit. cbn.
    now eexists.
Qed.

End NoSteadyState.

(** * The further properties at concrete inputs *)

Section MoreWitnesses.

Local Open Scope Qc_scope.

Lemma test_hmm_basis :
  null_space_basis (kernel_matrix test_hmm)
    (null_space_52 (kernel_matrix test_hmm)) 1.
Proof. exact (basis_of_generator _ _ test_hmm_generator). Qed.

Lemma test_hmm_generator_opposite :
  generates (kernel_matrix test_hmm) [Q2Qc (-10); Q2Qc (-4)].
Proof.
  split; [split; [reflexivity|]|split].
  - vm_compute. repeat constructor; apply Qc_is_canon; reflexivity.
  - intros H. apply (f_equal (hd f0)), this_eq in H. vm_compute in H.
    discriminate H.
  - intros x [Hlen Hx]. destruct x as [|a [|b [|? ?]]]; try discriminate.
    destruct test_hmm_generator as (_ & _ & Hgen).
    destruct (Hgen [a; b] (conj Hlen Hx)) as [c Hc].
    exists (c * Q2Qc (-1#2)). rewrite Hc. unfold scale. cbn [map].
    f_equal; [|f_equal]; qc2q; ring.
Qed.

Lemma viterbi_succeeds_witness :
  exists path, viterbi null_space_52 test_hmm [0; -1; 1]%Z = Ok path.
Proof.
  apply (viterbi_succeeds null_space_52 test_hmm [0; -1; 1]%Z).
  - reflexivity.
  - vm_compute. lia.
  - reflexivity.
  - exact test_hmm_basis.
  - discriminate.
  - repeat constructor; vm_compute; discriminate.
Defined.

Lemma forward_prefix_witness :
  exists probs parents probs' parents',
    forward null_space_52 test_hmm 0%Z [0%Z] = Ok (probs, parents) /\
    forward null_space_52 test_hmm 0%Z ([0] ++ [1; 0])%Z
      = Ok (probs', parents') /\
    run_steps test_hmm (len (transition_matrix test_hmm)) probs parents
      [1; 0]%Z = Ok (probs', parents') /\
    firstn (length [0%Z]) parents' = parents.
Proof.
  do 4 eexists.
  assert (H1 : forward null_space_52 test_hmm 0%Z [0%Z] = Ok _)
    by (vm_compute; reflexivity).
  assert (H2 : forward null_space_52 test_hmm 0%Z ([0] ++ [1; 0])%Z = Ok _)
    by (vm_compute; reflexivity).
  split; [exact H1|]. split; [exact H2|].
  exact (proj2 (forward_prefix null_space_52 test_hmm 0%Z [0%Z] [1; 0]%Z)
           _ _ _ _ H1 H2).
Defined.


Lemma steady_state_is_stationary_witness :
  exists w,
    steady_state_probabilities null_space_52 test_hmm = Ok w /\
    vec_mat w (transition_matrix test_hmm) = w.
Proof.
  apply (steady_state_is_stationary null_space_52 test_hmm).
  - reflexivity.
  - reflexivity.
  - exact test_hmm_basis.
  - intros H. apply this_eq in H. vm_compute in H. discriminate H.
Defined.

Lemma steady_state_basis_independent_witness :
  steady_state_probabilities null_space_52 test_hmm =
  steady_state_probabilities (fun _ => basis 2 1 [(-10)#1; (-4)#1]) test_hmm /\
  forall sequence,
    viterbi null_space_52 test_hmm sequence =
    viterbi (fun _ => basis 2 1 [(-10)#1; (-4)#1]) test_hmm sequence.
Proof.
  apply (steady_state_basis_independent null_space_52
           (fun _ => basis 2 1 [(-10)#1; (-4)#1]) test_hmm).
  - exact test_hmm_basis.
  - exact (basis_of_generator _ _ test_hmm_generator_opposite).
  - intros H. apply this_eq in H. vm_compute in H. discriminate H.
Defined.

(** The matrix with a negative entry of the repository's tests has two
    rows and three columns: the error is that it is not square. *)
Lemma construction_error_report_witness :
  new_hmm (matrix [[8#10; (-4)#10; 6#10]; [5#10; 4#10; 1#10]])
          (matrix [[4#10; 6#10]; [3#10; 7#10]])
  = Raise (ValueError "Matrix is not square!").
Proof.
  apply (proj1 (proj2 (construction_error_report
                         (matrix [[8#10; (-4)#10; 6#10]; [5#10; 4#10; 1#10]])
                         (matrix [[4#10; 6#10]; [3#10; 7#10]])))).
  - reflexivity.
  - vm_compute. discriminate.
Defined.

Lemma viterbi_length_witness :
  viterbi null_space_52 test_hmm [0; 0; 1; 0]%Z = Ok [0; 0; 0; 0]%nat /\
  length [0; 0; 0; 0]%nat = length [0; 0; 1; 0]%Z.
Proof.
  assert (H : viterbi null_space_52 test_hmm [0; 0; 1; 0]%Z
              = Ok [0; 0; 0; 0]%nat) by (vm_compute; reflexivity).
  split; [exact H|].
  exact (viterbi_length null_space_52 test_hmm _ _ H).
Defined.

Lemma viterbi_in_range_witness :
  viterbi null_space_52 test_hmm [1; 1; 0]%Z = Ok [0; 0; 0]%nat /\
  Forall (fun bag => (bag < len (transition_matrix test_hmm))%nat)
         [0; 0; 0]%nat.
Proof.
  assert (H : viterbi null_space_52 test_hmm [1; 1; 0]%Z = Ok [0; 0; 0]%nat)
    by (vm_compute; reflexivity).
  split; [exact H|].
  apply (viterbi_in_range null_space_52 test_hmm 1 [1; 1; 0]%Z).
  - reflexivity.
  - reflexivity.
  - exact test_hmm_basis.
  - exact H.
Defined.

Lemma viterbi_without_steady_state_witness :
  exists msg,
    viterbi (fun _ => basis 1 0 []) hmm_half [0%Z] = Raise (ValueError msg).
Proof.
  assert (Hval : validated hmm_half) by reflexivity.
  assert (Hin : marble_in_range (ncols (sampling_probabilities hmm_half)) 0%Z)
    by (vm_compute; split; [discriminate|reflexivity]).
  apply (proj2 (viterbi_without_steady_state (fun _ => basis 1 0 []) hmm_half
                  0%Z [] Hval eq_refl hmm_half_basis Hin)).
  reflexivity.
Defined.


End MoreWitnesses.

(** * The command line types *)

Section Matcher.

Lemma star_loop_sound (body : text -> (text -> option text) -> option text)
    (P : text -> Prop) :
  (forall s k e, body s k = Some e ->
     exists s1 s2, s = s1 ++ s2 /\ P s1 /\ k s2 = Some e) ->
  forall r, (forall s, P s -> matches r s) ->
  forall n s k e, star_loop body k n s = Some e ->
    exists s1 s2, s = s1 ++ s2 /\ matches (Star r) s1 /\ k s2 = Some e.
Proof.
  intros Hbody r HP n.
  induction n as [|n IH]; intros s k e H; cbn [star_loop] in H.
  - exists [], s. repeat split; [constructor|assumption].
  - destruct (body s _) as [e'|] eqn:Hb.
    + injection H as ->.
      apply Hbody in Hb. destruct Hb as (s1 & s2 & -> & Hs1 & Hk).
      destruct (length s2 <? length (s1 ++ s2)) eqn:Hlt.
      * apply IH in Hk. destruct Hk as (t1 & t2 & -> & Ht1 & Hk).
        exists (s1 ++ t1), t2. rewrite app_assoc.
        repeat split; [|assumption].
        apply matches_star_more; auto.
        intros ->. apply Nat.ltb_lt in Hlt. cbn in Hlt. lia.
      * apply Nat.ltb_ge in Hlt. rewrite length_app in Hlt.
        destruct s1; [|cbn in Hlt; lia].
        exists [], s2. repeat split; [constructor|assumption].
    + exists [], s. repeat split; [constructor|assumption].
Qed.

(** Whatever the matcher finds is a match of the pattern. *)
Lemma exec_sound (r : regex) :
  forall s k e, exec r s k = Some e ->
    exists s1 s2, s = s1 ++ s2 /\ matches r s1 /\ k s2 = Some e.
Proof.
  induction r as [|c| |r1 IH1 r2 IH2|r1 IH1 r2 IH2|r IH];
    intros s k e H; cbn [exec] in H.
  - exists [], s. repeat split; [constructor|assumption].
  - destruct s as [|a s]; [discriminate|].
    destruct (Ascii.eqb a c) eqn:Hc; [|discriminate].
    apply Ascii.eqb_eq in Hc. subst a.
    exists [c], s. repeat split; [constructor|assumption].
  - destruct s as [|a s]; [discriminate|].
    destruct (is_digit a) eqn:Hd; [|discriminate].
    exists [a], s. repeat split; [now constructor|assumption].
  - apply IH1 in H. destruct H as (s1 & s2 & -> & H1 & H).
    apply IH2 in H. destruct H as (t1 & t2 & -> & H2 & H).
    exists (s1 ++ t1), t2. rewrite app_assoc.
    repeat split; [now constructor|assumption].
  - destruct (exec r1 s k) as [e'|] eqn:H1.
    + injection H as ->. apply IH1 in H1.
      destruct H1 as (s1 & s2 & -> & H1 & Hk).
      exists s1, s2. repeat split; [now apply matches_or_left|assumption].
    + apply IH2 in H. destruct H as (s1 & s2 & -> & H2 & Hk).
      exists s1, s2. repeat split; [now apply matches_or_right|assumption].
  - apply (star_loop_sound (exec r) (matches r) IH r (fun _ H => H)) in H.
    exact H.
Qed.

Lemma star_loop_complete (r : regex) :
  (forall s1 s2 k, matches r s1 -> k s2 <> None ->
     exec r (s1 ++ s2) k <> None) ->
  forall r0 s1, matches r0 s1 -> r0 = Star r ->
  forall s2 k n, k s2 <> None -> length (s1 ++ s2) <= n ->
    star_loop (exec r) k n (s1 ++ s2) <> None.
Proof.
  intros IH r0 s1 Hm.
  induction Hm as [| | | | | |r'|r' p q Hp Hmp _ Hmq IHq]; intros Hr;
    try discriminate; injection Hr as ->; intros s2 k n Hk Hn.
  - cbn [app]. destruct n as [|n]; cbn [star_loop]; [assumption|].
    match goal with |- context [exec r ?s ?k'] => destruct (exec r s k') end;
      [discriminate|assumption].
  - destruct n as [|n].
    + destruct p; [contradiction|cbn in Hn; lia].
    + cbn [star_loop]. rewrite <- app_assoc.
      match goal with |- context [exec r ?s ?k'] =>
        destruct (exec r s k') eqn:Hb end; [discriminate|].
      exfalso. revert Hb. apply IH; [assumption|].
      assert (Hlt : length (q ++ s2) < length (p ++ q ++ s2)).
      { rewrite (length_app p). destruct p; [contradiction|cbn; lia]. }
      apply Nat.ltb_lt in Hlt. rewrite Hlt.
      apply IHq; [reflexivity|assumption|].
      rewrite <- app_assoc, (length_app p) in Hn.
      destruct p; [contradiction|cbn in Hn; lia].
Qed.

(** The matcher finds a match whenever there is one that the rest of the
    pattern accepts. *)
Lemma exec_complete (r : regex) :
  forall s1 s2 k, matches r s1 -> k s2 <> None ->
    exec r (s1 ++ s2) k <> None.
Proof.
  induction r as [|c| |r1 IH1 r2 IH2|r1 IH1 r2 IH2|r IH];
    intros s1 s2 k Hm Hk; cbn [exec].
  - inversion Hm; subst. exact Hk.
  - inversion Hm; subst. cbn. now rewrite Ascii.eqb_refl.
  - inversion Hm as [| |a Ha| | | | |]; subst. cbn. now rewrite Ha.
  - inversion Hm as [| | |? ? t1 t2 H1 H2| | | |]; subst.
    rewrite <- app_assoc. apply IH1; [assumption|]. now apply IH2.
  - inversion Hm; subst.
    + destruct (exec r1 (s1 ++ s2) k) eqn:H1; [discriminate|].
      exfalso. revert H1. now apply IH1.
    + destruct (exec r1 (s1 ++ s2) k); [discriminate|]. now apply IH2.
  - now apply (star_loop_complete r IH (Star r) s1 Hm eq_refl).
Qed.

Lemma fullmatch_matches (r : regex) (s : text) :
  fullmatch r s = true <-> matches r s.
Proof.
  unfold fullmatch. split.
  - destruct (exec r s _) as [e|] eqn:H; [intros _|discriminate].
    apply exec_sound in H. destruct H as (s1 & s2 & -> & Hm & Hk).
    destruct s2; [|discriminate]. now rewrite app_nil_r.
  - intros Hm.
    destruct (exec r s _) eqn:H; [reflexivity|].
    exfalso. revert H. rewrite <- (app_nil_r s).
    now apply exec_complete.
Qed.

End Matcher.

Section Findall.

Lemma exec_found (r : regex) (must_advance : bool) (s rest : text) :
  exec r s (fun rest => if must_advance && (length rest =? length s)
                        then None else Some rest) = Some rest ->
  exists found, s = found ++ rest /\ matches r found /\
    firstn (length s - length rest) s = found /\
    must_advance && (length rest =? length s) = false.
Proof.
  intros H. apply exec_sound in H.
  destruct H as (s1 & s2 & -> & Hm & Hk).
  destruct (must_advance && (length s2 =? length (s1 ++ s2))) eqn:E;
    [discriminate|].
  injection Hk as ->.
  exists s1. repeat split; [assumption| |assumption].
  rewrite length_app, Nat.add_sub.
  now rewrite firstn_app, Nat.sub_diag, firstn_all, app_nil_r.
Qed.

Lemma exec_any (r : regex) (s : text) :
  exec r s (fun rest => if false && (length rest =? length s)
                        then None else Some rest) = exec r s Some.
Proof. reflexivity. Qed.

(** The fuel of [findall_from] is never used up. *)
Lemma findall_from_fuel (r : regex) :
  forall n m (must_advance : bool) (s : text),
    2 * length s + (if must_advance then 1 else 2) <= n ->
    2 * length s + (if must_advance then 1 else 2) <= m ->
    findall_from n r must_advance s = findall_from m r must_advance s.
Proof.
  induction n as [|n IH]; intros m flag s Hn Hm;
    [destruct flag; lia|].
  destruct m as [|m]; [destruct flag; lia|]. cbn [findall_from].
  match goal with |- context [exec r s ?k] =>
    destruct (exec r s k) as [rest|] eqn:He end.
  - destruct (exec_found r flag s rest He) as (found & Hs & _ & _ & Hf).
    f_equal.
    assert (Hl : length s = length found + length rest)
      by (now rewrite Hs, length_app).
    destruct (length rest =? length s) eqn:E.
    + apply Nat.eqb_eq in E. rewrite andb_true_r in Hf. subst flag.
      apply IH; lia.
    + apply Nat.eqb_neq in E. apply IH; destruct flag; lia.
  - destruct s as [|c s]; [reflexivity|].
    apply IH; cbn [length] in *; destruct flag; lia.
Qed.

Lemma findall_nil (r : regex) :
  exec r [] Some = None -> findall r [] = [].
Proof.
  intros H. unfold findall. cbn [length Nat.mul Nat.add findall_from].
  now rewrite exec_any, H.
Qed.

(** No match at the first character: the search moves on by one. *)
Lemma findall_skip (r : regex) (c : ascii) (s : text) :
  exec r (c :: s) Some = None -> findall r (c :: s) = findall r s.
Proof.
  intros H. unfold findall.
  replace (2 * length (c :: s) + 2) with (S (2 * length s + 3))
    by (cbn [length]; lia).
  cbn [findall_from]. rewrite exec_any, H.
  apply findall_from_fuel; lia.
Qed.

(** A match at the start of the string: the search goes on behind it. *)
Lemma findall_found (r : regex) (found rest : text) :
  found <> [] -> exec r (found ++ rest) Some = Some rest ->
  findall r (found ++ rest) = found :: findall r rest.
Proof.
  intros Hne H. unfold findall.
  assert (Hl : length rest < length (found ++ rest)).
  { rewrite length_app. destruct found; [contradiction|cbn; lia]. }
  replace (2 * length (found ++ rest) + 2)
    with (S (2 * length (found ++ rest) + 1)) by lia.
  cbn [findall_from]. rewrite exec_any, H.
  assert (E : (length rest =? length (found ++ rest)) = false)
    by (apply Nat.eqb_neq; lia).
  assert (Hf : firstn (length (found ++ rest) - length rest) (found ++ rest)
               = found).
  { rewrite length_app, Nat.add_sub.
    rewrite firstn_app, Nat.sub_diag, firstn_all. cbn [firstn].
    apply app_nil_r. }
  rewrite E, Hf. apply (f_equal (cons found)).
  apply findall_from_fuel; lia.
Qed.

End Findall.

Section Tokens.

Lemma star_loop_stuck (body : text -> (text -> option text) -> option text)
    (k : text -> option text) (n : nat) (s : text) :
  (forall k', body s k' = None) -> star_loop body k n s = k s.
Proof. intros H. destruct n; cbn [star_loop]; [|rewrite H]; reflexivity. Qed.

Lemma exec_digit_cons (d : ascii) (s : text) (k : text -> option text) :
  exec Digit (d :: s) k = if is_digit d then k s else None.
Proof. reflexivity. Qed.

Lemma exec_char_cons (c d : ascii) (s : text) (k : text -> option text) :
  exec (Char c) (d :: s) k = if Ascii.eqb d c then k s else None.
Proof. reflexivity. Qed.

Lemma exec_seq (r1 r2 : regex) (s : text) (k : text -> option text) :
  exec (Seq r1 r2) s k = exec r1 s (fun s' => exec r2 s' k).
Proof. reflexivity. Qed.

Lemma exec_or (r1 r2 : regex) (s : text) (k : text -> option text) :
  exec (Or r1 r2) s k =
  match exec r1 s k with Some e => Some e | None => exec r2 s k end.
Proof. reflexivity. Qed.

Lemma exec_star (r : regex) (s : text) (k : text -> option text) :
  exec (Star r) s k = star_loop (exec r) k (length s) s.
Proof. reflexivity. Qed.

Lemma exec_empty (s : text) (k : text -> option text) :
  exec Empty s k = k s.
Proof. reflexivity. Qed.

(** A greedy run of digits takes all of them, when the rest of the
    pattern accepts what follows. *)
Lemma star_digit_greedy (k : text -> option text) (e : text) :
  forall ds rest n, all_digits ds -> stops_integer rest ->
    length (ds ++ rest) <= n -> k rest = Some e ->
    star_loop (exec Digit) k n (ds ++ rest) = Some e.
Proof.
  induction ds as [|d ds IH]; intros rest n Hds Hrest Hn Hk.
  - cbn [app]. rewrite star_loop_stuck; [assumption|].
    intros k'. destruct rest as [|c rest]; [reflexivity|].
    cbn in *. now rewrite Hrest.
  - unfold all_digits in Hds. cbn [forallb] in Hds.
    apply andb_true_iff in Hds. destruct Hds as [Hd Hds].
    destruct n as [|n]; [cbn in Hn; lia|].
    cbn [star_loop app]. rewrite exec_digit_cons, Hd.
    assert (Hlt : (length (ds ++ rest) <? length (d :: ds ++ rest)) = true)
      by (apply Nat.ltb_lt; cbn; lia).
    rewrite Hlt, (IH rest n); auto. cbn in Hn. lia.
Qed.

Lemma digit_not_minus (c : ascii) :
  is_digit c = true -> Ascii.eqb c "-" = false.
Proof.
  intros H. destruct (Ascii.eqb c "-") eqn:E; [|reflexivity].
  apply Ascii.eqb_eq in E. subst c. discriminate.
Qed.

Lemma digit_not_point (c : ascii) :
  is_digit c = true -> Ascii.eqb c "." = false.
Proof.
  intros H. destruct (Ascii.eqb c ".") eqn:E; [|reflexivity].
  apply Ascii.eqb_eq in E. subst c. discriminate.
Qed.

Lemma plus_digit_greedy (k : text -> option text) (e : text) (ds rest : text) :
  ds <> [] -> all_digits ds -> stops_integer rest -> k rest = Some e ->
  exec (Plus Digit) (ds ++ rest) k = Some e.
Proof.
  intros Hne Hds Hrest Hk. destruct ds as [|d ds]; [contradiction|].
  unfold all_digits in Hds. cbn [forallb] in Hds.
  apply andb_true_iff in Hds. destruct Hds as [Hd Hds].
  unfold Plus. cbn [app]. rewrite exec_seq, exec_digit_cons, Hd, exec_star.
  now apply star_digit_greedy.
Qed.

(** [INTEGER_PATTERN] at the start of a token takes the whole token. *)
Lemma exec_integer_token (k : text -> option text) (e t rest : text) :
  int_token t -> stops_integer rest -> k rest = Some e ->
  exec INTEGER_PATTERN (t ++ rest) k = Some e.
Proof.
  intros Ht Hrest Hk. unfold INTEGER_PATTERN, Opt.
  rewrite exec_seq, exec_or. destruct Ht as [ds Hne Hds|ds Hne Hds].
  - assert (Hd : exists d ds', ds = d :: ds' /\ is_digit d = true).
    { destruct ds as [|d ds']; [contradiction|]. exists d, ds'.
      unfold all_digits in Hds. cbn in Hds.
      now apply andb_true_iff in Hds. }
    destruct Hd as (d & ds' & Hds' & Hd).
    rewrite Hds' at 1. cbn [app].
    rewrite exec_char_cons, (digit_not_minus d Hd), exec_empty.
    now apply (plus_digit_greedy k e ds rest).
  - cbn [app]. rewrite exec_char_cons, Ascii.eqb_refl.
    now rewrite (plus_digit_greedy k e ds rest).
Qed.

Lemma exec_fraction (fr rest : text) :
  fraction fr -> stops_number rest ->
  exec (Opt (Seq (Char ".") (Star Digit))) (fr ++ rest) Some = Some rest.
Proof.
  intros Hfr Hrest. unfold Opt. rewrite exec_or, exec_seq.
  destruct Hfr as [|fd Hfd].
  - cbn [app]. destruct rest as [|c rest]; [reflexivity|].
    destruct Hrest as [_ Hc]. rewrite exec_char_cons.
    destruct (Ascii.eqb c ".") eqn:E; [|reflexivity].
    apply Ascii.eqb_eq in E. contradiction.
  - cbn [app]. rewrite exec_char_cons, Ascii.eqb_refl, exec_star.
    rewrite (star_digit_greedy Some rest fd rest); auto.
    destruct rest; [exact I|apply Hrest].
Qed.

(** [NUMBER_PATTERN] at the start of a number takes the whole number. *)
Lemma exec_number_token (t fr rest : text) :
  int_token t -> fraction fr -> stops_number rest ->
  exec NUMBER_PATTERN ((t ++ fr) ++ rest) Some = Some rest.
Proof.
  intros Ht Hfr Hrest. rewrite <- app_assoc.
  unfold NUMBER_PATTERN.
  match goal with |- exec (Seq ?a (Seq ?b ?c)) ?s ?k = _ =>
    change (exec (Seq a b) s (fun s' => exec c s' k) = Some rest) end.
  apply (exec_integer_token _ rest t (fr ++ rest) Ht).
  - destruct Hfr as [|fd Hfd]; cbn [app].
    + destruct rest; [exact I|apply Hrest].
    + reflexivity.
  - now apply exec_fraction.
Qed.

(** Neither pattern matches at a character that is no digit and no minus
    sign, nor at the end of the string. *)
Lemma exec_integer_skip (c : ascii) (s : text) (k : text -> option text) :
  is_digit c = false -> c <> "-"%char ->
  exec INTEGER_PATTERN (c :: s) k = None.
Proof.
  intros Hd Hm. unfold INTEGER_PATTERN, Opt, Plus. cbn [exec].
  rewrite Hd. destruct (Ascii.eqb c "-") eqn:E; [|reflexivity].
  apply Ascii.eqb_eq in E. contradiction.
Qed.

Lemma exec_number_skip (c : ascii) (s : text) (k : text -> option text) :
  is_digit c = false -> c <> "-"%char ->
  exec NUMBER_PATTERN (c :: s) k = None.
Proof.
  intros Hd Hm. unfold NUMBER_PATTERN, Opt, Plus. cbn [exec].
  rewrite Hd. destruct (Ascii.eqb c "-") eqn:E; [|reflexivity].
  apply Ascii.eqb_eq in E. contradiction.
Qed.

Lemma exec_integer_end (k : text -> option text) :
  exec INTEGER_PATTERN [] k = None.
Proof. reflexivity. Qed.

Lemma exec_number_end (k : text -> option text) :
  exec NUMBER_PATTERN [] k = None.
Proof. reflexivity. Qed.

End Tokens.

Section Grammar.

Lemma all_digits_cons (d : ascii) (ds : text) :
  all_digits (d :: ds) <-> is_digit d = true /\ all_digits ds.
Proof. unfold all_digits. cbn [forallb]. apply andb_true_iff. Qed.

Lemma matches_star_digits (ds : text) :
  all_digits ds -> matches (Star Digit) ds.
Proof.
  induction ds as [|d ds IH]; intros H; [constructor|].
  apply all_digits_cons in H. destruct H as [Hd Hds].
  change (d :: ds) with ([d] ++ ds).
  apply matches_star_more; [discriminate|now constructor|auto].
Qed.

Lemma matches_plus_digits (ds : text) :
  ds <> [] -> all_digits ds -> matches (Plus Digit) ds.
Proof.
  intros Hne H. destruct ds as [|d ds]; [contradiction|].
  apply all_digits_cons in H. destruct H as [Hd Hds].
  change (d :: ds) with ([d] ++ ds). unfold Plus.
  apply matches_seq; [now constructor|now apply matches_star_digits].
Qed.

Lemma matches_opt_minus_plain : matches (Opt (Char "-")) [].
Proof. apply matches_or_right. constructor. Qed.

Lemma matches_opt_minus_sign : matches (Opt (Char "-")) ["-"%char].
Proof. apply matches_or_left. constructor. Qed.

Lemma matches_integer (t : text) :
  int_token t -> matches INTEGER_PATTERN t.
Proof.
  intros [ds Hne Hds|ds Hne Hds]; unfold INTEGER_PATTERN.
  - change ds with ([] ++ ds).
    apply matches_seq;
      [apply matches_opt_minus_plain|now apply matches_plus_digits].
  - change ("-"%char :: ds) with (["-"%char] ++ ds).
    apply matches_seq;
      [apply matches_opt_minus_sign|now apply matches_plus_digits].
Qed.

Lemma matches_fraction (fr : text) :
  fraction fr -> matches (Opt (Seq (Char ".") (Star Digit))) fr.
Proof.
  intros [|fd Hfd].
  - apply matches_or_right. constructor.
  - apply matches_or_left. change ("."%char :: fd) with (["."%char] ++ fd).
    apply matches_seq; [constructor|now apply matches_star_digits].
Qed.

Lemma matches_number (t fr : text) :
  int_token t -> fraction fr -> matches NUMBER_PATTERN (t ++ fr).
Proof.
  intros [ds Hne Hds|ds Hne Hds] Hfr; unfold NUMBER_PATTERN.
  - change (ds ++ fr) with ([] ++ ds ++ fr).
    apply matches_seq; [apply matches_opt_minus_plain|].
    apply matches_seq;
      [now apply matches_plus_digits|now apply matches_fraction].
  - change (("-"%char :: ds) ++ fr) with (["-"%char] ++ ds ++ fr).
    apply matches_seq; [apply matches_opt_minus_sign|].
    apply matches_seq;
      [now apply matches_plus_digits|now apply matches_fraction].
Qed.

Lemma int_token_nonempty (t : text) : int_token t -> t <> [].
Proof. intros [ds Hne _|ds _ _]; [assumption|discriminate]. Qed.

Lemma matches_with_commas (r : regex) (tokens : list text) :
  Forall (matches r) tokens ->
  matches (Star (Seq r (Char ","))) (with_commas tokens).
Proof.
  induction 1 as [|t tokens Ht _ IH]; [constructor|].
  unfold with_commas. cbn [map concat].
  apply matches_star_more; [|now repeat constructor|exact IH].
  destruct t; discriminate.
Qed.

Lemma comma_join_snoc (tokens : list text) (t : text) :
  comma_join (tokens ++ [t]) = with_commas tokens ++ t.
Proof.
  induction tokens as [|t0 tokens IH]; [reflexivity|].
  unfold with_commas in *. cbn [map concat app].
  rewrite <- !app_assoc. cbn [app]. rewrite <- IH.
  destruct tokens; reflexivity.
Qed.

Lemma comma_join_cons2 (t t' : text) (tokens : list text) :
  comma_join (t :: t' :: tokens) = t ++ ","%char :: comma_join (t' :: tokens).
Proof. reflexivity. Qed.

Lemma nonempty_snoc {A : Type} (l : list A) :
  l <> [] -> exists init last, l = init ++ [last].
Proof.
  intros H. destruct (exists_last H) as (init & last & ->). now exists init, last.
Qed.

(** A comma-separated list in brackets matches the list pattern whose
    elements match [r] and whose last element matches [r']. *)
Lemma matches_bracketed (r r' : regex) (init : list text) (last : text) :
  Forall (matches r) init -> matches r' last ->
  matches (Seq (Char "[") (Seq (Star (Seq r (Char ","))) (Seq r' (Char "]"))))
    (bracketed (with_commas init ++ last)).
Proof.
  intros Hi Hl. unfold bracketed.
  change ("["%char :: (with_commas init ++ last) ++ ["]"%char])
    with (["["%char] ++ (with_commas init ++ last) ++ ["]"%char]).
  apply matches_seq; [constructor|]. rewrite <- app_assoc.
  apply matches_seq; [now apply matches_with_commas|].
  apply matches_seq; [assumption|constructor].
Qed.

(** *** From a match back to the shape of the string *)

Lemma matches_star_inv (r : regex) (r0 : regex) (s : text) :
  matches r0 s -> r0 = Star r ->
  exists pieces, Forall (matches r) pieces /\ s = concat pieces.
Proof.
  induction 1 as [| | | | | |r'|r' p q Hp Hmp _ Hmq IHq]; intros Hr;
    try discriminate; injection Hr as ->.
  - exists []. split; [constructor|reflexivity].
  - destruct (IHq eq_refl) as (pieces & Hall & ->).
    exists (p :: pieces). split; [now constructor|reflexivity].
Qed.

Lemma matches_star_digits_inv (s : text) :
  matches (Star Digit) s -> all_digits s.
Proof.
  intros H.
  destruct (matches_star_inv Digit _ s H eq_refl) as (ps & Hall & ->).
  clear H. induction Hall as [|p ps Hp _ IH]; [reflexivity|].
  inversion Hp; subst. cbn [concat app]. now apply all_digits_cons.
Qed.

Lemma matches_plus_digits_inv (s : text) :
  matches (Plus Digit) s -> s <> [] /\ all_digits s.
Proof.
  unfold Plus. intros H.
  inversion H as [| | |? ? s1 s2 H1 H2| | | |]; subst.
  inversion H1; subst. apply matches_star_digits_inv in H2.
  split; [discriminate|]. now apply all_digits_cons.
Qed.

Lemma matches_integer_inv (t : text) :
  matches INTEGER_PATTERN t -> int_token t.
Proof.
  unfold INTEGER_PATTERN, Opt. intros H.
  inversion H as [| | |? ? s1 s2 H1 H2| | | |]; subst.
  apply matches_plus_digits_inv in H2. destruct H2 as [Hne Hds].
  inversion H1 as [| | | |? ? ? Hc|? ? ? He| |]; subst.
  - inversion Hc; subst. now apply int_token_minus.
  - inversion He; subst. now apply int_token_plain.
Qed.

Lemma matches_fraction_inv (fr : text) :
  matches (Opt (Seq (Char ".") (Star Digit))) fr -> fraction fr.
Proof.
  unfold Opt. intros H.
  inversion H as [| | | |? ? ? Hp|? ? ? He| |]; subst.
  - inversion Hp as [| | |? ? s1 s2 H1 H2| | | |]; subst.
    inversion H1; subst. apply matches_star_digits_inv in H2.
    now apply fraction_point.
  - inversion He; subst. constructor.
Qed.

Lemma matches_number_inv (s : text) :
  matches NUMBER_PATTERN s ->
  exists t fr, int_token t /\ fraction fr /\ s = t ++ fr.
Proof.
  unfold NUMBER_PATTERN. intros H.
  inversion H as [| | |? ? s1 s2 H1 H2| | | |]; subst.
  inversion H2 as [| | |? ? s3 s4 H3 H4| | | |]; subst.
  apply matches_fraction_inv in H4.
  exists (s1 ++ s3), s4. rewrite app_assoc. repeat split; [|assumption].
  apply matches_integer_inv. unfold INTEGER_PATTERN. now constructor.
Qed.

Lemma matches_with_commas_inv (r : regex) (s : text) :
  matches (Star (Seq r (Char ","))) s ->
  exists tokens, Forall (matches r) tokens /\ s = with_commas tokens.
Proof.
  intros H.
  destruct (matches_star_inv _ _ s H eq_refl) as (ps & Hall & ->).
  clear H. induction Hall as [|p ps Hp _ (tokens & Ht & IH)].
  - exists []. split; [constructor|reflexivity].
  - inversion Hp as [| | |? ? s1 s2 H1 H2| | | |]; subst.
    inversion H2; subst.
    exists (s1 :: tokens). split; [now constructor|].
    unfold with_commas in *. cbn [map concat]. now rewrite IH.
Qed.

Lemma matches_bracketed_inv (r r' : regex) (s : text) :
  matches (Seq (Char "[") (Seq (Star (Seq r (Char ","))) (Seq r' (Char "]"))))
    s ->
  exists init last, Forall (matches r) init /\ matches r' last /\
    s = bracketed (with_commas init ++ last).
Proof.
  intros H.
  inversion H as [| | |? ? s1 s2 H1 H2| | | |]; subst.
  inversion H1; subst.
  inversion H2 as [| | |? ? s3 s4 H3 H4| | | |]; subst.
  inversion H4 as [| | |? ? s5 s6 H5 H6| | | |]; subst.
  inversion H6; subst.
  apply matches_with_commas_inv in H3. destruct H3 as (init & Hi & ->).
  exists init, s5. repeat split; auto.
  unfold bracketed. cbn [app]. now rewrite <- app_assoc.
Qed.

End Grammar.

Section Integers.

Local Open Scope Z_scope.

Lemma digits_value_acc (u : Decimal.uint) :
  forall acc : positive,
    fold_left (fun a d => 10 * a + digit_value d) (uint_chars u) (Z.pos acc)
    = Z.pos (Pos.of_uint_acc u acc).
Proof.
  induction u; intros acc; cbn [uint_chars fold_left Pos.of_uint_acc];
    [reflexivity|..]; rewrite <- IHu; f_equal;
    match goal with |- context [digit_value ?c] =>
      let v := eval vm_compute in (digit_value c) in
      change (digit_value c) with v end; lia.
Qed.

Lemma digits_value_uint (u : Decimal.uint) :
  digits_value (uint_chars u) = Z.of_uint u.
Proof.
  unfold digits_value, Z.of_uint.
  induction u; cbn [uint_chars fold_left Pos.of_uint]; try reflexivity;
    try exact IHu; apply digits_value_acc.
Qed.

Lemma uint_chars_digits (u : Decimal.uint) : all_digits (uint_chars u).
Proof.
  induction u; cbn [uint_chars]; [reflexivity|..];
    apply all_digits_cons; (split; [reflexivity|assumption]).
Qed.

Lemma uint_chars_nonempty (u : Decimal.uint) :
  u <> Decimal.Nil -> uint_chars u <> [].
Proof. destruct u; [contradiction|..]; discriminate. Qed.

Lemma to_int_nonnil (z : Z) :
  match Z.to_int z with Decimal.Pos u | Decimal.Neg u => u <> Decimal.Nil end.
Proof.
  destruct z; cbn; [discriminate|..];
    apply DecimalPos.Unsigned.to_uint_nonnil.
Qed.

Lemma str_int_token (z : Z) : int_token (str_int z).
Proof.
  unfold str_int. pose proof (to_int_nonnil z) as H.
  destruct (Z.to_int z) as [u|u].
  - apply int_token_plain;
      [now apply uint_chars_nonempty|apply uint_chars_digits].
  - apply int_token_minus;
      [now apply uint_chars_nonempty|apply uint_chars_digits].
Qed.

Lemma int_value_plain (ds : text) :
  ds <> [] -> all_digits ds -> int_value ds = digits_value ds.
Proof.
  intros Hne Hds. destruct ds as [|d ds]; [contradiction|].
  apply all_digits_cons in Hds. destruct Hds as [Hd _].
  unfold int_value. now rewrite (digit_not_minus d Hd).
Qed.

Lemma int_value_str_int (z : Z) : int_value (str_int z) = z.
Proof.
  rewrite <- (DecimalZ.of_to z) at 2.
  unfold str_int, Z.of_int. pose proof (to_int_nonnil z) as H.
  destruct (Z.to_int z) as [u|u].
  - rewrite int_value_plain;
      [apply digits_value_uint|now apply uint_chars_nonempty
      |apply uint_chars_digits].
  - unfold int_value. rewrite Ascii.eqb_refl. f_equal.
    apply digits_value_uint.
Qed.

End Integers.

Section Conversion.

Lemma filter_all_digits (ds : text) : all_digits ds -> filter is_digit ds = ds.
Proof.
  induction ds as [|d ds IH]; intros H; [reflexivity|].
  apply all_digits_cons in H. destruct H as [Hd Hds].
  cbn [filter]. rewrite Hd. f_equal. now apply IH.
Qed.

Lemma all_digits_forallb (ds : text) : all_digits ds -> forallb is_digit ds = true.
Proof. exact (fun H => H). Qed.

(** [int] on a token: its value, unless it has too many digits. *)
Lemma py_int_token (max_str_digits : nat) (t : text) :
  int_token t ->
  (within_limit max_str_digits t ->
   py_int max_str_digits t = Value (int_value t)) /\
  (~ within_limit max_str_digits t ->
   py_int max_str_digits t = Fails IntValueError).
Proof.
  intros Ht.
  assert (H : exists ds, ds <> [] /\ all_digits ds /\
            digit_count t = length ds /\
            py_int max_str_digits t =
              if (640 <? length ds) && (0 <? max_str_digits)
                 && (max_str_digits <? length ds)
              then Fails IntValueError else Value (int_value t)).
  { destruct Ht as [ds Hne Hds|ds Hne Hds]; exists ds.
    - repeat split; auto.
      + unfold digit_count. now rewrite filter_all_digits.
      + destruct ds as [|d ds]; [contradiction|].
        pose proof Hds as Hds'.
        apply all_digits_cons in Hds'. destruct Hds' as [Hd _].
        unfold py_int, int_value. rewrite (digit_not_minus d Hd).
        rewrite (all_digits_forallb _ Hds). reflexivity.
    - repeat split; auto.
      + unfold digit_count. cbn [filter].
        change (is_digit "-") with false. cbv iota.
        now rewrite filter_all_digits.
      + unfold py_int, int_value. rewrite Ascii.eqb_refl.
        rewrite (all_digits_forallb _ Hds).
        destruct ds as [|d ds]; [contradiction|]. reflexivity. }
  destruct H as (ds & Hne & Hds & Hc & Hp).
  unfold within_limit. rewrite Hc, Hp. split; intros Hl.
  - destruct ((640 <? length ds) && (0 <? max_str_digits)
              && (max_str_digits <? length ds)) eqn:E; [|reflexivity].
    apply andb_true_iff in E. destruct E as [E E3].
    apply andb_true_iff in E. destruct E as [E1 E2].
    apply Nat.ltb_lt in E1, E2, E3. lia.
  - destruct ((640 <? length ds) && (0 <? max_str_digits)
              && (max_str_digits <? length ds)) eqn:E; [reflexivity|].
    exfalso. apply Hl.
    apply andb_false_iff in E. destruct E as [E|E];
      [apply andb_false_iff in E; destruct E as [E|E]|];
      apply Nat.ltb_ge in E; lia.
Qed.

Lemma int_each_tokens (max_str_digits : nat) (tokens : list text) :
  Forall int_token tokens -> Forall (within_limit max_str_digits) tokens ->
  int_each max_str_digits tokens = Value (map int_value tokens).
Proof.
  induction 1 as [|t tokens Ht _ IH]; intros Hl; [reflexivity|].
  cbn [int_each map].
  rewrite (proj1 (py_int_token max_str_digits t Ht) (Forall_inv Hl)).
  now rewrite (IH (Forall_inv_tail Hl)).
Qed.

End Conversion.

Section Lists.

(** [findall] over a comma-separated list: each element is found and
    each comma is passed over. *)
Lemma findall_comma_join (r : regex) (token stops : text -> Prop) :
  (forall s k, exec r (","%char :: s) k = None) ->
  (forall s, stops (","%char :: s)) ->
  (forall t rest, token t -> stops rest ->
     exec r (t ++ rest) Some = Some rest) ->
  (forall t, token t -> t <> []) ->
  forall tokens tail, Forall token tokens -> tokens <> [] -> stops tail ->
    findall r (comma_join tokens ++ tail) = tokens ++ findall r tail.
Proof.
  intros Hskip Hcomma Htok Hne.
  induction tokens as [|t tokens IH]; intros tail Hall Hnil Htail;
    [contradiction|].
  pose proof (Forall_inv Hall) as Ht.
  destruct tokens as [|t' tokens].
  - cbn [comma_join app]. apply findall_found; auto.
  - rewrite comma_join_cons2, <- app_assoc. cbn [app].
    rewrite findall_found; auto.
    rewrite findall_skip by apply Hskip.
    rewrite IH; auto; [now apply Forall_inv_tail in Hall|discriminate].
Qed.

Lemma remove_spaces_app (s1 s2 : text) :
  remove_spaces (s1 ++ s2) = remove_spaces s1 ++ remove_spaces s2.
Proof. apply filter_app. Qed.

Lemma remove_spaces_digits (ds : text) :
  all_digits ds -> remove_spaces ds = ds.
Proof.
  induction ds as [|d ds IH]; intros H; [reflexivity|].
  apply all_digits_cons in H. destruct H as [Hd Hds].
  unfold remove_spaces in *. cbn [filter].
  destruct (Ascii.eqb d " ") eqn:E.
  - apply Ascii.eqb_eq in E. subst d. discriminate.
  - cbn [negb]. f_equal. now apply IH.
Qed.

Lemma remove_spaces_int_token (t : text) :
  int_token t -> remove_spaces t = t.
Proof.
  intros [ds _ Hds|ds _ Hds]; [now apply remove_spaces_digits|].
  change (remove_spaces ("-"%char :: ds))
    with ("-"%char :: remove_spaces ds).
  f_equal. now apply remove_spaces_digits.
Qed.

Lemma remove_spaces_comma_space_join (tokens : list text) :
  Forall int_token tokens ->
  remove_spaces (comma_space_join tokens) = comma_join tokens.
Proof.
  induction 1 as [|t tokens Ht _ IH]; [reflexivity|].
  destruct tokens as [|t' tokens];
    [now apply remove_spaces_int_token|].
  change (comma_space_join (t :: t' :: tokens))
    with (t ++ ","%char :: " "%char :: comma_space_join (t' :: tokens)).
  rewrite remove_spaces_app, remove_spaces_int_token by assumption.
  rewrite comma_join_cons2. f_equal.
  change (remove_spaces (","%char :: " "%char :: ?x))
    with (","%char :: remove_spaces x).
  f_equal. exact IH.
Qed.

Lemma remove_spaces_bracketed (s : text) :
  remove_spaces (bracketed s) = bracketed (remove_spaces s).
Proof.
  unfold bracketed.
  change (remove_spaces ("["%char :: ?x)) with ("["%char :: remove_spaces x).
  f_equal. now rewrite remove_spaces_app.
Qed.

Lemma remove_spaces_str_list (l : list Z) :
  remove_spaces (str_list l) = bracketed (comma_join (map str_int l)).
Proof.
  unfold str_list. rewrite remove_spaces_bracketed. f_equal.
  apply remove_spaces_comma_space_join.
  apply Forall_map, Forall_forall. intros z _. apply str_int_token.
Qed.

(** What [findall] makes of the end of an integer list. *)
Lemma findall_integer_tail (fr : text) :
  fraction fr ->
  findall INTEGER_PATTERN (fr ++ ["]"%char]) = after_point fr.
Proof.
  intros [|fd Hfd]; cbn [app after_point].
  - rewrite findall_skip by (now apply exec_integer_skip).
    now apply findall_nil.
  - rewrite findall_skip by (now apply exec_integer_skip).
    destruct fd as [|d fd].
    + cbn [app]. rewrite findall_skip by (now apply exec_integer_skip).
      now apply findall_nil.
    + rewrite findall_found; [|discriminate|].
      * rewrite findall_skip by (now apply exec_integer_skip).
        now rewrite findall_nil.
      * apply exec_integer_token; [|reflexivity|reflexivity].
        now apply int_token_plain.
Qed.

Lemma stops_integer_tail (fr : text) :
  fraction fr -> stops_integer (fr ++ ["]"%char]).
Proof. intros [|fd Hfd]; reflexivity. Qed.

Lemma findall_integer_list (tokens : list text) (fr : text) :
  tokens <> [] -> Forall int_token tokens -> fraction fr ->
  findall INTEGER_PATTERN (bracketed (comma_join tokens ++ fr))
  = tokens ++ after_point fr.
Proof.
  intros Hne Hall Hfr. unfold bracketed.
  rewrite findall_skip by (now apply exec_integer_skip).
  rewrite <- app_assoc.
  rewrite (findall_comma_join INTEGER_PATTERN int_token stops_integer).
  - now rewrite findall_integer_tail.
  - intros s k. now apply exec_integer_skip.
  - intros s. reflexivity.
  - intros t rest Ht Hrest. now apply exec_integer_token.
  - apply int_token_nonempty.
  - assumption.
  - assumption.
  - now apply stops_integer_tail.
Qed.

Lemma matches_int_list (tokens : list text) (fr : text) :
  tokens <> [] -> Forall int_token tokens -> fraction fr ->
  matches INT_LIST_PATTERN (bracketed (comma_join tokens ++ fr)).
Proof.
  intros Hne Hall Hfr.
  destruct (nonempty_snoc tokens Hne) as (init & last & ->).
  apply Forall_app in Hall. destruct Hall as [Hinit Hlast].
  apply Forall_inv in Hlast.
  rewrite comma_join_snoc, <- app_assoc.
  apply matches_or_left. apply matches_bracketed.
  - eapply Forall_impl; [|exact Hinit]. apply matches_integer.
  - now apply matches_number.
Qed.

Lemma matches_int_list_inv (s : text) :
  matches INT_LIST_PATTERN s ->
  s = bracketed [] \/
  exists tokens fr, tokens <> [] /\ Forall int_token tokens /\
    fraction fr /\ s = bracketed (comma_join tokens ++ fr).
Proof.
  unfold INT_LIST_PATTERN. intros H.
  inversion H as [| | | |? ? ? Hl|? ? ? Hr| |]; subst.
  - right. apply matches_bracketed_inv in Hl.
    destruct Hl as (init & last & Hinit & Hlast & ->).
    apply matches_number_inv in Hlast.
    destruct Hlast as (t & fr & Ht & Hfr & ->).
    exists (init ++ [t]), fr. repeat split; auto.
    + destruct init; discriminate.
    + apply Forall_app. split; [|constructor; [assumption|constructor]].
      eapply Forall_impl; [|exact Hinit]. apply matches_integer_inv.
    + now rewrite comma_join_snoc, app_assoc.
  - left. inversion Hr as [| | |? ? s1 s2 H1 H2| | | |]; subst.
    inversion H1; subst. inversion H2; subst. reflexivity.
Qed.

End Lists.

Section IntegerLists.

Lemma int_list_form_tokens (clean : text) (elements : list text) :
  int_list_form clean elements -> Forall int_token elements.
Proof.
  intros [|tokens fr Hne Hall Hfr]; [constructor|].
  apply Forall_app. split; [assumption|].
  destruct Hfr as [|fd Hfd]; [constructor|].
  destruct fd as [|d fd]; [constructor|].
  constructor; [|constructor]. now apply int_token_plain.
Qed.

Lemma int_list_form_matches (clean : text) (elements : list text) :
  int_list_form clean elements -> matches INT_LIST_PATTERN clean.
Proof.
  intros [|tokens fr Hne Hall Hfr]; [|now apply matches_int_list].
  apply matches_or_right. change (bracketed []) with (["["%char] ++ ["]"%char]).
  apply matches_seq; constructor.
Qed.

Lemma int_list_form_findall (clean : text) (elements : list text) :
  int_list_form clean elements ->
  findall INTEGER_PATTERN clean = elements.
Proof.
  intros [|tokens fr Hne Hall Hfr]; [reflexivity|].
  now apply findall_integer_list.
Qed.

Lemma matches_int_list_form (clean : text) :
  matches INT_LIST_PATTERN clean -> exists elements, int_list_form clean elements.
Proof.
  intros H. apply matches_int_list_inv in H.
  destruct H as [->|(tokens & fr & Hne & Hall & Hfr & ->)].
  - exists []. constructor.
  - exists (tokens ++ after_point fr). now constructor.
Qed.

Lemma within_limit_dec (max_str_digits : nat) (t : text) :
  {within_limit max_str_digits t} + {~ within_limit max_str_digits t}.
Proof.
  unfold within_limit.
  destruct (le_dec (digit_count t) 640); [left; lia|].
  destruct (Nat.eq_dec max_str_digits 0); [left; lia|].
  destruct (le_dec (digit_count t) max_str_digits); [left; lia|right; lia].
Qed.

Lemma int_each_over_limit (max_str_digits : nat) (tokens : list text) :
  Forall int_token tokens -> ~ Forall (within_limit max_str_digits) tokens ->
  int_each max_str_digits tokens = Fails IntValueError.
Proof.
  induction 1 as [|t tokens Ht _ IH]; intros Hl;
    [exfalso; apply Hl; constructor|].
  cbn [int_each].
  destruct (within_limit_dec max_str_digits t) as [Hw|Hw].
  - rewrite (proj1 (py_int_token max_str_digits t Ht) Hw).
    rewrite IH; [reflexivity|]. intros Hall. apply Hl. now constructor.
  - now rewrite (proj2 (py_int_token max_str_digits t Ht) Hw).
Qed.

Lemma parse_int_list_form (max_str_digits : nat) (s : text)
    (elements : list text) :
  int_list_form (remove_spaces s) elements ->
  IntListType._parse_string max_str_digits s
  = int_each max_str_digits elements.
Proof.
  intros Hform. unfold IntListType._parse_string.
  rewrite (proj2 (fullmatch_matches _ _) (int_list_form_matches _ _ Hform)).
  cbn [negb]. now rewrite (int_list_form_findall _ _ Hform).
Qed.

End IntegerLists.

(** X11.  [IntListType._parse_string] on a string that, spaces deleted,
    is a bracketed list of integers between commas, the last of which
    may carry a point and digits: it returns the values of the integers,
    followed by the value of the digits behind the point when there are
    any, unless one of them has more digits than [int] accepts, which is
    a [ValueError]. *)
Theorem int_list_accepted (max_str_digits : nat) (s : text)
    (elements : list text) :
  int_list_form (remove_spaces s) elements ->
  (Forall (within_limit max_str_digits) elements ->
   IntListType._parse_string max_str_digits s
   = Value (map int_value elements)) /\
  (~ Forall (within_limit max_str_digits) elements ->
   IntListType._parse_string max_str_digits s = Fails IntValueError).
Proof.
  intros Hform. rewrite (parse_int_list_form _ _ _ Hform).
  pose proof (int_list_form_tokens _ _ Hform) as Htok.
  split; intros Hl.
  - now apply int_each_tokens.
  - now apply int_each_over_limit.
Qed.

(** X12.  The three outcomes of [IntListType._parse_string]: a list, only
    for a string of the form above, and then the values of its elements;
    a [ValueError] of [int], only when an element of such a string has
    too many digits; and for every other string the [BadParameter] whose
    message speaks of a 2D-array. *)
Theorem int_list_outcomes (max_str_digits : nat) (s : text) :
  match IntListType._parse_string max_str_digits s with
  | Value l =>
      exists elements, int_list_form (remove_spaces s) elements /\
        Forall (within_limit max_str_digits) elements /\
        l = map int_value elements
  | Fails IntValueError =>
      exists elements, int_list_form (remove_spaces s) elements /\
        ~ Forall (within_limit max_str_digits) elements
  | Fails (BadParameter message) =>
      message = "Provided string does not represent a 2D-array!"%string /\
      forall elements, ~ int_list_form (remove_spaces s) elements
  end.
Proof.
  destruct (fullmatch INT_LIST_PATTERN (remove_spaces s)) eqn:Hm.
  - apply fullmatch_matches, matches_int_list_form in Hm.
    destruct Hm as (elements & Hform).
    rewrite (parse_int_list_form _ _ _ Hform).
    pose proof (int_list_form_tokens _ _ Hform) as Htok.
    destruct (Forall_dec _ (within_limit_dec max_str_digits) elements)
      as [Hl|Hl].
    + rewrite int_each_tokens by assumption. now exists elements.
    + rewrite int_each_over_limit by assumption. now exists elements.
  - unfold IntListType._parse_string. rewrite Hm. cbn [negb].
    split; [reflexivity|]. intros elements Hform.
    apply int_list_form_matches, fullmatch_matches in Hform. congruence.
Qed.

(** X13.  Round trip: what Python prints for a list of integers, with
    spaces added or removed anywhere, is read back as that list. *)
Theorem int_list_round_trip (max_str_digits : nat) (l : list Z) (s : text) :
  remove_spaces s = remove_spaces (str_list l) ->
  Forall (fun z => within_limit max_str_digits (str_int z)) l ->
  IntListType._parse_string max_str_digits s = Value l.
Proof.
  intros Hs Hl. rewrite remove_spaces_str_list in Hs.
  assert (Hform : int_list_form (remove_spaces s) (map str_int l)).
  { rewrite Hs. destruct l as [|z l]; [constructor|].
    assert (Htok : Forall int_token (map str_int (z :: l))).
    { apply Forall_map, Forall_forall. intros z' _. apply str_int_token. }
    pose proof (int_list_form_elements (map str_int (z :: l)) []
                  ltac:(discriminate) Htok fraction_none) as H.
    cbn [after_point] in H. now rewrite !app_nil_r in H. }
  rewrite (parse_int_list_form _ _ _ Hform).
  rewrite int_each_tokens.
  - f_equal. rewrite map_map. rewrite <- (map_id l) at 2.
    apply map_ext. intros z. apply int_value_str_int.
  - apply Forall_map, Forall_forall. intros z' _. apply str_int_token.
  - now apply Forall_map.
Qed.

Section Rows.

Lemma number_token_nonempty (t : text) : number_token t -> t <> [].
Proof.
  intros [i fr Hi _]. pose proof (int_token_nonempty i Hi).
  destruct i; [contradiction|discriminate].
Qed.

Lemma matches_number_token (t : text) :
  number_token t <-> matches NUMBER_PATTERN t.
Proof.
  split.
  - intros [i fr Hi Hfr]. now apply matches_number.
  - intros H. apply matches_number_inv in H.
    destruct H as (i & fr & Hi & Hfr & ->). now constructor.
Qed.

Lemma findall_number_row (numbers : list text) :
  numbers <> [] -> Forall number_token numbers ->
  findall NUMBER_PATTERN (row_string numbers) = numbers.
Proof.
  intros Hne Hall. unfold row_string, bracketed.
  rewrite findall_skip by (now apply exec_number_skip).
  rewrite (findall_comma_join NUMBER_PATTERN number_token stops_number).
  - rewrite findall_skip by (now apply exec_number_skip).
    rewrite findall_nil by reflexivity. apply app_nil_r.
  - intros s k. now apply exec_number_skip.
  - intros s. split; [reflexivity|discriminate].
  - intros t rest [i fr Hi Hfr] Hrest. now apply exec_number_token.
  - apply number_token_nonempty.
  - assumption.
  - assumption.
  - split; [reflexivity|discriminate].
Qed.

Lemma matches_row (numbers : list text) :
  numbers <> [] -> Forall number_token numbers ->
  matches ONE_DIMENSIONAL_ARRAY_PATTERN (row_string numbers).
Proof.
  intros Hne Hall.
  destruct (nonempty_snoc numbers Hne) as (init & last & ->).
  apply Forall_app in Hall. destruct Hall as [Hinit Hlast].
  apply Forall_inv in Hlast.
  unfold row_string. rewrite comma_join_snoc.
  apply matches_bracketed; [|now apply matches_number_token].
  eapply Forall_impl; [|exact Hinit]. apply matches_number_token.
Qed.

Lemma matches_row_inv (s : text) :
  matches ONE_DIMENSIONAL_ARRAY_PATTERN s ->
  exists numbers, numbers <> [] /\ Forall number_token numbers /\
    s = row_string numbers.
Proof.
  intros H. apply matches_bracketed_inv in H.
  destruct H as (init & last & Hinit & Hlast & ->).
  exists (init ++ [last]). repeat split.
  - destruct init; discriminate.
  - apply Forall_app. split.
    + eapply Forall_impl; [|exact Hinit]. apply matches_number_token.
    + constructor; [now apply matches_number_token|constructor].
  - unfold row_string. now rewrite comma_join_snoc.
Qed.

Lemma no_bracket_digits (ds : text) : all_digits ds -> no_bracket ds.
Proof.
  induction ds as [|d ds IH]; intros H; [constructor|].
  apply all_digits_cons in H. destruct H as [Hd Hds].
  constructor; [|now apply IH]. intros ->. discriminate.
Qed.

Lemma no_bracket_number (t : text) : number_token t -> no_bracket t.
Proof.
  intros [i fr Hi Hfr]. apply Forall_app. split.
  - destruct Hi as [ds _ Hds|ds _ Hds]; [now apply no_bracket_digits|].
    constructor; [discriminate|now apply no_bracket_digits].
  - destruct Hfr as [|fd Hfd]; [constructor|].
    constructor; [discriminate|now apply no_bracket_digits].
Qed.

Lemma no_bracket_comma_join (numbers : list text) :
  Forall number_token numbers -> no_bracket (comma_join numbers).
Proof.
  induction 1 as [|t numbers Ht _ IH]; [constructor|].
  destruct numbers as [|t' numbers]; [now apply no_bracket_number|].
  rewrite comma_join_cons2. apply Forall_app. split.
  - now apply no_bracket_number.
  - constructor; [discriminate|exact IH].
Qed.

Lemma first_bracket (b1 b2 x y : text) :
  no_bracket b1 -> no_bracket b2 ->
  b1 ++ "]"%char :: x = b2 ++ "]"%char :: y -> b1 = b2 /\ x = y.
Proof.
  revert b2. induction b1 as [|c b1 IH]; intros b2 H1 H2 E.
  - destruct b2 as [|c2 b2]; cbn [app] in E.
    + now injection E.
    + injection E as <- _. now apply Forall_inv in H2.
  - destruct b2 as [|c2 b2]; cbn [app] in E.
    + injection E as -> _. now apply Forall_inv in H1.
    + injection E as <- E.
      destruct (IH b2 (Forall_inv_tail H1) (Forall_inv_tail H2) E)
        as [-> ->].
      now split.
Qed.

Lemma row_string_split (numbers : list text) :
  Forall number_token numbers ->
  exists body, no_bracket body /\
    forall rest, row_string numbers ++ rest = body ++ "]"%char :: rest.
Proof.
  intros Hall. exists ("["%char :: comma_join numbers). split.
  - constructor; [discriminate|now apply no_bracket_comma_join].
  - intros rest. unfold row_string, bracketed.
    cbn [app]. now rewrite <- app_assoc.
Qed.

(** [ONE_DIMENSIONAL_ARRAY_PATTERN] at the start of a row takes the
    row: a row ends at its first closing bracket. *)
Lemma exec_row (numbers : list text) (rest : text) :
  numbers <> [] -> Forall number_token numbers ->
  exec ONE_DIMENSIONAL_ARRAY_PATTERN (row_string numbers ++ rest) Some
  = Some rest.
Proof.
  intros Hne Hall.
  destruct (exec ONE_DIMENSIONAL_ARRAY_PATTERN (row_string numbers ++ rest)
              Some) as [e|] eqn:He.
  - apply exec_sound in He.
    destruct He as (s1 & s2 & E & Hm & [= ->]).
    apply matches_row_inv in Hm.
    destruct Hm as (numbers' & _ & Hall' & ->).
    destruct (row_string_split numbers Hall) as (b & Hb & Eb).
    destruct (row_string_split numbers' Hall') as (b' & Hb' & Eb').
    rewrite Eb, Eb' in E.
    destruct (first_bracket b b' rest e Hb Hb' E) as [_ ->]. reflexivity.
  - exfalso. revert He. apply exec_complete; [|discriminate].
    now apply matches_row.
Qed.

Lemma exec_row_skip (c : ascii) (s : text) (k : text -> option text) :
  c <> "["%char -> exec ONE_DIMENSIONAL_ARRAY_PATTERN (c :: s) k = None.
Proof.
  intros Hc. unfold ONE_DIMENSIONAL_ARRAY_PATTERN.
  rewrite exec_seq, exec_char_cons.
  destruct (Ascii.eqb c "[") eqn:E; [|reflexivity].
  apply Ascii.eqb_eq in E. contradiction.
Qed.

(** Nor does it match at a bracket that opens a row of rows. *)
Lemma exec_row_nested (numbers : list text) (rest : text)
    (k : text -> option text) :
  exec ONE_DIMENSIONAL_ARRAY_PATTERN ("["%char :: row_string numbers ++ rest) k
  = None.
Proof.
  unfold ONE_DIMENSIONAL_ARRAY_PATTERN, row_string, bracketed.
  rewrite exec_seq, exec_char_cons, Ascii.eqb_refl, exec_seq, exec_star.
  cbn [app]. rewrite star_loop_stuck.
  - rewrite exec_seq. now apply exec_number_skip.
  - intros k'. rewrite exec_seq. now apply exec_number_skip.
Qed.

Lemma findall_rows (rows : list (list text)) :
  rows <> [] ->
  Forall (fun numbers => numbers <> [] /\ Forall number_token numbers) rows ->
  findall ONE_DIMENSIONAL_ARRAY_PATTERN (matrix_string rows)
  = map row_string rows.
Proof.
  intros Hne Hall. unfold matrix_string, bracketed.
  assert (Hfirst : exists numbers rest,
            comma_join (map row_string rows) ++ ["]"%char]
            = row_string numbers ++ rest).
  { destruct rows as [|numbers rows]; [contradiction|].
    destruct rows as [|numbers' rows].
    - now exists numbers, ["]"%char].
    - exists numbers. cbn [map]. rewrite comma_join_cons2, <- app_assoc.
      now eexists. }
  destruct Hfirst as (numbers & rest & Hfirst).
  rewrite findall_skip by (rewrite Hfirst; apply exec_row_nested).
  rewrite (findall_comma_join ONE_DIMENSIONAL_ARRAY_PATTERN
             (fun r => exists numbers, numbers <> [] /\
                Forall number_token numbers /\ r = row_string numbers)
             (fun _ => True)).
  - rewrite findall_skip by (now apply exec_row_skip).
    rewrite findall_nil by reflexivity. apply app_nil_r.
  - intros s k. now apply exec_row_skip.
  - intros s. exact I.
  - intros t rest' (numbers' & Hne' & Hall' & ->) _. now apply exec_row.
  - intros t (numbers' & _ & _ & ->). discriminate.
  - apply Forall_map. eapply Forall_impl; [|exact Hall].
    intros numbers' [Hne' Hall']. now exists numbers'.
  - destruct rows; [contradiction|discriminate].
  - exact I.
Qed.

Lemma matches_matrix (rows : list (list text)) :
  rows <> [] ->
  Forall (fun numbers => numbers <> [] /\ Forall number_token numbers) rows ->
  matches TWO_DIMENSIONAL_ARRAY_PATTERN (matrix_string rows).
Proof.
  intros Hne Hall.
  destruct (nonempty_snoc rows Hne) as (init & last & ->).
  apply Forall_app in Hall. destruct Hall as [Hinit Hlast].
  apply Forall_inv in Hlast. destruct Hlast as [Hl1 Hl2].
  unfold matrix_string. rewrite map_app. cbn [map].
  rewrite comma_join_snoc.
  apply matches_bracketed; [|now apply matches_row].
  apply Forall_map. eapply Forall_impl; [|exact Hinit].
  intros numbers [H1 H2]. now apply matches_row.
Qed.

Lemma matches_rows_inv (strings : list text) :
  Forall (matches ONE_DIMENSIONAL_ARRAY_PATTERN) strings ->
  exists rows,
    Forall (fun numbers => numbers <> [] /\ Forall number_token numbers) rows
    /\ strings = map row_string rows.
Proof.
  induction 1 as [|s strings Hs _ (rows & Hrows & ->)].
  - exists []. split; [constructor|reflexivity].
  - apply matches_row_inv in Hs. destruct Hs as (numbers & Hne & Hall & ->).
    exists (numbers :: rows). split; [now constructor|reflexivity].
Qed.

Lemma matches_matrix_inv (clean : text) :
  matches TWO_DIMENSIONAL_ARRAY_PATTERN clean ->
  exists rows, matrix_form clean rows.
Proof.
  intros H. apply matches_bracketed_inv in H.
  destruct H as (init & last & Hinit & Hlast & ->).
  assert (Hall : Forall (matches ONE_DIMENSIONAL_ARRAY_PATTERN)
                   (init ++ [last])).
  { apply Forall_app. split; [assumption|now repeat constructor]. }
  apply matches_rows_inv in Hall. destruct Hall as (rows & Hrows & E).
  exists rows. repeat split; [|assumption|].
  - intros ->. destruct init; discriminate.
  - unfold matrix_string. now rewrite <- E, comma_join_snoc.
Qed.

End Rows.

Section Matrices.

Context {F : Type}.
Variable float : text -> F.
Variable array_error : list (list F) -> string.

Lemma parse_matrix_form (s : text) (rows : list (list text)) :
  matrix_form (remove_spaces s) rows ->
  MatrixType._parse_string float array_error s =
  match np_array (map (map float) rows) with
  | Some a => Value a
  | None => Fails (BadParameter (array_error (map (map float) rows)))
  end.
Proof.
  intros (Hne & Hall & Hs). unfold MatrixType._parse_string.
  rewrite Hs.
  rewrite (proj2 (fullmatch_matches _ _) (matches_matrix rows Hne Hall)).
  cbn [negb]. rewrite (findall_rows rows Hne Hall), map_map.
  assert (E : map (fun x => map float (findall NUMBER_PATTERN (row_string x)))
                rows = map (map float) rows).
  { apply map_ext_Forall. eapply Forall_impl; [|exact Hall].
    intros numbers [H1 H2]. cbv beta. now rewrite findall_number_row. }
  now rewrite E.
Qed.

Lemma np_array_rows (c : nat) (rows : list (list text)) :
  rows <> [] -> row_length c rows ->
  np_array (map (map float) rows)
  = Some (mk_ndarray [length rows; c] (map float (concat rows))).
Proof.
  intros Hne Hc. destruct rows as [|row rows]; [contradiction|].
  unfold np_array. cbn [map].
  assert (Hall : forallb (fun r => length r =? length (map float row))
            (map float row :: map (map float) rows) = true).
  { change (map float row :: map (map float) rows)
      with (map (map float) (row :: rows)).
    apply forallb_forall. intros r Hr. apply in_map_iff in Hr.
    destruct Hr as (r' & <- & Hr').
    unfold row_length in Hc. rewrite Forall_forall in Hc.
    rewrite !length_map, (Hc r' Hr'), (Hc row (or_introl eq_refl)).
    apply Nat.eqb_refl. }
  rewrite Hall. f_equal. f_equal.
  - cbn [length]. rewrite !length_map.
    now rewrite (Forall_inv Hc).
  - change (map float row :: map (map float) rows)
      with (map (map float) (row :: rows)).
    now rewrite concat_map.
Qed.

Lemma np_array_ragged (rows : list (list text)) :
  (forall c, ~ row_length c rows) -> np_array (map (map float) rows) = None.
Proof.
  intros Hc. destruct rows as [|row rows].
  - exfalso. apply (Hc 0). constructor.
  - unfold np_array. cbn [map].
    destruct (forallb _ _) eqn:Hall; [|reflexivity].
    exfalso. apply (Hc (length row)).
    change (map float row :: map (map float) rows)
      with (map (map float) (row :: rows)) in Hall.
    rewrite forallb_forall in Hall.
    apply Forall_forall. intros r Hr.
    specialize (Hall (map float r) (in_map _ _ _ Hr)).
    apply Nat.eqb_eq in Hall. now rewrite !length_map in Hall.
Qed.

Lemma row_length_dec (rows : list (list text)) :
  {c | row_length c rows} + {forall c, ~ row_length c rows}.
Proof.
  destruct rows as [|row rows]; [left; exists 0; constructor|].
  destruct (Forall_dec (fun r : list text => length r = length row)
              (fun r => Nat.eq_dec (length r) (length row)) rows) as [H|H].
  - left. exists (length row). now constructor.
  - right. intros c Hc. apply H.
    pose proof (Forall_inv Hc) as E. cbv beta in E. subst c.
    exact (Forall_inv_tail Hc).
Qed.

End Matrices.

(** X14.  [MatrixType._parse_string] on a string that, spaces deleted, is
    a bracketed list of bracketed rows of numbers: when every row has
    [c] numbers it returns the array of shape [(rows, c)] whose entries,
    row by row, are [float] of the numbers; when the rows differ in
    length it fails with numpy's message. *)
Theorem matrix_accepted {F : Type} (float : text -> F)
    (array_error : list (list F) -> string) (s : text)
    (rows : list (list text)) :
  matrix_form (remove_spaces s) rows ->
  (forall c, row_length c rows ->
     MatrixType._parse_string float array_error s
     = Value (mk_ndarray [length rows; c] (map float (concat rows)))) /\
  ((forall c, ~ row_length c rows) ->
     MatrixType._parse_string float array_error s
     = Fails (BadParameter (array_error (map (map float) rows)))).
Proof.
  intros Hform. rewrite (parse_matrix_form float array_error s rows Hform).
  destruct Hform as (Hne & _ & _). split.
  - intros c Hc. now rewrite (np_array_rows float c rows Hne Hc).
  - intros Hc. now rewrite (np_array_ragged float rows Hc).
Qed.

(** X15.  The outcomes of [MatrixType._parse_string]: an array, only for
    a string of the form above whose rows have one length, and then the
    array has at least one row and one column and as many entries as its
    shape says; the [BadParameter] with numpy's message, when the rows of
    such a string differ in length; and for every other string the
    [BadParameter] that says so. *)
Theorem matrix_outcomes {F : Type} (float : text -> F)
    (array_error : list (list F) -> string) (s : text) :
  match MatrixType._parse_string float array_error s with
  | Value a =>
      exists rows c, matrix_form (remove_spaces s) rows /\
        row_length c rows /\ 1 <= length rows /\ 1 <= c /\
        a = mk_ndarray [length rows; c] (map float (concat rows)) /\
        length (data a) = length rows * c
  | Fails (BadParameter message) =>
      (message = "Provided string does not represent a 2D-array!"%string /\
       forall rows, ~ matrix_form (remove_spaces s) rows) \/
      (exists rows, matrix_form (remove_spaces s) rows /\
         (forall c, ~ row_length c rows) /\
         message = array_error (map (map float) rows))
  | Fails IntValueError => False
  end.
Proof.
  destruct (fullmatch TWO_DIMENSIONAL_ARRAY_PATTERN (remove_spaces s))
    eqn:Hm.
  - apply fullmatch_matches, matches_matrix_inv in Hm.
    destruct Hm as (rows & Hform).
    rewrite (parse_matrix_form float array_error s rows Hform).
    pose proof Hform as (Hne & Hall & _).
    destruct (row_length_dec rows) as [[c Hc]|Hc].
    + rewrite (np_array_rows float c rows Hne Hc).
      exists rows, c.
      split; [exact Hform|]. split; [exact Hc|].
      split; [destruct rows; [contradiction|cbn; lia]|].
      split; [|split; [reflexivity|]].
      * destruct rows as [|row rows]; [contradiction|].
        rewrite <- (Forall_inv Hc).
        destruct (Forall_inv Hall) as [Hrow _].
        destruct row; [contradiction|cbn; lia].
      * cbn [data]. rewrite length_map. clear Hne Hall Hform.
        induction Hc as [|row rows Hrow _ IH]; [reflexivity|].
        cbn [concat length]. rewrite length_app, IH, Hrow. lia.
    + rewrite (np_array_ragged float rows Hc). right. now exists rows.
  - unfold MatrixType._parse_string. rewrite Hm. cbn [negb]. left.
    split; [reflexivity|]. intros rows (Hne & Hall & Hs).
    pose proof (matches_matrix rows Hne Hall) as H. rewrite <- Hs in H.
    apply fullmatch_matches in H. congruence.
Qed.

(** * The command line and the constructor *)

Section CommandLine.

Context {F : Type} `{SF : Scalar F}.
Variable float : text -> F.
Variable array_error : list (list F) -> string.

Lemma convert_two_dimensional (value : MatrixType.py_value)
    (a : ndarray F) :
  MatrixType.convert float array_error value = Value a ->
  length (shape a) = 2.
Proof.
  destruct value as [b|s|printed]; cbn [MatrixType.convert].
  - destruct (length (shape b) =? 2) eqn:E; cbn [negb]; [|discriminate].
    intros [= <-]. now apply Nat.eqb_eq.
  - pose proof (matrix_outcomes float array_error s) as H.
    destruct (MatrixType._parse_string float array_error s) as [b|e];
      [|discriminate].
    intros [= <-]. destruct H as (rows & c & _ & _ & _ & _ & -> & _).
    reflexivity.
  - discriminate.
Qed.

(** X16.  Matrices that come through [MatrixType.convert] are
    two-dimensional, so on them the constructor never raises the error
    of its first check, nor the only error that compares the emission
    matrix with the transition matrix (the two shapes have the same
    number of dimensions, whatever the numbers of rows). *)
Theorem command_line_two_dimensional (mat sampling : MatrixType.py_value)
    (t s : ndarray F) :
  MatrixType.convert float array_error mat = Value t ->
  MatrixType.convert float array_error sampling = Value s ->
  new_hmm t s <> Raise (ValueError "Matrix is not two-dimensions!") /\
  new_hmm t s
  <> Raise (ValueError "Does not provide a distribution for each state!").
Proof.
  intros Ht Hs.
  apply convert_two_dimensional in Ht, Hs.
  unfold new_hmm, valid_tranisition_matrix, valid_sampling_probabilities.
  cbn [transition_matrix]. rewrite Ht, Hs. cbn [Nat.eqb negb].
  destruct (negb (nth 0 (shape t) 0 =? nth 1 (shape t) 0));
    [split; intros [= H]; discriminate H|].
  destruct (existsb _ (flatten t));
    [split; intros [= H]; discriminate H|].
  destruct (existsb _ (sum_axis1 t));
    [split; intros [= H]; discriminate H|].
  cbn [bind].
  destruct (existsb _ (flatten s));
    [split; intros [= H]; discriminate H|].
  destruct (existsb _ (sum_axis1 s));
    [split; intros [= H]; discriminate H|].
  split; discriminate.
Qed.

End CommandLine.

(** * The command line types at concrete inputs *)

Section CommandLineWitnesses.

Ltac int_tok :=
  first [ apply int_token_plain; [discriminate|reflexivity]
        | apply int_token_minus; [discriminate|reflexivity] ].

(** A decimal as last element is accepted and read as two integers; an
    element of 641 digits is more than [int] takes when the limit is
    640. *)
Lemma int_list_accepted_witness :
  IntListType._parse_string 4300 (list_ascii_of_string "[1, 2.5]")
  = Value [1; 2; 5]%Z /\
  IntListType._parse_string 640 (bracketed (repeat "1"%char 641))
  = Fails IntValueError.
Proof.
  split.
  - assert (Hform : int_list_form
              (remove_spaces (list_ascii_of_string "[1, 2.5]"))
              [["1"%char]; ["2"%char]; ["5"%char]]).
    { refine (int_list_form_elements [["1"%char]; ["2"%char]]
                ["."%char; "5"%char] _ _ _).
      - discriminate.
      - repeat (apply Forall_cons; [int_tok|]). apply Forall_nil.
      - apply fraction_point. reflexivity. }
    apply (proj1 (int_list_accepted 4300 _ _ Hform)).
    repeat (apply Forall_cons; [left; vm_compute; lia|]). apply Forall_nil.
  - assert (Hform : int_list_form
              (remove_spaces (bracketed (repeat "1"%char 641)))
              [repeat "1"%char 641]).
    { refine (int_list_form_elements [repeat "1"%char 641] [] _ _ _).
      - discriminate.
      - apply Forall_cons; [|apply Forall_nil].
        apply int_token_plain; [discriminate|reflexivity].
      - apply fraction_none. }
    apply (proj2 (int_list_accepted 640 _ _ Hform)).
    intros H. apply Forall_inv in H. unfold within_limit in H.
    assert (E : digit_count (repeat "1"%char 641) = 641) by reflexivity.
    rewrite E in H. lia.
Defined.

(** The list of the repository's test, with its spaces. *)
Lemma int_list_round_trip_witness :
  IntListType._parse_string 4300
    (list_ascii_of_string "[  1, 2,   33, -67 ]")
  = Value [1; 2; 33; -67]%Z.
Proof.
  apply int_list_round_trip; [reflexivity|].
  repeat (apply Forall_cons; [left; vm_compute; lia|]). apply Forall_nil.
Defined.

End CommandLineWitnesses.

Section MatrixWitnesses.

Import QModel.

Ltac number_tok i fr :=
  refine (number_token_intro (list_ascii_of_string i)
            (list_ascii_of_string fr) _ _);
  [ first [ apply int_token_plain; [discriminate|reflexivity]
          | apply int_token_minus; [discriminate|reflexivity] ]
  | first [ apply fraction_none | apply fraction_point; reflexivity ] ].

(** The first matrix of the repository's test, and rows of different
    lengths. *)
Lemma matrix_accepted_witness :
  MatrixType._parse_string float_exact (fun _ => "rows differ"%string)
    (list_ascii_of_string "[ [0., 0],  [1.000000, 2.200]  ]")
  = Value (mk_ndarray [2; 2]
             (map float_exact
                (map list_ascii_of_string
                   ["0."; "0"; "1.000000"; "2.200"]%string))) /\
  MatrixType._parse_string float_exact (fun _ => "rows differ"%string)
    (list_ascii_of_string "[[0.0], [1.0, 3.2]]")
  = Fails (BadParameter "rows differ").
Proof.
  split.
  - assert (Hform : matrix_form
              (remove_spaces
                 (list_ascii_of_string "[ [0., 0],  [1.000000, 2.200]  ]"))
              (map (map list_ascii_of_string)
                 [["0."; "0"]; ["1.000000"; "2.200"]]%string)).
    { split; [discriminate|]. split; [|reflexivity].
      apply Forall_cons; [split; [discriminate|]|].
      - apply Forall_cons; [number_tok "0"%string "."%string|].
        apply Forall_cons; [number_tok "0"%string EmptyString|].
        apply Forall_nil.
      - apply Forall_cons; [split; [discriminate|]|apply Forall_nil].
        apply Forall_cons; [number_tok "1"%string ".000000"%string|].
        apply Forall_cons; [number_tok "2"%string ".200"%string|].
        apply Forall_nil. }
    apply (proj1 (matrix_accepted float_exact _ _ _ Hform) 2).
    repeat (apply Forall_cons; [reflexivity|]). apply Forall_nil.
  - assert (Hform : matrix_form
              (remove_spaces (list_ascii_of_string "[[0.0], [1.0, 3.2]]"))
              (map (map list_ascii_of_string)
                 [["0.0"]; ["1.0"; "3.2"]]%string)).
    { split; [discriminate|]. split; [|reflexivity].
      apply Forall_cons; [split; [discriminate|]|].
      - apply Forall_cons; [number_tok "0"%string ".0"%string|].
        apply Forall_nil.
      - apply Forall_cons; [split; [discriminate|]|apply Forall_nil].
        apply Forall_cons; [number_tok "1"%string ".0"%string|].
        apply Forall_cons; [number_tok "3"%string ".2"%string|].
        apply Forall_nil. }
    apply (proj2 (matrix_accepted float_exact
                    (fun _ => "rows differ"%string) _ _ Hform)).
    intros c H. pose proof (Forall_inv H) as H1.
    pose proof (Forall_inv (Forall_inv_tail H)) as H2.
    cbn in H1, H2. lia.
Defined.

(** One state and three emission rows, typed on the command line: both
    matrices are converted, and the constructor does not raise the error
    about a distribution for each state. *)
Lemma command_line_two_dimensional_witness :
  new_hmm
    (mk_ndarray [1; 1] [float_exact (list_ascii_of_string "1")])
    (mk_ndarray [3; 1]
       (map float_exact
          (map list_ascii_of_string ["0.1"; "0.2"; "0.7"]%string)))
  <> Raise (ValueError "Does not provide a distribution for each state!").
Proof.
  apply (command_line_two_dimensional float_exact
           (fun _ => "rows differ"%string)
           (MatrixType.PyStr (list_ascii_of_string "[[1]]"))
           (MatrixType.PyStr
              (list_ascii_of_string "[[0.1], [0.2], [0.7]]"))).
  - reflexivity.
  - reflexivity.
Defined.

End MatrixWitnesses.

(** * The failures of the decoder *)

Section Failures.

Context {F : Type} `{SF : Scalar F}.
Variable null_space : ndarray F -> ndarray F.

Lemma mapM_raises {A B} (f : A -> result F B) (P : exn F -> Prop)
    (l : list A) :
  (forall a e, f a = Raise e -> P e) ->
  forall e, mapM f l = Raise e -> P e.
Proof.
  intros Hf. induction l as [|a l IH]; intros e; cbn [mapM];
    [discriminate|].
  destruct (f a) as [b|e1] eqn:Ha; cbn [bind].
  - destruct (mapM f l) as [bs|e2]; cbn [bind]; [discriminate|].
    intros [= <-]. now apply IH.
  - intros [= <-]. now apply (Hf a).
Qed.

Lemma step_bag_raises (hmm : HiddenMarkovModel) (probabilities : list F)
    (marble : Z) (bag : nat) (e : exn F) :
  step_bag hmm probabilities marble bag = Raise e -> e = IndexError.
Proof.
  unfold step_bag.
  destruct (best_parent hmm bag 0 probabilities f0 0) as [[p q]|e1] eqn:Hb;
    cbn [bind].
  - destruct (getitem2 _ _ _) as [x|e2] eqn:Hx; cbn [bind]; [discriminate|].
    intros [= <-]. eauto using getitem2_raises.
  - intros [= <-]. eauto using best_parent_raises.
Qed.

Lemma step_raises (hmm : HiddenMarkovModel) (num_bags : nat)
    (probabilities : list F) (marble : Z) (e : exn F) :
  step hmm num_bags probabilities marble = Raise e -> e = IndexError.
Proof.
  unfold step.
  destruct (mapM _ _) as [r|e1] eqn:Hm; cbn [bind]; [discriminate|].
  intros [= <-]. revert Hm.
  apply (mapM_raises _ (fun e => e = IndexError)).
  intros bag e. apply step_bag_raises.
Qed.

Lemma run_steps_raises (hmm : HiddenMarkovModel) (num_bags : nat)
    (marbles : list Z) :
  forall probabilities parents_by_marble e,
    run_steps hmm num_bags probabilities parents_by_marble marbles = Raise e ->
    e = IndexError.
Proof.
  induction marbles as [|marble rest IH]; intros probs parents e;
    cbn [run_steps]; [discriminate|].
  destruct (step hmm num_bags probs marble) as [[p q]|e1] eqn:Hs;
    cbn [bind].
  - apply IH.
  - intros [= <-]. eauto using step_raises.
Qed.

Lemma backtrace_raises (rev_parents : list (list nat)) :
  forall last_visited_bag rev_path (e : exn F),
    backtrace rev_parents last_visited_bag rev_path = Raise e ->
    e = IndexError.
Proof.
  induction rev_parents as [|parent_array rest IH]; intros bag path e;
    cbn [backtrace]; [discriminate|].
  destruct (nth_error parent_array bag); [apply IH|now intros [= <-]].
Qed.

Lemma steady_state_raises (hmm : HiddenMarkovModel) (e : exn F) :
  steady_state_probabilities null_space hmm = Raise e ->
  e = IndexError \/ e = NonUniqueStationary (null_space (kernel_matrix hmm)).
Proof.
  unfold steady_state_probabilities.
  destruct (nth_error _ 1) as [g|]; [|intros [= <-]; now left].
  destruct (1 <? g); [intros [= <-]; now right|discriminate].
Qed.

Lemma broadcast_mul_raises (u v : list F) (e : exn F) :
  broadcast_mul u v = Raise e ->
  e = ValueError "operands could not be broadcast together".
Proof.
  unfold broadcast_mul. destruct (length u =? length v); [discriminate|].
  destruct u as [|x [|x' u]]; destruct v as [|y [|y' v]];
    try discriminate; now intros [= <-].
Qed.

(** X17.  The failures of [viterbi] are these and no others: the
    ValueError of its first statement, for the empty sequence and only
    for it; an IndexError of an index out of range; the error of
    [steady_state_probabilities] for a null space of more than one
    dimension; numpy's ValueError for the product of two vectors of
    different lengths; and numpy's ValueError for [np.argmax] of an
    empty array. *)
Theorem viterbi_failures (hmm : HiddenMarkovModel) (sequence : list Z)
    (e : exn F) :
  viterbi null_space hmm sequence = Raise e ->
  (sequence = [] /\
   e = ValueError "Cannot provide empty sequence of events!") \/
  (sequence <> [] /\
   (e = IndexError \/
    e = NonUniqueStationary (null_space (kernel_matrix hmm)) \/
    e = ValueError "operands could not be broadcast together" \/
    e = ValueError "attempt to get argmax of an empty sequence")).
Proof.
  destruct sequence as [|first_marble rest]; cbn [viterbi].
  - intros [= <-]. now left.
  - intros H. right. split; [discriminate|]. revert H.
    unfold forward, initial_probabilities.
    destruct (steady_state_probabilities null_space hmm) as [steady|e1]
      eqn:Hs; cbn [bind];
      [|intros [= <-]; destruct (steady_state_raises hmm e1 Hs); auto].
    destruct (getitem _ first_marble) as [column|e1] eqn:Hc; cbn [bind];
      [|intros [= <-]; left; eauto using getitem_raises].
    destruct (broadcast_mul steady (flatten column)) as [probs|e1] eqn:Hb;
      cbn [bind];
      [|intros [= <-]; right; right; left; eauto using broadcast_mul_raises].
    destruct (run_steps hmm _ probs [] rest) as [[final parents]|e1] eqn:Hr;
      cbn [bind];
      [|intros [= <-]; left; eauto using run_steps_raises].
    destruct final as [|x final]; cbn [argmax bind];
      [intros [= <-]; now repeat right|].
    destruct (backtrace _ _ _) as [path|e1] eqn:Hp; cbn [bind];
      [discriminate|].
    intros [= <-]. left. eauto using backtrace_raises.
Qed.

End Failures.

Section FailuresWitness.

Import QModel.

(** The two-state model and a second marble that names no column. *)
Lemma viterbi_failures_witness :
  ([0; 5]%Z = [] /\
   @IndexError Qc = ValueError "Cannot provide empty sequence of events!") \/
  ([0; 5]%Z <> [] /\
   (@IndexError Qc = IndexError \/
    IndexError = NonUniqueStationary (null_space_52 (kernel_matrix test_hmm)) \/
    @IndexError Qc = ValueError "operands could not be broadcast together" \/
    @IndexError Qc
    = ValueError "attempt to get argmax of an empty sequence")).
Proof.
  apply (viterbi_failures null_space_52 test_hmm [0; 5]%Z IndexError).
  reflexivity.
Defined.

End FailuresWitness.
